(** * A price-time priority order book: the embedding of [app.py]

    The book keeps two doubly-linked chains of resting orders (bids and
    asks), each ended by a terminal node.  Orders are Python objects that
    are mutated in place ([volume], [prevnd], [nextnd]), so the model is
    a store of objects indexed by locations, a book record holding the two
    head pointers and the two effective prices, and the trace of executions
    written to standard output. *)

From stdpp Require Import gmap strings list fin_maps.
From Stdlib Require Import ZArith Lia.

Local Open Scope Z_scope.

(** ** Values *)

(** Prices are Python floats.  The book only compares them, and every
    float other than NaN is either an infinity or an integer multiple of
    the smallest subnormal, so the extended integers carry the same order.
    The one other use of a price is [int(price)] in [execute_order], of
    which the model keeps whether it is defined: it is on the finite floats
    and raises on the two infinities.  NaN is not a price. *)
Inductive Price : Type :=
| NegInf
| Fin (z : Z)
| PosInf.

Definition price_lt (a b : Price) : bool :=
  match a, b with
  | NegInf, NegInf => false
  | NegInf, _ => true
  | Fin x, Fin y => x <? y
  | Fin _, PosInf => true
  | _, _ => false
  end.

Definition price_gt (a b : Price) : bool := price_lt b a.

Definition price_le (a b : Price) : bool :=
  match a, b with
  | NegInf, _ => true
  | Fin x, Fin y => x <=? y
  | _, PosInf => true
  | _, _ => false
  end.

Definition price_ge (a b : Price) : bool := price_le b a.

(** The [side] attribute: ['B'] or ['S'].  A record with any other side is
    malformed input and is not modelled. *)
Inductive Side : Type :=
| Buy
| Sell.

Definition loc := positive.

(** An [Order] object ([Order.__init__]).  [orderid = None] is reserved for
    terminal nodes. *)
Record Order : Type := mkOrder {
  orderid : option string;
  side : Side;
  price : Price;
  volume : Z;
  prevnd : option loc;
  nextnd : option loc;
  ordertime : Z;
  _iceberg : option Z
}.

Definition set_volume (v : Z) (o : Order) : Order :=
  mkOrder (orderid o) (side o) (price o) v (prevnd o) (nextnd o)
          (ordertime o) (_iceberg o).

Definition set_prevnd (p : option loc) (o : Order) : Order :=
  mkOrder (orderid o) (side o) (price o) (volume o) p (nextnd o)
          (ordertime o) (_iceberg o).

Definition set_nextnd (p : option loc) (o : Order) : Order :=
  mkOrder (orderid o) (side o) (price o) (volume o) (prevnd o) p
          (ordertime o) (_iceberg o).

(** [Order.__init__(orderid, side, price, volume, visible=...)], with the
    reading of the clock made an argument. *)
Definition Order_init (oid : option string) (sd : Side) (p : Price) (v : Z)
    (visible : option Z) (now : Z) : Order :=
  mkOrder oid sd p v None None now visible.

(** [Order.visible_volume]: the conditional tests the truth value of
    [_iceberg], which is false for [None] and for [0]. *)
Definition visible_volume (self : Order) : Z :=
  match _iceberg self with
  | Some i => if i =? 0 then volume self else Z.min i (volume self)
  | None => volume self
  end.

(** ** Priority comparisons *)

Definition _ordertime_priority (self other : Order) : Z :=
  if ordertime other <? ordertime self then -1
  else if ordertime self <? ordertime other then 1
  else 0.

Module SellOrder.

Definition lt (self other : Order) : bool :=
  if price_lt (price other) (price self) then true
  else if price_gt (price other) (price self) then false
  else _ordertime_priority self other <? 0.

Definition gt (self other : Order) : bool :=
  if price_lt (price other) (price self) then false
  else if price_gt (price other) (price self) then true
  else _ordertime_priority self other >? 0.

Definition le (self other : Order) : bool :=
  if price_lt (price other) (price self) then true
  else if price_gt (price other) (price self) then false
  else _ordertime_priority self other <=? 0.

Definition ge (self other : Order) : bool :=
  if price_lt (price other) (price self) then false
  else if price_gt (price other) (price self) then true
  else _ordertime_priority self other >=? 0.

End SellOrder.

Module BuyOrder.

Definition lt (self other : Order) : bool :=
  if price_lt (price other) (price self) then false
  else if price_gt (price other) (price self) then true
  else _ordertime_priority self other <? 0.

Definition gt (self other : Order) : bool :=
  if price_lt (price other) (price self) then true
  else if price_gt (price other) (price self) then false
  else _ordertime_priority self other >? 0.

Definition le (self other : Order) : bool :=
  if price_lt (price other) (price self) then false
  else if price_gt (price other) (price self) then true
  else _ordertime_priority self other <=? 0.

Definition ge (self other : Order) : bool :=
  if price_lt (price other) (price self) then true
  else if price_gt (price other) (price self) then false
  else _ordertime_priority self other >=? 0.

End BuyOrder.

(** [self <= other], [self > other], ...: the method of the class of
    [self].  [parse_data] builds a [BuyOrder] for side ['B'] and a
    [SellOrder] otherwise, so the class is read off the side. *)
Definition order_le (self other : Order) : bool :=
  match side self with
  | Buy => BuyOrder.le self other
  | Sell => SellOrder.le self other
  end.

Definition order_lt (self other : Order) : bool :=
  match side self with
  | Buy => BuyOrder.lt self other
  | Sell => SellOrder.lt self other
  end.

Definition order_ge (self other : Order) : bool :=
  match side self with
  | Buy => BuyOrder.ge self other
  | Sell => SellOrder.ge self other
  end.

Definition order_gt (self other : Order) : bool :=
  match side self with
  | Buy => BuyOrder.gt self other
  | Sell => SellOrder.gt self other
  end.

(** ** The store, the book and the output *)

(** One call of [execute_order(execid, openid, price, volume)]. *)
Record Trade : Type := mkTrade {
  execid : option string;
  openid : option string;
  trade_price : Price;
  trade_volume : Z
}.

Record OrderBook : Type := mkBook {
  buy_head : loc;
  sell_head : loc;
  effectivebid : Price;
  effectiveask : Price
}.

Record World : Type := mkWorld {
  heap : gmap loc Order;
  book : OrderBook;
  stdout : list Trade
}.

Definition with_heap (h : gmap loc Order) (w : World) : World :=
  mkWorld h (book w) (stdout w).

Definition with_book (b : OrderBook) (w : World) : World :=
  mkWorld (heap w) b (stdout w).

Definition set_buy_head (l : loc) (w : World) : World :=
  with_book (mkBook l (sell_head (book w)) (effectivebid (book w))
                    (effectiveask (book w))) w.

Definition set_sell_head (l : loc) (w : World) : World :=
  with_book (mkBook (buy_head (book w)) l (effectivebid (book w))
                    (effectiveask (book w))) w.

Definition set_effectivebid (p : Price) (w : World) : World :=
  with_book (mkBook (buy_head (book w)) (sell_head (book w)) p
                    (effectiveask (book w))) w.

Definition set_effectiveask (p : Price) (w : World) : World :=
  with_book (mkBook (buy_head (book w)) (sell_head (book w))
                    (effectivebid (book w)) p) w.

(** ** Results *)

Inductive exn : Type :=
| AttributeError      (* an attribute of [None] *)
| Unallocated         (* a location that holds no object *)
| Diverges            (* the loop does not end *)
| OverflowError       (* [int] of an infinite float *)
| FileNotFoundError
| EOFError.

Inductive res (A : Type) : Type :=
| Ok (a : A)
| Raise (e : exn).

Arguments Ok {A} a.
Arguments Raise {A} e.

Definition bind {A B : Type} (c : res A) (k : A → res B) : res B :=
  match c with
  | Ok a => k a
  | Raise e => Raise e
  end.

Notation "'let*' x ':=' c 'in' k" := (bind c (fun x => k))
  (at level 10, x name, c at level 100, k at level 200).

Definition getattr (w : World) (l : loc) : res Order :=
  match heap w !! l with
  | Some n => Ok n
  | None => Raise Unallocated
  end.

Definition setattr (w : World) (l : loc) (f : Order → Order) : res World :=
  let* n := getattr w l in
  Ok (with_heap (<[l := f n]> (heap w)) w).

Definition deref (p : option loc) : res loc :=
  match p with
  | Some l => Ok l
  | None => Raise AttributeError
  end.

Definition truthy (p : option loc) : bool :=
  match p with
  | Some _ => true
  | None => false
  end.

(** [math.isfinite]: the floats on which [int] is defined. *)
Definition isfinite (p : Price) : bool :=
  match p with
  | Fin _ => true
  | NegInf | PosInf => false
  end.

(** [sys.stdout.write] of the line of one execution; the trace keeps the
    four arguments of [execute_order] (the printed price is
    [int(price)]). *)
Definition emit (w : World) (e o : option string) (p : Price) (v : Z)
    : World :=
  mkWorld (heap w) (book w) (stdout w ++ [mkTrade e o p v]).

(** [execute_order] builds the line before it writes it, and the line
    holds [int(price)]: on an infinite price the conversion raises
    [OverflowError] and nothing is written. *)
Definition execute_order (w : World) (e o : option string) (p : Price)
    (v : Z) : res World :=
  if isfinite p then Ok (emit w e o p v) else Raise OverflowError.

(** ** [OrderBook] *)

(** [OrderBook.__init__]: the two terminal nodes and the initial effective
    prices. *)
Definition OrderBook_init : World :=
  mkWorld
    (<[2%positive := Order_init None Sell PosInf 0 None 0]>
       (<[1%positive := Order_init None Buy NegInf 0 None 0]> ∅))
    (mkBook 1%positive 2%positive PosInf NegInf)
    [].

Definition head_of (w : World) (sd : Side) : loc :=
  match sd with
  | Buy => buy_head (book w)
  | Sell => sell_head (book w)
  end.

(** [fetch_orders(side)] run to exhaustion: the nodes it yields, in order.
    The terminal node (the one with no [nextnd]) is not yielded.

    The loops that walk a chain take fuel: one step more than the store has
    objects, which is enough for every chain that ends.  On a chain that
    loops the Python code never returns, and the model raises
    [Diverges]. *)
Fixpoint fetch_from (fuel : nat) (h : gmap loc Order) (nd : loc)
    : res (list loc) :=
  match fuel with
  | O => Raise Diverges
  | S fuel' =>
      match h !! nd with
      | None => Raise Unallocated
      | Some n =>
          match nextnd n with
          | None => Ok []
          | Some nx =>
              let* rest := fetch_from fuel' h nx in
              Ok (nd :: rest)
          end
      end
  end.

Definition fetch_orders (w : World) (sd : Side) : res (list loc) :=
  fetch_from (S (size (heap w))) (heap w) (head_of w sd).

(** The [for nd in self.fetch_orders(side)] loop of [add_to_book]: the
    generator is advanced one node at a time; [order <= nd] continues, and
    the first other node leaves the loop through [break] ([Some nd]).
    [None] is the exhausted generator, which runs the [else] clause. *)
Fixpoint scan (fuel : nat) (h : gmap loc Order) (order : Order) (nd : loc)
    : res (option loc) :=
  match fuel with
  | O => Raise Diverges
  | S fuel' =>
      match h !! nd with
      | None => Raise Unallocated
      | Some n =>
          match nextnd n with
          | None => Ok None
          | Some nx =>
              if order_le order n then scan fuel' h order nx
              else Ok (Some nd)
          end
      end
  end.

Definition add_to_book (w : World) (order : loc) : res World :=
  let* o := getattr w order in
  let sd := side o in
  let* found := scan (S (size (heap w))) (heap w) o (head_of w sd) in
  let* w :=
    match found with
    | Some nd =>
        let* n := getattr w nd in
        let* w := setattr w order (set_prevnd (prevnd n)) in
        let* w := setattr w nd (set_prevnd (Some order)) in
        setattr w order (set_nextnd (Some nd))
    | None =>
        let prevhead := head_of w sd in
        let* w := setattr w prevhead (set_prevnd (Some order)) in
        setattr w order (set_nextnd (Some prevhead))
    end in
  let* o := getattr w order in
  match prevnd o with
  | None =>
      match side o with
      | Buy => Ok (set_effectivebid (price o) (set_buy_head order w))
      | Sell => Ok (set_effectiveask (price o) (set_sell_head order w))
      end
  | Some p => setattr w p (set_nextnd (Some order))
  end.

(** The body of the [while] loop of [_process_buy], up to and including the
    removal of a filled head; it returns the store and the new [nd]. *)
Definition _process_buy_body (w : World) (order nd : loc)
    : res (World * loc) :=
  let* o := getattr w order in
  let* n := getattr w nd in
  let balance := Z.max (volume o - volume n) 0 in
  let* w :=
    if balance =? 0
    then execute_order w (orderid o) (orderid n) (price n) (volume o)
    else execute_order w (orderid o) (orderid n) (price n) (volume n) in
  let* w := setattr w nd (set_volume (Z.max (volume n - volume o) 0)) in
  let* w := setattr w order (set_volume balance) in
  let* n := getattr w nd in
  if volume n =? 0 then
    let* nx := deref (nextnd n) in
    let w := set_sell_head nx w in
    let* w := setattr w (sell_head (book w)) (set_prevnd None) in
    let* hd := getattr w (sell_head (book w)) in
    let w := set_effectiveask (price hd) w in
    let* n := getattr w nd in
    let* nx := deref (nextnd n) in
    Ok (w, nx)
  else Ok (w, nd).

Fixpoint _process_buy_loop (fuel : nat) (w : World) (order nd : loc)
    : res World :=
  match fuel with
  | O => Raise Diverges
  | S fuel' =>
      let* n := getattr w nd in
      if truthy (nextnd n) then
        let* o := getattr w order in
        if price_le (price n) (price o) then
          let* r := _process_buy_body w order nd in
          let* o := getattr (fst r) order in
          if volume o =? 0 then Ok (fst r)
          else _process_buy_loop fuel' (fst r) order (snd r)
        else Ok w
      else Ok w
  end.

Definition _process_buy (w : World) (order : loc) : res World :=
  _process_buy_loop (S (size (heap w))) w order (sell_head (book w)).

Definition _process_sell_body (w : World) (order nd : loc)
    : res (World * loc) :=
  let* o := getattr w order in
  let* n := getattr w nd in
  let balance := Z.max (volume o - volume n) 0 in
  let* w :=
    if balance =? 0
    then execute_order w (orderid o) (orderid n) (price n) (volume o)
    else execute_order w (orderid o) (orderid n) (price n) (volume n) in
  let* w := setattr w nd (set_volume (Z.max (volume n - volume o) 0)) in
  let* w := setattr w order (set_volume balance) in
  let* n := getattr w nd in
  if volume n =? 0 then
    let* nx := deref (nextnd n) in
    let w := set_buy_head nx w in
    let* w := setattr w (buy_head (book w)) (set_prevnd None) in
    let* hd := getattr w (buy_head (book w)) in
    let w := set_effectivebid (price hd) w in
    let* n := getattr w nd in
    let* nx := deref (nextnd n) in
    Ok (w, nx)
  else Ok (w, nd).

Fixpoint _process_sell_loop (fuel : nat) (w : World) (order nd : loc)
    : res World :=
  match fuel with
  | O => Raise Diverges
  | S fuel' =>
      let* n := getattr w nd in
      if truthy (nextnd n) then
        let* o := getattr w order in
        if price_ge (price n) (price o) then
          let* r := _process_sell_body w order nd in
          let* o := getattr (fst r) order in
          if volume o =? 0 then Ok (fst r)
          else _process_sell_loop fuel' (fst r) order (snd r)
        else Ok w
      else Ok w
  end.

Definition _process_sell (w : World) (order : loc) : res World :=
  _process_sell_loop (S (size (heap w))) w order (buy_head (book w)).

(** The [if]/[elif] statement of the loop of [process_orders]: the order is
    matched against the other side when its price reaches the effective
    price of that side. *)
Definition crossing (w : World) (order : loc) : res World :=
  let* o := getattr w order in
  match side o with
  | Buy =>
      if price_ge (price o) (effectiveask (book w))
      then _process_buy w order else Ok w
  | Sell =>
      if price_le (price o) (effectivebid (book w))
      then _process_sell w order else Ok w
  end.

(** The body of the [for order in data] loop of [process_orders]. *)
Definition process_order (w : World) (order : loc) : res World :=
  let* w := crossing w order in
  let* o := getattr w order in
  if volume o =? 0 then Ok w else add_to_book w order.

(** A decoded input record, with the clock reading ([datetime.now()]) its
    constructor sees. *)
Record Row : Type := mkRow {
  row_id : string;
  row_side : Side;
  row_price : Price;
  row_volume : Z;
  row_visible : option Z;
  row_time : Z
}.

Definition construct (r : Row) : Order :=
  Order_init (Some (row_id r)) (row_side r) (row_price r) (row_volume r)
             (row_visible r) (row_time r).

(** A new object lives at a location no object has yet. *)
Definition new_loc (w : World) : loc := fresh (dom (heap w)).

Definition alloc (w : World) (o : Order) : World :=
  with_heap (<[new_loc w := o]> (heap w)) w.

(** One incoming order: built by the input generator, then processed. *)
Definition process_row (w : World) (r : Row) : res World :=
  process_order (alloc w (construct r)) (new_loc w).

Fixpoint process_orders (w : World) (data : list Row) : res World :=
  match data with
  | [] => Ok w
  | r :: rest =>
      let* w := process_row w r in
      process_orders w rest
  end.

(** ** The two matching loops as one, indexed by the resting side

    [_process_buy] walks the sell chain and [_process_sell] the buy chain;
    apart from the chain, the direction of the price test and the effective
    price they update, the two are the same text. *)

Definition set_head (sd : Side) (l : loc) (w : World) : World :=
  match sd with
  | Buy => set_buy_head l w
  | Sell => set_sell_head l w
  end.

Definition effective (w : World) (sd : Side) : Price :=
  match sd with
  | Buy => effectivebid (book w)
  | Sell => effectiveask (book w)
  end.

Definition set_effective (sd : Side) (p : Price) (w : World) : World :=
  match sd with
  | Buy => set_effectivebid p w
  | Sell => set_effectiveask p w
  end.

(** Does a resting price on side [sd] cross the incoming price? *)
Definition crosses (sd : Side) (resting incoming : Price) : bool :=
  match sd with
  | Sell => price_le resting incoming
  | Buy => price_ge resting incoming
  end.

Definition opposite (sd : Side) : Side :=
  match sd with
  | Buy => Sell
  | Sell => Buy
  end.

Definition match_body (sd : Side) (w : World) (order nd : loc)
    : res (World * loc) :=
  let* o := getattr w order in
  let* n := getattr w nd in
  let balance := Z.max (volume o - volume n) 0 in
  let* w :=
    if balance =? 0
    then execute_order w (orderid o) (orderid n) (price n) (volume o)
    else execute_order w (orderid o) (orderid n) (price n) (volume n) in
  let* w := setattr w nd (set_volume (Z.max (volume n - volume o) 0)) in
  let* w := setattr w order (set_volume balance) in
  let* n := getattr w nd in
  if volume n =? 0 then
    let* nx := deref (nextnd n) in
    let w := set_head sd nx w in
    let* w := setattr w (head_of w sd) (set_prevnd None) in
    let* hd := getattr w (head_of w sd) in
    let w := set_effective sd (price hd) w in
    let* n := getattr w nd in
    let* nx := deref (nextnd n) in
    Ok (w, nx)
  else Ok (w, nd).

Fixpoint match_loop (sd : Side) (fuel : nat) (w : World) (order nd : loc)
    : res World :=
  match fuel with
  | O => Raise Diverges
  | S fuel' =>
      let* n := getattr w nd in
      if truthy (nextnd n) then
        let* o := getattr w order in
        if crosses sd (price n) (price o) then
          let* r := match_body sd w order nd in
          let* o := getattr (fst r) order in
          if volume o =? 0 then Ok (fst r)
          else match_loop sd fuel' (fst r) order (snd r)
        else Ok w
      else Ok w
  end.

(** ** The matching with every execution written

    The conversion [int(price)] is the only step of the matching that
    reads the value of a price, and the only one that can fail in a
    well-formed book.  The definitions of this section are the loops above
    with the line of each execution written by [emit], without the
    conversion.  They are not the program: the program returns what they
    return whenever it returns at all, and it returns whenever every price
    they write is finite (lemmas [match_loop_sound] and
    [match_loop_complete] and those that follow them).  The invariants of
    the book are proved on these definitions and carried over. *)

Definition lax_match_body (sd : Side) (w : World) (order nd : loc)
    : res (World * loc) :=
  let* o := getattr w order in
  let* n := getattr w nd in
  let balance := Z.max (volume o - volume n) 0 in
  let w :=
    if balance =? 0
    then emit w (orderid o) (orderid n) (price n) (volume o)
    else emit w (orderid o) (orderid n) (price n) (volume n) in
  let* w := setattr w nd (set_volume (Z.max (volume n - volume o) 0)) in
  let* w := setattr w order (set_volume balance) in
  let* n := getattr w nd in
  if volume n =? 0 then
    let* nx := deref (nextnd n) in
    let w := set_head sd nx w in
    let* w := setattr w (head_of w sd) (set_prevnd None) in
    let* hd := getattr w (head_of w sd) in
    let w := set_effective sd (price hd) w in
    let* n := getattr w nd in
    let* nx := deref (nextnd n) in
    Ok (w, nx)
  else Ok (w, nd).

Fixpoint lax_match_loop (sd : Side) (fuel : nat) (w : World) (order nd : loc)
    : res World :=
  match fuel with
  | O => Raise Diverges
  | S fuel' =>
      let* n := getattr w nd in
      if truthy (nextnd n) then
        let* o := getattr w order in
        if crosses sd (price n) (price o) then
          let* r := lax_match_body sd w order nd in
          let* o := getattr (fst r) order in
          if volume o =? 0 then Ok (fst r)
          else lax_match_loop sd fuel' (fst r) order (snd r)
        else Ok w
      else Ok w
  end.

Definition lax_crossing (w : World) (order : loc) : res World :=
  let* o := getattr w order in
  let sd := opposite (side o) in
  if crosses sd (effective w sd) (price o)
  then lax_match_loop sd (S (size (heap w))) w order (head_of w sd)
  else Ok w.

Definition lax_process_order (w : World) (order : loc) : res World :=
  let* w := lax_crossing w order in
  let* o := getattr w order in
  if volume o =? 0 then Ok w else add_to_book w order.

Definition lax_process_row (w : World) (r : Row) : res World :=
  lax_process_order (alloc w (construct r)) (new_loc w).

Fixpoint lax_process_orders (w : World) (data : list Row) : res World :=
  match data with
  | [] => Ok w
  | r :: rest =>
      let* w := lax_process_row w r in
      lax_process_orders w rest
  end.

(** ** The shape of a chain in the store *)

Definition next_or (nxt : option loc) (rest : list loc) : option loc :=
  match rest with
  | [] => nxt
  | y :: _ => Some y
  end.

Definition last_or (prev : option loc) (ls : list loc) : option loc :=
  match last ls with
  | Some y => Some y
  | None => prev
  end.

(** [links h prev ls nxt]: the nodes [ls] are linked in this order, the
    first one pointing back to [prev] and the last one forward to [nxt]. *)
Fixpoint links (h : gmap loc Order) (prev : option loc) (ls : list loc)
    (nxt : option loc) : Prop :=
  match ls with
  | [] => True
  | x :: rest =>
      ∃ n, h !! x = Some n ∧ prevnd n = prev ∧
           nextnd n = next_or nxt rest ∧ links h (Some x) rest nxt
  end.


(** The nodes of the two chains: for each side the resting orders in chain
    order, and the terminal node that ends the chain. *)
Record Shape : Type := mkShape {
  buy_resting : list loc;
  buy_terminal : loc;
  sell_resting : list loc;
  sell_terminal : loc
}.

Definition resting (sh : Shape) (sd : Side) : list loc :=
  match sd with
  | Buy => buy_resting sh
  | Sell => sell_resting sh
  end.

Definition terminal (sh : Shape) (sd : Side) : loc :=
  match sd with
  | Buy => buy_terminal sh
  | Sell => sell_terminal sh
  end.

Definition nodes (sh : Shape) (sd : Side) : list loc :=
  resting sh sd ++ [terminal sh sd].

Global Instance Side_eq_dec : EqDecision Side.
Proof. solve_decision. Defined.

Definition with_resting (sd : Side) (xs : list loc) (sh : Shape) : Shape :=
  match sd with
  | Buy => mkShape xs (buy_terminal sh) (sell_resting sh) (sell_terminal sh)
  | Sell => mkShape (buy_resting sh) (buy_terminal sh) xs (sell_terminal sh)
  end.

(** A well-formed book: each head pointer starts a doubly-linked chain that
    ends in a terminal node, and the two chains share no node. *)
Record wf (w : World) (sh : Shape) : Prop := mkWf {
  wf_links : ∀ sd, links (heap w) None (nodes sh sd) None;
  wf_head : ∀ sd, head (nodes sh sd) = Some (head_of w sd);
  wf_nodup : NoDup (nodes sh Buy ++ nodes sh Sell)
}.

(** The attributes of an order other than its two pointers. *)
Definition info (o : Order) : Order := set_prevnd None (set_nextnd None o).

(** The outcome of the scanning loop of [add_to_book] on a chain. *)
Inductive scanned (h : gmap loc Order) (o : Order) (xs : list loc)
    : option loc → Prop :=
| scanned_break pre nd n post :
    xs = pre ++ nd :: post →
    Forall (λ x, ∃ m, h !! x = Some m ∧ order_le o m = true) pre →
    h !! nd = Some n → order_le o n = false →
    scanned h o xs (Some nd)
| scanned_exhausted :
    Forall (λ x, ∃ m, h !! x = Some m ∧ order_le o m = true) xs →
    scanned h o xs None.


(** Where the scanning loop leaves the new order: before the node at which
    the loop broke; at the front when the generator was exhausted. *)
Fixpoint insert_before (order nd : loc) (xs : list loc) : list loc :=
  match xs with
  | [] => []
  | x :: rest =>
      if decide (x = nd) then order :: x :: rest
      else x :: insert_before order nd rest
  end.

Definition placed (order : loc) (xs : list loc) (r : option loc) : list loc :=
  match r with
  | Some nd => insert_before order nd xs
  | None => order :: xs
  end.

(** Every object of [h] is still there in [h'], with the same attributes
    apart from its pointers. *)
Definition same_info (h h' : gmap loc Order) : Prop :=
  ∀ l n, h !! l = Some n → ∃ n', h' !! l = Some n' ∧ info n' = info n.

(** What [add_to_book] establishes, given the outcome [r] of its scan. *)
Record added (w w' : World) (sh : Shape) (order : loc) (o : Order)
    (r : option loc) : Prop := mkAdded {
  added_wf :
    wf w' (with_resting (side o) (placed order (resting sh (side o)) r) sh);
  added_stdout : stdout w' = stdout w;
  added_info : same_info (heap w) (heap w');
  added_dom : dom (heap w') = dom (heap w);
  added_other :
    head_of w' (opposite (side o)) = head_of w (opposite (side o)) ∧
    effective w' (opposite (side o)) = effective w (opposite (side o));
  added_eff :
    (head (placed order (resting sh (side o)) r) = Some order ∧
     head_of w' (side o) = order ∧ effective w' (side o) = price o) ∨
    (resting sh (side o) ≠ [] ∧
     head (placed order (resting sh (side o)) r) = head (resting sh (side o)) ∧
     head_of w' (side o) = head_of w (side o) ∧
     effective w' (side o) = effective w (side o))
}.

(** The attributes of an order that never change. *)
Definition static (o : Order) : Order := set_volume 0 (info o).

Definition same_static (h h' : gmap loc Order) : Prop :=
  ∀ l n, h !! l = Some n → ∃ n', h' !! l = Some n' ∧ static n' = static n.

(** The sum of the transacted volumes of a list of executions. *)
Definition traded (ts : list Trade) : Z :=
  foldr (λ t acc, trade_volume t + acc) 0 ts.

(** All resting orders of a side have a positive volume. *)
Definition positive_side (w : World) (xs : list loc) : Prop :=
  ∀ x, x ∈ xs → ∃ n, heap w !! x = Some n ∧ 0 < volume n.

(** What a matching loop establishes: it removed the first [k] resting
    orders of side [sd]. *)
Record matched (sd : Side) (w w' : World) (sh : Shape) (order : loc)
    (o : Order) (k : nat) : Prop := mkMatched {
  m_wf : wf w' (with_resting sd (drop k (resting sh sd)) sh);
  m_order :
    ∃ v' ts, heap w' !! order = Some (set_volume v' o) ∧
             (0 ≤ volume o → 0 ≤ v') ∧
             stdout w' = stdout w ++ ts ∧
             traded ts = volume o - v';
  m_dom : dom (heap w') = dom (heap w);
  m_static : same_static (heap w) (heap w');
  m_frame : ∀ l, l ∈ nodes sh (opposite sd) → heap w' !! l = heap w !! l;
  m_pos :
    positive_side w (resting sh sd) →
    positive_side w' (drop k (resting sh sd));
  m_other :
    head_of w' (opposite sd) = head_of w (opposite sd) ∧
    effective w' (opposite sd) = effective w (opposite sd);
  m_eff :
    (k = 0%nat ∧ head_of w' sd = head_of w sd ∧
     effective w' sd = effective w sd) ∨
    (∃ hn, heap w' !! head_of w' sd = Some hn ∧ effective w' sd = price hn)
}.

(** The effective prices set by [OrderBook.__init__]. *)
Definition initial_effective (sd : Side) : Price :=
  match sd with
  | Buy => PosInf
  | Sell => NegInf
  end.

(** The effective price of a side is the price of the node its head
    pointer designates (the terminal node when nothing rests), unless the
    side has not had a head since the book was built. *)
Definition eff_ok (w : World) (sh : Shape) : Prop :=
  ∀ sd,
    (∃ hn, heap w !! head_of w sd = Some hn ∧ effective w sd = price hn) ∨
    (resting sh sd = [] ∧ effective w sd = initial_effective sd).

Definition positive_book (w : World) (sh : Shape) : Prop :=
  ∀ sd, positive_side w (resting sh sd).

(** What processing one incoming order establishes. *)
Record processed (w w' : World) (sh sh' : Shape) (order : loc) (o : Order)
    : Prop := mkProcessed {
  p_wf : wf w' sh';
  p_eff : eff_ok w sh → eff_ok w' sh';
  p_pos : 0 ≤ volume o → positive_book w sh → positive_book w' sh';
  p_order :
    ∃ o' ts, heap w' !! order = Some o' ∧ static o' = static o ∧
             (0 ≤ volume o → 0 ≤ volume o') ∧
             stdout w' = stdout w ++ ts ∧
             traded ts = volume o - volume o' ∧
             (order ∈ resting sh' (side o) ↔ volume o' ≠ 0) ∧
             order ∉ resting sh' (opposite (side o));
  p_dom : dom (heap w') = dom (heap w);
  p_static : same_static (heap w) (heap w');
  p_term : ∀ s, terminal sh' s = terminal sh s
}.

(** The chains of a new book: nothing rests, and the terminal nodes are the
    two objects that [OrderBook.__init__] creates. *)
Definition initial_shape : Shape := mkShape [] 1%positive [] 2%positive.

(** What processing one input record establishes; the new order lives at
    [order]. *)
Record row_done (w w' : World) (sh sh' : Shape) (r : Row) (order : loc)
    : Prop := mkRowDone {
  rd_wf : wf w' sh';
  rd_eff : eff_ok w sh → eff_ok w' sh';
  rd_pos : 0 ≤ row_volume r → positive_book w sh → positive_book w' sh';
  rd_order :
    ∃ o' ts, heap w' !! order = Some o' ∧ static o' = static (construct r) ∧
             (0 ≤ row_volume r → 0 ≤ volume o') ∧
             stdout w' = stdout w ++ ts ∧
             traded ts = row_volume r - volume o' ∧
             (order ∈ resting sh' (row_side r) ↔ volume o' ≠ 0) ∧
             order ∉ resting sh' (opposite (row_side r));
  rd_static : same_static (heap w) (heap w');
  rd_term : ∀ s, terminal sh' s = terminal sh s
}.

(** The prices of the two terminal nodes. *)
Definition terminal_price (sd : Side) : Price :=
  match sd with
  | Buy => NegInf
  | Sell => PosInf
  end.

Definition term_ok (w : World) (sh : Shape) : Prop :=
  ∀ sd, ∃ n, heap w !! terminal sh sd = Some n ∧ price n = terminal_price sd.

(** ** What the book shows *)

(** The resting orders of a side in chain order, each as its identifier,
    price and volume ([OrderBook.__str__] lists the same orders, formatted). *)
Definition describe (w : World) (sd : Side)
    : res (list (option string * Price * Z)) :=
  let* xs := fetch_orders w sd in
  Ok (omap (λ x, (λ n, (orderid n, price n, volume n)) <$> heap w !! x) xs).

(** [ordered_by cmp h xs]: every order of the chain [xs] is related by
    [cmp] to the one that follows it. *)
Fixpoint ordered_by (cmp : Order → Order → bool) (h : gmap loc Order)
    (xs : list loc) : bool :=
  match xs with
  | a :: rest =>
      match rest with
      | b :: _ =>
          match h !! a, h !! b with
          | Some na, Some nb => cmp na nb && ordered_by cmp h rest
          | _, _ => false
          end
      | [] => true
      end
  | [] => true
  end.

(** Strict priority order: each resting order has higher priority than the
    next one (better price, or the same price and an earlier time). *)
Definition priority_ordered (w : World) (sd : Side) : bool :=
  match fetch_orders w sd with
  | Ok xs => ordered_by order_gt (heap w) xs
  | Raise _ => false
  end.

(** The same with ties allowed. *)
Definition weakly_ordered (w : World) (sd : Side) : bool :=
  match fetch_orders w sd with
  | Ok xs => ordered_by order_ge (heap w) xs
  | Raise _ => false
  end.

(** A valid input: finite prices, positive volumes, and clock readings
    that increase from one record to the next. *)
Definition valid_row (r : Row) : bool :=
  (0 <? row_volume r) &&
  match row_price r with
  | Fin _ => true
  | _ => false
  end.

Fixpoint increasing (ts : list Z) : bool :=
  match ts with
  | a :: rest =>
      match rest with
      | b :: _ => (a <? b) && increasing rest
      | [] => true
      end
  | [] => true
  end.

Definition valid_rows (data : list Row) : bool :=
  forallb valid_row data && increasing (map row_time data).

(** The effective prices as the specification words them: the price of the
    first resting order, or the value [OrderBook.__init__] gives when
    nothing rests. *)
Definition effective_as_specified (w : World) : Prop :=
  ∀ sd, ∃ xs,
    fetch_orders w sd = Ok xs ∧
    match xs with
    | x :: _ => ∃ n, heap w !! x = Some n ∧ effective w sd = price n
    | [] => effective w sd = initial_effective sd
    end.

(** The effective prices as the code keeps them: the price of the node the
    head pointer designates, which is the first resting order, or the
    terminal node when nothing rests; a side that is empty may instead still
    have the value [OrderBook.__init__] gave it. *)
Definition effective_as_coded (w : World) : Prop :=
  ∀ sd, ∃ xs hn,
    fetch_orders w sd = Ok xs ∧
    heap w !! head_of w sd = Some hn ∧
    match xs with
    | x :: _ => head_of w sd = x
    | [] => price hn = terminal_price sd
    end ∧
    (effective w sd = price hn ∨
     (xs = [] ∧ effective w sd = initial_effective sd)).

(** ** Persistence

    [save] pickles the book into the save file and [load_book] unpickles
    it.  The byte format of pickle is not modelled: a pickle is the frame
    of the pickled objects followed by the STOP opcode that ends every
    pickle, which is what lets [pickle.load] tell a complete stream from a
    truncated one.  The save file is [None] when no file exists at the
    path. *)
Inductive opcode : Type :=
| FRAME (h : gmap loc Order) (b : OrderBook)
| STOP.

Definition pickle_dump (w : World) : list opcode :=
  [FRAME (heap w) (book w); STOP].

Definition pickle_load (f : list opcode) : res World :=
  match f with
  | FRAME h b :: STOP :: _ => Ok (mkWorld h b [])
  | _ => Raise EOFError
  end.

Definition load_book (savefile : option (list opcode)) : res World :=
  match savefile with
  | None => Raise FileNotFoundError
  | Some f => pickle_load f
  end.

Definition save (w : World) : option (list opcode) :=
  Some (pickle_dump w).

(** A truncated save file: a strict prefix of what [save] wrote. *)
Definition truncated (f : list opcode) : Prop :=
  ∃ w, f `prefix_of` pickle_dump w ∧ f ≠ pickle_dump w.

(** A save file whose book breaks the ordering of a chain. *)
Definition misordered (f : list opcode) : Prop :=
  ∃ w sd, f = pickle_dump w ∧ priority_ordered w sd = false.

(** The loop body that matches against the chain of side [sd]:
    [_process_buy] walks the asks and [_process_sell] the bids. *)
Definition process_body (sd : Side) : World → loc → loc → res (World * loc) :=
  match sd with
  | Sell => _process_buy_body
  | Buy => _process_sell_body
  end.

(** A small book for examples: one sell order at 100 for 10 rests (object
    3), and a buy order at 100 for 4 has just been built (object 4). *)
Definition demo_world : World :=
  mkWorld
    (<[4%positive := Order_init (Some "b") Buy (Fin 100) 4 None 2]>
       (<[3%positive := mkOrder (Some "a") Sell (Fin 100) 10 None
                                (Some 2%positive) 1 None]>
          (<[2%positive := mkOrder None Sell PosInf 0 (Some 3%positive)
                                   None 0 None]>
             (<[1%positive := Order_init None Buy NegInf 0 None 0]> ∅))))
    (mkBook 1%positive 3%positive PosInf (Fin 100))
    [].

Definition demo_shape : Shape := mkShape [] 1%positive [3%positive] 2%positive.

(** * More of the code *)

(** ** Equality of orders *)

(** [==] and [!=] on prices. *)
Definition price_eq (a b : Price) : bool :=
  match a, b with
  | NegInf, NegInf => true
  | Fin x, Fin y => x =? y
  | PosInf, PosInf => true
  | _, _ => false
  end.

Definition price_ne (a b : Price) : bool := negb (price_eq a b).

(** [Order.__eq__] and [Order.__ne__]. *)
Definition Order_eq (self other : Order) : bool :=
  price_eq (price self) (price other) &&
  (ordertime self =? ordertime other).

Definition Order_ne (self other : Order) : bool :=
  price_ne (price self) (price other) ||
  negb (ordertime self =? ordertime other).

(** The price with its sign changed. *)
Definition price_opp (p : Price) : Price :=
  match p with
  | NegInf => PosInf
  | Fin z => Fin (- z)
  | PosInf => NegInf
  end.

Definition set_price (p : Price) (o : Order) : Order :=
  mkOrder (orderid o) (side o) p (volume o) (prevnd o) (nextnd o)
          (ordertime o) (_iceberg o).

(** ** The book as two lists of orders *)

(** The orders at the locations [xs], with their pointers erased. *)
Definition infos (h : gmap loc Order) (xs : list loc) : list Order :=
  omap (λ x, info <$> h !! x) xs.

(** The resting orders of a side, in chain order. *)
Definition view (w : World) (sd : Side) : res (list Order) :=
  let* xs := fetch_orders w sd in
  Ok (infos (heap w) xs).

(** The matching loop as a recursion on the list of resting orders of side
    [sd]: the executions it writes, the incoming order as it is left, and
    the resting orders as they are left. *)
Fixpoint fill (sd : Side) (o : Order) (chain : list Order)
    : list Trade * Order * list Order :=
  match chain with
  | [] => ([], o, [])
  | n :: rest =>
      if crosses sd (price n) (price o) then
        let t := Z.min (volume o) (volume n) in
        let tr := mkTrade (orderid o) (orderid n) (price n) t in
        let o' := set_volume (volume o - t) o in
        if volume n - t =? 0 then
          if volume o - t =? 0 then ([tr], o', rest)
          else
            let r := fill sd o' rest in
            (tr :: fst (fst r), snd (fst r), snd r)
        else ([tr], o', set_volume (volume n - t) n :: rest)
      else ([], o, chain)
  end.

(** The scan of [add_to_book] as a recursion on the list of resting
    orders: [None] when every resting order has [order <= nd]. *)
Fixpoint place_break (o : Order) (chain : list Order) : option (list Order) :=
  match chain with
  | [] => None
  | n :: rest =>
      if order_le o n then cons n <$> place_break o rest
      else Some (o :: n :: rest)
  end.

Definition place (o : Order) (chain : list Order) : list Order :=
  match place_break o chain with
  | Some l => l
  | None => o :: chain
  end.

(** The book as lists: the resting orders of each side in chain order, and
    the executions written so far. *)
Record Lists : Type := mkLists {
  bids : list Order;
  asks : list Order;
  tape : list Trade
}.

Definition side_list (b : Lists) (sd : Side) : list Order :=
  match sd with
  | Buy => bids b
  | Sell => asks b
  end.

(** One incoming order on the lists: it is matched against the other side,
    then added to its own side if some volume is left. *)
Definition list_order (b : Lists) (o : Order) : Lists :=
  let f := fill (opposite (side o)) o (side_list b (opposite (side o))) in
  let own := side_list b (side o) in
  let own' := if volume (snd (fst f)) =? 0 then own
              else place (snd (fst f)) own in
  match side o with
  | Buy => mkLists own' (snd f) (tape b ++ fst (fst f))
  | Sell => mkLists (snd f) own' (tape b ++ fst (fst f))
  end.

Definition list_orders (data : list Row) : Lists :=
  fold_left (λ b r, list_order b (construct r)) data (mkLists [] [] []).

(** The lists a store and a shape stand for. *)
Definition lists_of (w : World) (sh : Shape) : Lists :=
  mkLists (infos (heap w) (resting sh Buy))
          (infos (heap w) (resting sh Sell))
          (stdout w).

(** The volume that rests in a list of orders. *)
Definition total_volume (l : list Order) : Z :=
  foldr (λ n acc, volume n + acc) 0 l.

(** [sorted_by cmp l]: every order of the list is related by [cmp] to the
    one that follows it. *)
Fixpoint sorted_by (cmp : Order → Order → bool) (l : list Order) : bool :=
  match l with
  | a :: rest =>
      match rest with
      | b :: _ => cmp a b && sorted_by cmp rest
      | [] => true
      end
  | [] => true
  end.

(** Every order of a list is an order of the side of the list. *)
Definition sides_ok (b : Lists) : Prop :=
  ∀ sd, Forall (λ n, side n = sd) (side_list b sd).

(** [from_input data n]: the order [n] is an order of the input [data]
    whose volume is positive and at most the volume it came with. *)
Definition from_input (data : list Row) (n : Order) : Prop :=
  ∃ r, r ∈ data ∧ n = set_volume (volume n) (construct r) ∧
       0 < volume n ≤ row_volume r.

(** Input for examples: a sell order at 100 for 10, and then a buy order
    at 100 for 4, which trades with it. *)
Definition demo_rows : list Row := [mkRow "a" Sell (Fin 100) 10 None 1].

Definition demo_row : Row := mkRow "b" Buy (Fin 100) 4 None 2.
Lemma _process_buy_body_eq w order nd :
  _process_buy_body w order nd = match_body Sell w order nd.
Proof. reflexivity. Qed.

Lemma _process_sell_body_eq w order nd :
  _process_sell_body w order nd = match_body Buy w order nd.
Proof. reflexivity. Qed.

Lemma _process_buy_loop_eq fuel w order nd :
  _process_buy_loop fuel w order nd = match_loop Sell fuel w order nd.
Proof.
  revert w nd. induction fuel as [|fuel IH]; intros w nd; [reflexivity|].
  simpl. destruct (getattr w nd) as [n|]; [|reflexivity]. simpl.
  destruct (truthy (nextnd n)); [|reflexivity].
  destruct (getattr w order) as [o|]; [|reflexivity]. simpl.
  destruct (price_le (price n) (price o)); [|reflexivity].
  rewrite _process_buy_body_eq.
  destruct (match_body Sell w order nd) as [[w1 nd1]|]; [|reflexivity]. simpl.
  destruct (getattr w1 order) as [o1|]; [|reflexivity]. simpl.
  destruct (volume o1 =? 0); [reflexivity|apply IH].
Qed.

Lemma _process_sell_loop_eq fuel w order nd :
  _process_sell_loop fuel w order nd = match_loop Buy fuel w order nd.
Proof.
  revert w nd. induction fuel as [|fuel IH]; intros w nd; [reflexivity|].
  simpl. destruct (getattr w nd) as [n|]; [|reflexivity]. simpl.
  destruct (truthy (nextnd n)); [|reflexivity].
  destruct (getattr w order) as [o|]; [|reflexivity]. simpl.
  destruct (price_ge (price n) (price o)); [|reflexivity].
  rewrite _process_sell_body_eq.
  destruct (match_body Buy w order nd) as [[w1 nd1]|]; [|reflexivity]. simpl.
  destruct (getattr w1 order) as [o1|]; [|reflexivity]. simpl.
  destruct (volume o1 =? 0); [reflexivity|apply IH].
Qed.

Lemma next_or_app nxt l1 l2 :
  next_or nxt (l1 ++ l2) = next_or (next_or nxt l2) l1.
Proof. by destruct l1. Qed.

Lemma last_or_cons prev x ls : last_or prev (x :: ls) = last_or (Some x) ls.
Proof.
  unfold last_or. destruct ls as [|y ls]; [done|].
  change (last (x :: y :: ls)) with (last (y :: ls)).
  destruct (last (y :: ls)) eqn:E; [done|].
  by apply last_None in E.
Qed.

Lemma last_or_snoc prev ls x : last_or prev (ls ++ [x]) = Some x.
Proof. unfold last_or. by rewrite last_snoc. Qed.

Lemma links_app h prev l1 l2 nxt :
  links h prev (l1 ++ l2) nxt ↔
  links h prev l1 (next_or nxt l2) ∧ links h (last_or prev l1) l2 nxt.
Proof.
  revert prev. induction l1 as [|x l1 IH]; intros prev; simpl.
  - unfold last_or; simpl. tauto.
  - rewrite last_or_cons, next_or_app. split.
    + intros (n & ? & ? & ? & Hl). apply IH in Hl as [? ?]. eauto 10.
    + intros [(n & ? & ? & ? & Hl) ?]. exists n. repeat split; try done.
      apply IH. done.
Qed.

(** Updates that keep the pointers of the nodes of a segment keep the
    segment. *)
Lemma links_frame h h' prev ls nxt :
  links h prev ls nxt →
  (∀ x n, x ∈ ls → h !! x = Some n →
          ∃ n', h' !! x = Some n' ∧ prevnd n' = prevnd n ∧
                nextnd n' = nextnd n) →
  links h' prev ls nxt.
Proof.
  revert prev. induction ls as [|x ls IH]; intros prev; simpl; [done|].
  intros (n & Hx & Hp & Hn & Hl) Hsame.
  destruct (Hsame x n) as (n' & Hx' & Hp' & Hn'); [by left|done|].
  exists n'. repeat split; try congruence.
  apply IH; [done|]. intros y m Hy. apply Hsame. by right.
Qed.

Lemma links_lookup h prev ls nxt x :
  links h prev ls nxt → x ∈ ls → is_Some (h !! x).
Proof.
  revert prev. induction ls as [|y ls IH]; intros prev; simpl.
  - intros _ Hx. by apply elem_of_nil in Hx.
  - intros (n & Hy & _ & _ & Hl) Hx. apply elem_of_cons in Hx as [->|Hx]; eauto.
Qed.

Lemma links_length h prev ls nxt :
  links h prev ls nxt → NoDup ls → (length ls ≤ size h)%nat.
Proof.
  intros Hl Hnd.
  rewrite <- (size_dom (D := gset loc)).
  rewrite <- (size_list_to_set (C := gset loc) ls) by done.
  apply subseteq_size. intros x Hx. apply elem_of_list_to_set in Hx.
  apply elem_of_dom. eapply links_lookup; eauto.
Qed.

(** ** Walking a well-formed chain *)

Lemma next_or_snoc nxt (xs : list loc) t :
  ∃ y, head (xs ++ [t]) = Some y ∧ next_or nxt (xs ++ [t]) = Some y.
Proof. destruct xs; simpl; eauto. Qed.

Lemma fetch_from_links fuel h prev xs t hd :
  links h prev (xs ++ [t]) None →
  head (xs ++ [t]) = Some hd →
  (length xs < fuel)%nat →
  fetch_from fuel h hd = Ok xs.
Proof.
  revert fuel prev hd. induction xs as [|x xs IH]; intros fuel prev hd.
  - simpl. intros (n & Ht & _ & Hn & _) [= <-] Hf.
    destruct fuel as [|fuel]; [lia|]. simpl. by rewrite Ht, Hn.
  - simpl. intros (n & Hx & _ & Hn & Hl) [= <-] Hf.
    destruct fuel as [|fuel]; [lia|]. simpl. rewrite Hx, Hn.
    destruct (next_or_snoc None xs t) as (y & Hy & ->).
    rewrite (IH fuel (Some x) y Hl Hy); [done|lia].
Qed.

Lemma nodes_nodup sh sd :
  NoDup (nodes sh Buy ++ nodes sh Sell) → NoDup (nodes sh sd).
Proof.
  intros H. apply NoDup_app in H as (? & _ & ?). by destruct sd.
Qed.

Lemma wf_length w sh sd :
  wf w sh → (length (resting sh sd) < S (size (heap w)))%nat.
Proof.
  intros [Hl _ Hnd].
  pose proof (links_length _ _ _ _ (Hl sd) (nodes_nodup _ sd Hnd)) as H.
  unfold nodes in H. rewrite length_app in H. simpl in H. lia.
Qed.

Lemma fetch_orders_wf w sh sd :
  wf w sh → fetch_orders w sd = Ok (resting sh sd).
Proof.
  intros Hwf. unfold fetch_orders.
  eapply fetch_from_links.
  - apply (wf_links _ _ Hwf sd).
  - apply (wf_head _ _ Hwf sd).
  - by eapply wf_length.
Qed.

Lemma scan_links fuel h o prev xs t hd :
  links h prev (xs ++ [t]) None →
  head (xs ++ [t]) = Some hd →
  (length xs < fuel)%nat →
  ∃ r, scan fuel h o hd = Ok r ∧ scanned h o xs r.
Proof.
  revert fuel prev hd. induction xs as [|x xs IH]; intros fuel prev hd.
  - simpl. intros (n & Ht & _ & Hn & _) [= <-] Hf.
    destruct fuel as [|fuel]; [lia|]. simpl. rewrite Ht, Hn.
    eexists; split; [done|]. by constructor.
  - simpl. intros (n & Hx & _ & Hn & Hl) [= <-] Hf.
    destruct fuel as [|fuel]; [lia|]. simpl. rewrite Hx, Hn.
    destruct (next_or_snoc None xs t) as (y & Hy & ->).
    destruct (order_le o n) eqn:Hle.
    + destruct (IH fuel (Some x) y Hl Hy) as (r & Hr & Hs); [lia|].
      exists r. split; [done|].
      destruct Hs as [pre nd m post -> Hpre Hnd Hnle|Hall].
      * apply (scanned_break _ _ _ (x :: pre) nd m post); eauto.
      * apply scanned_exhausted. constructor; eauto.
    + exists (Some x). split; [done|].
      by apply (scanned_break _ _ _ [] x n xs).
Qed.

(** ** Reading and writing attributes *)

Lemma getattr_Some w l n : heap w !! l = Some n → getattr w l = Ok n.
Proof. unfold getattr. by intros ->. Qed.

Lemma setattr_Some w l n f :
  heap w !! l = Some n →
  setattr w l f = Ok (with_heap (<[l := f n]> (heap w)) w).
Proof. unfold setattr. intros H. by rewrite (getattr_Some _ _ _ H). Qed.

Lemma insert_before_app order nd pre post :
  nd ∉ pre →
  insert_before order nd (pre ++ nd :: post) = pre ++ order :: nd :: post.
Proof.
  induction pre as [|x pre IH]; simpl; intros Hnd.
  - by rewrite decide_True.
  - apply not_elem_of_cons in Hnd as [? ?].
    rewrite decide_False by done. by rewrite IH.
Qed.

Lemma links_single h prev x nxt n :
  h !! x = Some n → prevnd n = prev → nextnd n = nxt →
  links h prev [x] nxt.
Proof. intros. exists n. by repeat split. Qed.

Lemma links_cons h prev x rest nxt n :
  h !! x = Some n → prevnd n = prev → nextnd n = next_or nxt rest →
  links h (Some x) rest nxt →
  links h prev (x :: rest) nxt.
Proof. intros. exists n. by repeat split. Qed.

(** Writes outside a segment leave it as it is. *)
Lemma links_insert_ne h prev ls nxt l n :
  l ∉ ls → links h prev ls nxt → links (<[l := n]> h) prev ls nxt.
Proof.
  intros Hl H. eapply links_frame; [done|].
  intros x m Hx Hm. exists m. rewrite lookup_insert_ne; [done|].
  intros ->. done.
Qed.

(** Redirecting the back pointer of the first node of a segment. *)
Lemma links_set_prev h prev prev' x rest nxt n :
  x ∉ rest → h !! x = Some n →
  links h prev (x :: rest) nxt →
  links (<[x := set_prevnd prev' n]> h) prev' (x :: rest) nxt.
Proof.
  intros Hx Hn (m & Hm & _ & Hnx & Hl). simplify_eq.
  eapply links_cons; [apply lookup_insert_eq|done|done|].
  by apply links_insert_ne.
Qed.

(** Redirecting the forward pointer of the last node of a segment. *)
Lemma links_set_next h prev pre y nxt nxt' n :
  y ∉ pre → h !! y = Some n →
  links h prev (pre ++ [y]) nxt →
  links (<[y := set_nextnd nxt' n]> h) prev (pre ++ [y]) nxt'.
Proof.
  intros Hy Hn Hl. apply links_app in Hl as [H1 (m & Hm & Hp & _)].
  simplify_eq. apply links_app. split.
  - by apply links_insert_ne.
  - eapply links_single; [apply lookup_insert_eq|done|done].
Qed.

Lemma links_cons_inv h prev x rest nxt :
  links h prev (x :: rest) nxt →
  ∃ n, h !! x = Some n ∧ prevnd n = prev ∧
       nextnd n = next_or nxt rest ∧ links h (Some x) rest nxt.
Proof. done. Qed.

Arguments links : simpl never.

Lemma nodes_with_resting_eq sd xs sh :
  nodes (with_resting sd xs sh) sd = xs ++ [terminal sh sd].
Proof. by destruct sd. Qed.

Lemma nodes_with_resting_ne sd s xs sh :
  s ≠ sd → nodes (with_resting sd xs sh) s = nodes sh s.
Proof. by destruct sd, s. Qed.

Lemma opposite_ne sd : opposite sd ≠ sd.
Proof. by destruct sd. Qed.

Lemma side_cases sd s : s = sd ∨ s = opposite sd.
Proof. destruct sd, s; auto. Qed.

Lemma nodes_disjoint sh sd x :
  NoDup (nodes sh Buy ++ nodes sh Sell) →
  x ∈ nodes sh sd → x ∉ nodes sh (opposite sd).
Proof.
  intros H Hx Hy. apply NoDup_app in H as (_ & Hd & _).
  destruct sd; simpl in Hy; eapply Hd; eauto.
Qed.

Lemma nodup_sides sh sd :
  NoDup (nodes sh sd ++ nodes sh (opposite sd)) →
  NoDup (nodes sh Buy ++ nodes sh Sell).
Proof.
  intros H. destruct sd; simpl in H; [done|].
  eapply NoDup_Permutation_proper; [|exact H]. apply Permutation_app_comm.
Qed.

Lemma nodup_sides_inv sh sd :
  NoDup (nodes sh Buy ++ nodes sh Sell) →
  NoDup (nodes sh sd ++ nodes sh (opposite sd)).
Proof.
  intros H. destruct sd; simpl; [done|].
  eapply NoDup_Permutation_proper; [|exact H]. apply Permutation_app_comm.
Qed.

Lemma wf_intro w sh sd xs :
  links (heap w) None (xs ++ [terminal sh sd]) None →
  head (xs ++ [terminal sh sd]) = Some (head_of w sd) →
  links (heap w) None (nodes sh (opposite sd)) None →
  head (nodes sh (opposite sd)) = Some (head_of w (opposite sd)) →
  NoDup ((xs ++ [terminal sh sd]) ++ nodes sh (opposite sd)) →
  wf w (with_resting sd xs sh).
Proof.
  intros H1 H2 H3 H4 H5. split.
  - intros s. destruct (side_cases sd s) as [->| ->].
    + by rewrite nodes_with_resting_eq.
    + by rewrite nodes_with_resting_ne by apply opposite_ne.
  - intros s. destruct (side_cases sd s) as [->| ->].
    + by rewrite nodes_with_resting_eq.
    + by rewrite nodes_with_resting_ne by apply opposite_ne.
  - apply (nodup_sides _ sd). rewrite nodes_with_resting_eq.
    by rewrite nodes_with_resting_ne by apply opposite_ne.
Qed.

Lemma head_update_eq sd p l w :
  match sd with
  | Buy => Ok (set_effectivebid p (set_buy_head l w))
  | Sell => Ok (set_effectiveask p (set_sell_head l w))
  end = Ok (set_effective sd p (set_head sd l w)).
Proof. by destruct sd. Qed.

Lemma heap_set_head sd l w : heap (set_head sd l w) = heap w.
Proof. by destruct sd. Qed.

Lemma heap_set_effective sd p w : heap (set_effective sd p w) = heap w.
Proof. by destruct sd. Qed.

Lemma stdout_set_head sd l w : stdout (set_head sd l w) = stdout w.
Proof. by destruct sd. Qed.

Lemma stdout_set_effective sd p w : stdout (set_effective sd p w) = stdout w.
Proof. by destruct sd. Qed.

Lemma head_of_set_head sd l w : head_of (set_head sd l w) sd = l.
Proof. by destruct sd. Qed.

Lemma head_of_set_head_ne sd l w :
  head_of (set_head sd l w) (opposite sd) = head_of w (opposite sd).
Proof. by destruct sd. Qed.

Lemma head_of_set_effective sd s p w :
  head_of (set_effective sd p w) s = head_of w s.
Proof. by destruct sd, s. Qed.

Lemma effective_set_effective sd p w : effective (set_effective sd p w) sd = p.
Proof. by destruct sd. Qed.

Lemma effective_set_effective_ne sd p w :
  effective (set_effective sd p w) (opposite sd) = effective w (opposite sd).
Proof. by destruct sd. Qed.

Lemma effective_set_head sd s l w :
  effective (set_head sd l w) s = effective w s.
Proof. by destruct sd, s. Qed.

Lemma info_set_prevnd p n : info (set_prevnd p n) = info n.
Proof. done. Qed.

Lemma info_set_nextnd p n : info (set_nextnd p n) = info n.
Proof. done. Qed.

Lemma scanned_perm h o xs r order :
  scanned h o xs r → placed order xs r ≡ₚ order :: xs.
Proof.
  intros [pre nd n post -> Hpre Hn Hle|Hall]; simpl; [|done].
  induction pre as [|x pre IH]; simpl.
  - by rewrite decide_True.
  - case_decide; [done|]. apply Forall_cons in Hpre as [_ Hpre].
    rewrite (IH Hpre). apply Permutation_swap.
Qed.

Lemma same_info_refl h : same_info h h.
Proof. intros l n Hl. eauto. Qed.

Lemma same_info_insert h h1 a x n :
  same_info h h1 → h1 !! a = Some n → info x = info n →
  same_info h (<[a := x]> h1).
Proof.
  intros Hs Ha Hi l m Hl. destruct (Hs l m Hl) as (m' & Hm' & Him).
  destruct (decide (l = a)) as [->|Hne].
  - rewrite lookup_insert_eq. exists x. split; [done|]. congruence.
  - rewrite lookup_insert_ne by done. eauto.
Qed.

Lemma same_info_trans h1 h2 h3 :
  same_info h1 h2 → same_info h2 h3 → same_info h1 h3.
Proof.
  intros H12 H23 l n Hl. destruct (H12 l n Hl) as (n2 & Hn2 & Hi2).
  destruct (H23 l n2 Hn2) as (n3 & Hn3 & Hi3). exists n3. split; [done|].
  congruence.
Qed.

Ltac solve_lookup :=
  simpl;
  repeat (rewrite lookup_insert_eq || rewrite lookup_insert_ne by done);
  first [done | eassumption].

(** The three pointer writes that put [order] in front of [nd]. *)
Lemma links_spliced h order o nd n rest pv :
  h !! order = Some o → h !! nd = Some n → order ≠ nd →
  order ∉ rest → nd ∉ rest →
  nextnd n = next_or None rest → links h (Some nd) rest None →
  links (<[order := set_nextnd (Some nd) (set_prevnd pv o)]>
           (<[nd := set_prevnd (Some order) n]>
              (<[order := set_prevnd pv o]> h)))
        pv (order :: nd :: rest) None.
Proof.
  intros Ho Hn Hne Ho' Hn' Hnx Hl.
  eapply links_cons; [apply lookup_insert_eq|done|done|].
  apply links_insert_ne; [by apply not_elem_of_cons|].
  eapply links_cons; [apply lookup_insert_eq|done|done|].
  apply links_insert_ne; [done|]. by apply links_insert_ne.
Qed.

Lemma add_to_book_spec w sh order o :
  wf w sh → heap w !! order = Some o → prevnd o = None →
  order ∉ nodes sh Buy ++ nodes sh Sell →
  ∃ w' r, add_to_book w order = Ok w' ∧
          scanned (heap w) o (resting sh (side o)) r ∧
          added w w' sh order o r.
Proof.
  intros Hwf Ho Hprev Hfresh.
  pose proof (wf_links _ _ Hwf (side o)) as Hl.
  pose proof (wf_head _ _ Hwf (side o)) as Hh.
  pose proof (wf_links _ _ Hwf (opposite (side o))) as Hl'.
  pose proof (wf_head _ _ Hwf (opposite (side o))) as Hh'.
  pose proof (nodup_sides_inv _ (side o) (wf_nodup _ _ Hwf)) as Hnd.
  assert (order ∉ nodes sh (side o) ++ nodes sh (opposite (side o))) as Hfr.
  { intros H. apply Hfresh. apply elem_of_app in H. apply elem_of_app.
    destruct (side o); simpl in H; tauto. }
  clear Hfresh.
  destruct (scan_links (S (size (heap w))) (heap w) o None
              (resting sh (side o)) (terminal sh (side o))
              (head_of w (side o)) Hl Hh) as (r & Hscan & Hs);
    [by eapply wf_length|].
  pose proof (scanned_perm _ _ _ _ order Hs) as Hperm.
  unfold add_to_book. rewrite (getattr_Some _ _ _ Ho). cbn [bind].
  rewrite Hscan. cbn [bind].
  destruct Hs as [pre nd n post Hxs Hpre Hn Hle|Hall].
  - (* the loop broke at [nd] *)
    apply not_elem_of_app in Hfr as [Hfr1 Hfr2].
    assert (nodes sh (side o)
            = pre ++ nd :: (post ++ [terminal sh (side o)])) as Hnodes.
    { unfold nodes. rewrite Hxs. by rewrite <- app_assoc. }
    assert (NoDup (((pre ++ order :: nd :: post) ++ [terminal sh (side o)])
                   ++ nodes sh (opposite (side o)))) as Hnd'.
    { assert (order :: nodes sh (side o) ++ nodes sh (opposite (side o))
              ≡ₚ ((pre ++ order :: nd :: post) ++ [terminal sh (side o)])
                 ++ nodes sh (opposite (side o))) as <-.
      { rewrite Hnodes. rewrite <- !app_assoc. simpl.
        rewrite <- !app_assoc. simpl. apply Permutation_middle. }
      apply NoDup_cons. split; [|done]. by apply not_elem_of_app. }
    assert (nd ∈ nodes sh (side o)) as Hin.
    { rewrite Hnodes. rewrite elem_of_app, elem_of_cons. auto. }
    pose proof (nodes_disjoint _ _ _ (wf_nodup _ _ Hwf) Hin) as Hdis.
    apply NoDup_app in Hnd as (Hnds & Hdisj & _).
    rewrite Hnodes in Hl, Hh, Hnds, Hfr1, Hdisj.
    apply links_app in Hl as [Hl1 Hl2]. simpl in Hl1.
    apply links_cons_inv in Hl2 as (n0 & Hn0 & Hpn & Hnn & Hl2).
    assert (n0 = n) as -> by congruence. clear Hn0.
    apply not_elem_of_app in Hfr1 as [Hfr0 Hfr1].
    apply not_elem_of_cons in Hfr1 as [Hne Hfr1].
    apply NoDup_app in Hnds as (Hndpre & Hndx & Hndpost).
    apply NoDup_cons in Hndpost as [Hndnd Hndpost].
    assert (nd ∉ pre) as Hndp.
    { intros Hx. by apply (Hndx nd Hx); left. }
    assert (placed order (resting sh (side o)) (Some nd)
            = pre ++ order :: nd :: post) as Hplaced.
    { simpl. rewrite Hxs. by apply insert_before_app. }
    rewrite (getattr_Some _ _ _ Hn). cbn [bind].
    rewrite (setattr_Some _ _ _ _ Ho). cbn [bind].
    erewrite setattr_Some; [|simpl; by rewrite lookup_insert_ne].
    cbn [bind].
    erewrite setattr_Some;
      [|simpl; rewrite lookup_insert_ne by done; apply lookup_insert_eq].
    cbn [bind]. unfold getattr at 1. simpl. rewrite lookup_insert_eq.
    cbn [bind]. simpl prevnd. rewrite Hpn.
    destruct pre as [|y pre _] using rev_ind.
    + unfold last_or. simpl last. cbn match. rewrite head_update_eq.
      eexists _, (Some nd). split; [done|].
      split; [by eapply (scanned_break _ _ _ [])|].
      split; rewrite ?Hplaced; rewrite ?heap_set_effective, ?heap_set_head;
        simpl heap.
      * apply wf_intro; rewrite ?heap_set_effective, ?heap_set_head;
          simpl heap.
        -- simpl. by eapply links_spliced.
        -- by rewrite head_of_set_effective, head_of_set_head.
        -- by do 3 (apply links_insert_ne; [done|]).
        -- by rewrite head_of_set_effective, head_of_set_head_ne.
        -- done.
      * by rewrite stdout_set_effective, stdout_set_head.
      * eapply same_info_insert; [|solve_lookup|done].
        eapply same_info_insert; [|solve_lookup|done].
        eapply same_info_insert; [|solve_lookup|done].
        apply same_info_refl.
      * rewrite !dom_insert_lookup_L; [done|by eauto|..];
          eexists; solve_lookup.
      * by rewrite head_of_set_effective, head_of_set_head_ne,
          effective_set_effective_ne, effective_set_head.
      * left. by rewrite head_of_set_effective, head_of_set_head,
          effective_set_effective.
    + rewrite last_or_snoc.
      pose proof Hl1 as Hl1c. apply links_app in Hl1c as [Hl0 Hly].
      apply links_cons_inv in Hly as (yn & Hyn & Hyp & Hynx & _).
      simpl in Hynx.
      assert (y ≠ order) as Hyo.
      { intros ->. apply Hfr0. rewrite elem_of_app, list_elem_of_singleton. auto. }
      assert (y ≠ nd) as Hynd.
      { intros ->. eapply Hndx; [|by left].
        rewrite elem_of_app, list_elem_of_singleton. auto. }
      apply NoDup_app in Hndpre as (_ & Hypre & _).
      erewrite setattr_Some; [|solve_lookup].
      eexists _, (Some nd). split; [done|].
      split; [by eapply (scanned_break _ _ _ (pre ++ [y]))|].
      split; rewrite ?Hplaced; simpl heap.
      * apply wf_intro; simpl heap.
        -- rewrite <- app_assoc. rewrite <- app_comm_cons.
           apply links_app. split.
           ++ simpl. eapply (links_set_next _ _ _ _ (Some nd)); [|solve_lookup|].
              { intros Hy. by apply (Hypre y Hy); left. }
              apply links_insert_ne; [exact Hfr0|].
              apply links_insert_ne; [exact Hndp|].
              apply links_insert_ne; [exact Hfr0|].
              exact Hl1.
           ++ rewrite last_or_snoc. apply links_insert_ne.
              { intros Hy. apply elem_of_cons in Hy as [?|Hy]; [done|].
                eapply Hndx; [|exact Hy].
                rewrite elem_of_app, list_elem_of_singleton. auto. }
              by eapply links_spliced.
        -- etrans; [|exact Hh]. rewrite <- !app_assoc. by destruct pre.
        -- apply links_insert_ne; [|by do 3 (apply links_insert_ne; [done|])].
           apply Hdisj. rewrite !elem_of_app, list_elem_of_singleton. auto.
        -- done.
        -- done.
      * done.
      * eapply same_info_insert; [|solve_lookup|done].
        eapply same_info_insert; [|solve_lookup|done].
        eapply same_info_insert; [|solve_lookup|done].
        eapply same_info_insert; [|solve_lookup|done].
        apply same_info_refl.
      * rewrite !dom_insert_lookup_L; [done|by eauto|..];
          eexists; solve_lookup.
      * done.
      * right. split; [rewrite Hxs; by destruct pre|].
        split; [|done]. rewrite Hxs, <- !app_assoc. by destruct pre.
  - (* the generator was exhausted *)
    assert (head_of w (side o) ∈ nodes sh (side o)) as Hin
      by (by apply head_Some_elem_of).
    destruct (links_lookup _ _ _ _ _ Hl Hin) as [hn Hhn].
    apply not_elem_of_app in Hfr as [Hfr1 Hfr2].
    assert (head_of w (side o) ≠ order) as Hne.
    { intros E. apply Hfr1. by rewrite <- E. }
    pose proof (nodes_disjoint _ _ _ (wf_nodup _ _ Hwf) Hin) as Hdis.
    rewrite (setattr_Some _ _ _ _ Hhn). cbn [bind].
    erewrite setattr_Some; [|simpl; by rewrite lookup_insert_ne].
    cbn [bind]. unfold getattr. simpl. rewrite lookup_insert_eq. simpl.
    rewrite Hprev. rewrite head_update_eq.
    eexists _, None. split; [done|]. split; [by constructor|].
    split.
    + simpl. apply wf_intro.
      * rewrite heap_set_effective, heap_set_head. simpl.
        eapply links_cons; [apply lookup_insert_eq|done| |].
        { simpl. destruct (next_or_snoc None (resting sh (side o))
                   (terminal sh (side o))) as (y & Hy & ->).
          unfold nodes in Hh. congruence. }
        apply links_insert_ne; [done|].
        apply head_Some in Hh as [rest Hrest]. unfold nodes in *.
        rewrite Hrest in *.
        eapply links_set_prev; [|done|exact Hl].
        apply NoDup_app in Hnd as (Hnd & _). by apply NoDup_cons in Hnd as [? _].
      * by rewrite head_of_set_effective, head_of_set_head.
      * rewrite heap_set_effective, heap_set_head. simpl.
        by do 2 (apply links_insert_ne; [done|]).
      * by rewrite head_of_set_effective, head_of_set_head_ne.
      * simpl. apply NoDup_cons. split; [|done].
        apply not_elem_of_app. done.
    + by rewrite stdout_set_effective, stdout_set_head.
    + rewrite heap_set_effective, heap_set_head. simpl.
      eapply same_info_insert; [|solve_lookup|done].
      eapply same_info_insert; [|solve_lookup|done].
      apply same_info_refl.
    + rewrite heap_set_effective, heap_set_head. simpl.
      rewrite dom_insert_lookup_L by (by rewrite lookup_insert_ne).
      by rewrite dom_insert_lookup_L.
    + by rewrite head_of_set_effective, head_of_set_head_ne,
        effective_set_effective_ne, effective_set_head.
    + left. by rewrite head_of_set_effective, head_of_set_head,
        effective_set_effective.
Qed.


(** ** One pass through the body of a matching loop *)

Lemma heap_with_heap h w : heap (with_heap h w) = h.
Proof. done. Qed.

Lemma stdout_with_heap h w : stdout (with_heap h w) = stdout w.
Proof. done. Qed.

Lemma head_of_with_heap h w s : head_of (with_heap h w) s = head_of w s.
Proof. done. Qed.

Lemma effective_with_heap h w s : effective (with_heap h w) s = effective w s.
Proof. done. Qed.

Lemma heap_emit w e o p v : heap (emit w e o p v) = heap w.
Proof. done. Qed.

Lemma stdout_emit w e o p v :
  stdout (emit w e o p v) = stdout w ++ [mkTrade e o p v].
Proof. done. Qed.

Lemma head_of_emit w e o p v s :
  head_of (emit w e o p v) s = head_of w s.
Proof. done. Qed.

Lemma effective_emit w e o p v s :
  effective (emit w e o p v) s = effective w s.
Proof. done. Qed.

Create Rewrite HintDb world.

#[local] Hint Rewrite heap_with_heap stdout_with_heap head_of_with_heap
  effective_with_heap heap_emit stdout_emit
  head_of_emit effective_emit
  heap_set_head heap_set_effective stdout_set_head stdout_set_effective
  head_of_set_head head_of_set_head_ne head_of_set_effective
  effective_set_effective effective_set_effective_ne effective_set_head
  : world.


Lemma set_volume_id n : set_volume (volume n) n = n.
Proof. by destruct n. Qed.

Lemma lax_match_body_spec sd w sh order o nd n rest :
  wf w sh → resting sh sd = nd :: rest →
  heap w !! order = Some o → order ∉ nodes sh Buy ++ nodes sh Sell →
  heap w !! nd = Some n →
  let t := Z.min (volume o) (volume n) in
  let h2 := <[order := set_volume (volume o - t) o]>
              (<[nd := set_volume (volume n - t) n]> (heap w)) in
  ∃ w' nd',
    lax_match_body sd w order nd = Ok (w', nd') ∧
    stdout w' =
      stdout w ++ [mkTrade (orderid o) (orderid n) (price n) t] ∧
    head_of w' (opposite sd) = head_of w (opposite sd) ∧
    effective w' (opposite sd) = effective w (opposite sd) ∧
    if decide (volume n ≤ volume o) then
      ∃ hn, heap w !! nd' = Some hn ∧
            heap w' = <[nd' := set_prevnd None hn]> h2 ∧
            head_of w' sd = nd' ∧ effective w' sd = price hn ∧
            wf w' (with_resting sd rest sh)
    else
      heap w' = h2 ∧ nd' = nd ∧ book w' = book w ∧ wf w' sh.
Proof.
  intros Hwf Hxs Ho Hfresh Hn t h2.
  pose proof (wf_links _ _ Hwf sd) as Hl.
  pose proof (wf_head _ _ Hwf sd) as Hh.
  pose proof (wf_links _ _ Hwf (opposite sd)) as Hl'.
  pose proof (wf_head _ _ Hwf (opposite sd)) as Hh'.
  pose proof (nodup_sides_inv _ sd (wf_nodup _ _ Hwf)) as Hnd.
  assert (order ∉ nodes sh sd ++ nodes sh (opposite sd)) as Hfr.
  { intros H. apply Hfresh. apply elem_of_app in H. apply elem_of_app.
    destruct sd; simpl in H; tauto. }
  clear Hfresh. apply not_elem_of_app in Hfr as [Hfr1 Hfr2].
  unfold nodes in Hl, Hh, Hnd, Hfr1. rewrite Hxs in Hl, Hh, Hnd, Hfr1.
  rewrite <- app_comm_cons in Hl, Hh, Hnd, Hfr1.
  apply links_cons_inv in Hl as (n0 & Hn0 & Hpn & Hnn & Hl).
  assert (n0 = n) as -> by congruence. clear Hn0.
  apply not_elem_of_cons in Hfr1 as [Hne Hfr1].
  apply NoDup_app in Hnd as (Hnds & Hdisj & Hndo).
  apply NoDup_cons in Hnds as [Hndr Hnds].
  unfold lax_match_body.
  rewrite (getattr_Some _ _ _ Ho). cbn [bind].
  rewrite (getattr_Some _ _ _ Hn). cbn [bind].
  set (w1 := if Z.max (volume o - volume n) 0 =? 0
             then emit w (orderid o) (orderid n) (price n) (volume o)
             else emit w (orderid o) (orderid n) (price n) (volume n)).
  assert (w1 = emit w (orderid o) (orderid n) (price n) t) as ->.
  { unfold w1, t. destruct (Z.eqb_spec (Z.max (volume o - volume n) 0) 0).
    - by rewrite Z.min_l by lia.
    - by rewrite Z.min_r by lia. }
  erewrite setattr_Some; [|exact Hn]. cbn [bind].
  erewrite setattr_Some; [|solve_lookup]. cbn [bind].
  unfold getattr at 1. simpl heap. rewrite lookup_insert_ne by done.
  rewrite lookup_insert_eq. cbn [bind]. simpl volume.
  replace (Z.max (volume n - volume o) 0) with (volume n - t) by (unfold t; lia).
  replace (Z.max (volume o - volume n) 0) with (volume o - t) by (unfold t; lia).
  subst h2.
  destruct (Z.eqb_spec (volume n - t) 0) as [Hz|Hz].
  - simpl nextnd. rewrite Hnn.
    destruct (next_or_snoc None rest (terminal sh sd)) as (nx & Hnx & ->).
    cbn [deref bind].
    assert (nx ∈ rest ++ [terminal sh sd]) as Hin
      by (by apply head_Some_elem_of).
    destruct (links_lookup _ _ _ _ _ Hl Hin) as [hn Hhn].
    assert (nx ≠ order) as Hnxo by (intros E; apply Hfr1; by rewrite <- E).
    assert (nx ≠ nd) as Hnxnd by (intros E; apply Hndr; by rewrite <- E).
    autorewrite with world.
    erewrite setattr_Some; [|autorewrite with world; solve_lookup].
    cbn [bind]. unfold getattr. autorewrite with world.
    rewrite lookup_insert_eq. cbn [bind]. autorewrite with world.
    rewrite lookup_insert_ne by done.
    rewrite lookup_insert_ne by done. rewrite lookup_insert_eq.
    cbn [bind]. simpl nextnd. rewrite Hnn.
    destruct (next_or_snoc None rest (terminal sh sd)) as (nx' & Hnx' & ->).
    assert (nx' = nx) as -> by congruence.
    cbn [deref bind].
    eexists _, nx. split; [done|].
    rewrite decide_True by (unfold t in Hz; lia).
    autorewrite with world.
    split; [done|]. split; [done|]. split; [done|].
    exists hn. split; [done|]. split; [done|]. split; [done|].
    split; [done|].
    apply wf_intro; autorewrite with world.
    + apply head_Some in Hnx as [rest' Hrest]. rewrite Hrest in *.
      eapply links_set_prev; [|solve_lookup|].
      * by apply NoDup_cons in Hnds as [? _].
      * do 2 (apply links_insert_ne; [done|]). exact Hl.
    + done.
    + apply links_insert_ne; [apply Hdisj; by right|].
      apply links_insert_ne; [done|].
      apply links_insert_ne; [apply Hdisj; by left|]. done.
    + done.
    + apply NoDup_app. split; [done|]. split; [|done].
      intros x Hx. apply Hdisj. by right.
  - eexists _, nd. split; [done|].
    rewrite decide_False by (unfold t in Hz; lia).
    autorewrite with world.
    split; [done|]. split; [done|]. split; [done|].
    split; [done|]. split; [done|]. split; [done|].
    split.
    + intros s. apply (links_frame (heap w)); [by apply (wf_links _ _ Hwf)|].
      intros x m _ Hm. autorewrite with world.
      destruct (decide (x = order)) as [->|Hxo].
      { rewrite lookup_insert_eq. simplify_eq. eauto. }
      rewrite lookup_insert_ne by done.
      destruct (decide (x = nd)) as [->|Hxn].
      { rewrite lookup_insert_eq. simplify_eq. eauto. }
      rewrite lookup_insert_ne by done. eauto.
    + apply (wf_head _ _ Hwf).
    + apply (wf_nodup _ _ Hwf).
Qed.

(** ** The matching loops *)

Lemma with_resting_id sd sh : with_resting sd (resting sh sd) sh = sh.
Proof. by destruct sd, sh. Qed.

Lemma with_resting_twice sd xs ys sh :
  with_resting sd xs (with_resting sd ys sh) = with_resting sd xs sh.
Proof. by destruct sd. Qed.

Lemma resting_with_resting sd xs sh : resting (with_resting sd xs sh) sd = xs.
Proof. by destruct sd. Qed.

Lemma resting_with_resting_ne sd xs sh :
  resting (with_resting sd xs sh) (opposite sd) = resting sh (opposite sd).
Proof. by destruct sd. Qed.

Lemma terminal_with_resting sd s xs sh :
  terminal (with_resting sd xs sh) s = terminal sh s.
Proof. by destruct sd, s. Qed.

Lemma traded_app ts1 ts2 : traded (ts1 ++ ts2) = traded ts1 + traded ts2.
Proof.
  induction ts1 as [|t ts1 IH]; simpl; [done|]. unfold traded in *. simpl.
  rewrite IH. lia.
Qed.

Lemma same_static_refl h : same_static h h.
Proof. intros l n Hl. eauto. Qed.

Lemma same_static_insert h h1 a x n :
  same_static h h1 → h1 !! a = Some n → static x = static n →
  same_static h (<[a := x]> h1).
Proof.
  intros Hs Ha Hi l m Hl. destruct (Hs l m Hl) as (m' & Hm' & Him).
  destruct (decide (l = a)) as [->|Hne].
  - rewrite lookup_insert_eq. exists x. split; [done|]. congruence.
  - rewrite lookup_insert_ne by done. eauto.
Qed.

Lemma same_static_trans h1 h2 h3 :
  same_static h1 h2 → same_static h2 h3 → same_static h1 h3.
Proof.
  intros H12 H23 l n Hl. destruct (H12 l n Hl) as (n2 & Hn2 & Hi2).
  destruct (H23 l n2 Hn2) as (n3 & Hn3 & Hi3). exists n3. split; [done|].
  congruence.
Qed.

Lemma same_info_static h h' : same_info h h' → same_static h h'.
Proof.
  intros H l n Hl. destruct (H l n Hl) as (n' & Hn' & Hi).
  exists n'. split; [done|]. unfold static. by rewrite Hi.
Qed.

Lemma static_price n n' : static n' = static n → price n' = price n.
Proof. unfold static, info. by intros [= ]. Qed.

Lemma static_side n n' : static n' = static n → side n' = side n.
Proof. unfold static, info. by intros [= ]. Qed.

Lemma matched_refl sd w sh order o :
  wf w sh → heap w !! order = Some o → matched sd w w sh order o 0.
Proof.
  intros Hwf Ho. split.
  - by rewrite drop_0, with_resting_id.
  - exists (volume o), []. rewrite set_volume_id, app_nil_r.
    repeat split; try done. simpl. lia.
  - done.
  - apply same_static_refl.
  - done.
  - by rewrite drop_0.
  - done.
  - left. done.
Qed.

Lemma matched_trans sd w w1 w2 sh order o o1 k1 k2 :
  matched sd w w1 sh order o k1 →
  heap w1 !! order = Some o1 →
  matched sd w1 w2 (with_resting sd (drop k1 (resting sh sd)) sh)
          order o1 k2 →
  matched sd w w2 sh order o (k1 + k2).
Proof.
  intros [Hwf1 Hord1 Hdom1 Hst1 Hfr1 Hpos1 Hoth1 Heff1] Ho1
         [Hwf2 Hord2 Hdom2 Hst2 Hfr2 Hpos2 Hoth2 Heff2].
  rewrite resting_with_resting in Hwf2, Hpos2.
  rewrite with_resting_twice, drop_drop in Hwf2. rewrite drop_drop in Hpos2.
  split.
  - done.
  - destruct Hord1 as (v1 & ts1 & Hv1 & Hnn1 & Hout1 & Hsum1).
    destruct Hord2 as (v2 & ts2 & Hv2 & Hnn2 & Hout2 & Hsum2).
    assert (o1 = set_volume v1 o) as -> by congruence.
    exists v2, (ts1 ++ ts2). split; [done|]. split; [auto|].
    split; [by rewrite Hout2, Hout1, app_assoc|].
    rewrite traded_app, Hsum1, Hsum2. simpl. lia.
  - congruence.
  - by eapply same_static_trans.
  - intros l Hl. rewrite Hfr2, Hfr1; [done|done|].
    unfold nodes. by rewrite resting_with_resting_ne, terminal_with_resting.
  - auto.
  - destruct Hoth1, Hoth2. split; congruence.
  - destruct Heff2 as [(-> & Hh2 & He2)|Hr]; [|by right].
    destruct Heff1 as [(-> & Hh1 & He1)|(hn & Hhn & Hp)].
    + left. repeat split; congruence.
    + right. rewrite Hh2, He2.
      destruct (Hst2 _ _ Hhn) as (hn' & Hhn' & Hs).
      exists hn'. split; [done|]. rewrite Hp. symmetry. by apply static_price.
Qed.

Lemma fresh_sides sh sd (order : loc) :
  order ∉ nodes sh Buy ++ nodes sh Sell →
  (order ∉ nodes sh sd) ∧ (order ∉ nodes sh (opposite sd)).
Proof.
  intros H. apply not_elem_of_app in H as [? ?]. by destruct sd.
Qed.

Lemma lax_match_iter sd w sh order o nd n rest :
  wf w sh → resting sh sd = nd :: rest →
  heap w !! order = Some o → order ∉ nodes sh Buy ++ nodes sh Sell →
  heap w !! nd = Some n →
  let t := Z.min (volume o) (volume n) in
  ∃ w1 nd1 k,
    lax_match_body sd w order nd = Ok (w1, nd1) ∧
    matched sd w w1 sh order o k ∧
    heap w1 !! order = Some (set_volume (volume o - t) o) ∧
    nd1 = head_of w1 sd ∧
    (k = 1%nat ∨ (k = 0%nat ∧ volume o - t = 0)).
Proof.
  intros Hwf Hxs Ho Hfresh Hn t.
  destruct (lax_match_body_spec sd w sh order o nd n rest Hwf Hxs Ho Hfresh Hn)
    as (w1 & nd1 & Hbody & Hout & Hoh & Hoe & Hcase).
  fold t in Hout, Hcase.
  destruct (fresh_sides _ sd _ Hfresh) as [Hfr1 Hfr2].
  pose proof (nodup_sides_inv _ sd (wf_nodup _ _ Hwf)) as Hnd.
  apply NoDup_app in Hnd as (Hnds & Hdisj & _).
  assert (nd ∈ nodes sh sd) as Hndin.
  { unfold nodes. rewrite Hxs. by left. }
  assert (order ≠ nd) as Hne by (intros ->; done).
  exists w1, nd1.
  destruct (decide (volume n ≤ volume o)) as [Hle|Hgt].
  - destruct Hcase as (hn & Hhn & Hheap & Hhd & Heff & Hwf1).
    assert (nd1 ∈ rest ++ [terminal sh sd]) as Hin1.
    { apply head_Some_elem_of. rewrite <- Hhd.
      pose proof (wf_head _ _ Hwf1 sd) as H.
      by rewrite nodes_with_resting_eq in H. }
    assert (nd1 ∈ nodes sh sd) as Hin1'.
    { unfold nodes. rewrite Hxs. by right. }
    assert (nd1 ≠ order) as Hn1o by (intros ->; done).
    assert (nd1 ≠ nd) as Hn1n.
    { intros ->. unfold nodes in Hnds. rewrite Hxs in Hnds.
      by apply NoDup_cons in Hnds as [? _]. }
    exists 1%nat. split; [done|]. split; [|split; [|split; [done|by left]]].
    + split.
      * by rewrite Hxs.
      * exists (volume o - t), [mkTrade (orderid o) (orderid n) (price n) t].
        rewrite Hheap. split; [solve_lookup|]. split; [lia|].
        split; [done|]. unfold traded; simpl. lia.
      * rewrite Hheap. rewrite !dom_insert_lookup_L; [done|by eauto|..];
          eexists; solve_lookup.
      * rewrite Hheap.
        eapply same_static_insert; [|solve_lookup|done].
        eapply same_static_insert; [|solve_lookup|done].
        eapply same_static_insert; [|solve_lookup|done].
        apply same_static_refl.
      * intros l Hl. rewrite Hheap.
        rewrite !lookup_insert_ne; [done|..]; intros ->.
        -- by apply (Hdisj _ Hndin).
        -- done.
        -- by apply (Hdisj _ Hin1').
      * intros Hpos x Hx. rewrite Hxs in Hx. simpl in Hx.
        destruct (Hpos x) as (m & Hm & Hv); [rewrite Hxs; by right|].
        rewrite Hheap.
        assert (x ≠ order).
        { intros ->. apply Hfr1. unfold nodes. rewrite Hxs.
          right. apply elem_of_app. by left. }
        assert (x ≠ nd).
        { intros ->. unfold nodes in Hnds. rewrite Hxs in Hnds.
          apply NoDup_cons in Hnds as [Hc _]. apply Hc.
          apply elem_of_app. by left. }
        destruct (decide (x = nd1)) as [->|Hx1].
        -- rewrite lookup_insert_eq. eexists. split; [done|].
           simpl. congruence.
        -- exists m. split; [solve_lookup|done].
      * done.
      * right. exists (set_prevnd None hn). rewrite Hheap, Hhd.
        split; [solve_lookup|done].
    + rewrite Hheap. solve_lookup.
  - destruct Hcase as (Hheap & -> & Hbook & Hwf1).
    assert (volume o - t = 0) as Hz by lia.
    assert (∀ s, head_of w1 s = head_of w s) as Hhs.
    { intros s. unfold head_of. by rewrite Hbook. }
    assert (∀ s, effective w1 s = effective w s) as Hes.
    { intros s. unfold effective. by rewrite Hbook. }
    exists 0%nat. split; [done|].
    split; [|split; [|split; [|by right]]].
    + split.
      * by rewrite drop_0, with_resting_id.
      * exists (volume o - t), [mkTrade (orderid o) (orderid n) (price n) t].
        rewrite Hheap. split; [solve_lookup|]. split; [lia|].
        split; [done|]. unfold traded; simpl. lia.
      * rewrite Hheap. rewrite !dom_insert_lookup_L; [done|by eauto|..];
          eexists; solve_lookup.
      * rewrite Hheap.
        eapply same_static_insert; [|solve_lookup|done].
        eapply same_static_insert; [|solve_lookup|done].
        apply same_static_refl.
      * intros l Hl. rewrite Hheap.
        rewrite !lookup_insert_ne; [done|..]; intros ->.
        -- by apply (Hdisj _ Hndin).
        -- done.
      * intros Hpos x Hx. rewrite drop_0 in Hx.
        destruct (Hpos x Hx) as (m & Hm & Hv).
        rewrite Hheap.
        assert (x ≠ order).
        { intros ->. apply Hfr1. unfold nodes. apply elem_of_app. by left. }
        rewrite lookup_insert_ne by done.
        destruct (decide (x = nd)) as [->|Hxn].
        -- rewrite lookup_insert_eq. eexists. split; [done|].
           simpl. assert (m = n) as -> by congruence. lia.
        -- exists m. split; [solve_lookup|done].
      * done.
      * left. done.
    + rewrite Hheap. solve_lookup.
    + rewrite Hhs. pose proof (wf_head _ _ Hwf sd) as H.
      unfold nodes in H. rewrite Hxs in H. simpl in H. congruence.
Qed.

Lemma elem_of_drop_inv {A} (x : A) k (l : list A) : x ∈ drop k l → x ∈ l.
Proof.
  intros H. rewrite <- (take_drop k l). apply elem_of_app. by right.
Qed.

Lemma fresh_drop sh sd k (order : loc) :
  order ∉ nodes sh Buy ++ nodes sh Sell →
  order ∉ nodes (with_resting sd (drop k (resting sh sd)) sh) Buy
          ++ nodes (with_resting sd (drop k (resting sh sd)) sh) Sell.
Proof.
  intros H Hin. apply H. clear H.
  destruct sd; unfold nodes in *; simpl in *;
    rewrite !elem_of_app in Hin; rewrite !elem_of_app;
    destruct Hin as [[Hin|Hin]|[Hin|Hin]]; eauto using elem_of_drop_inv.
Qed.

Lemma lax_match_loop_spec sd fuel : ∀ w sh order o,
  wf w sh → heap w !! order = Some o →
  order ∉ nodes sh Buy ++ nodes sh Sell →
  (length (resting sh sd) < fuel)%nat →
  ∃ w' k, lax_match_loop sd fuel w order (head_of w sd) = Ok w' ∧
          matched sd w w' sh order o k.
Proof.
  induction fuel as [|fuel IH]; intros w sh order o Hwf Ho Hfresh Hlen;
    [lia|].
  cbn [lax_match_loop].
  pose proof (wf_links _ _ Hwf sd) as Hl.
  pose proof (wf_head _ _ Hwf sd) as Hh.
  unfold nodes in Hl, Hh.
  destruct (resting sh sd) as [|nd rest] eqn:Hxs.
  - simpl in Hl, Hh. injection Hh as Hh. rewrite <- Hh.
    apply links_cons_inv in Hl as (tn & Htn & _ & Hnn & _).
    rewrite (getattr_Some _ _ _ Htn). cbn [bind].
    rewrite Hnn. simpl.
    exists w, 0%nat. split; [done|]. by apply matched_refl.
  - simpl in Hl, Hh. injection Hh as Hh. rewrite <- Hh.
    apply links_cons_inv in Hl as (n & Hn & _ & Hnn & _).
    rewrite (getattr_Some _ _ _ Hn). cbn [bind].
    destruct (truthy (nextnd n)).
    2:{ exists w, 0%nat. split; [done|]. by apply matched_refl. }
    rewrite (getattr_Some _ _ _ Ho). cbn [bind].
    destruct (crosses sd (price n) (price o)).
    2:{ exists w, 0%nat. split; [done|]. by apply matched_refl. }
    destruct (lax_match_iter sd w sh order o nd n rest Hwf Hxs Ho Hfresh Hn)
      as (w1 & nd1 & k & Hbody & Hm & Ho1 & Hnd1 & Hk).
    rewrite Hbody. cbn [bind fst snd].
    rewrite (getattr_Some _ _ _ Ho1). cbn [bind]. simpl volume.
    destruct (Z.eqb_spec (volume o - Z.min (volume o) (volume n)) 0)
      as [Hz|Hz].
    { exists w1, k. done. }
    destruct Hk as [->|[_ ?]]; [|done].
    destruct (IH w1 (with_resting sd (drop 1 (resting sh sd)) sh) order
                _ (m_wf _ _ _ _ _ _ _ Hm) Ho1) as (w' & k' & Hloop & Hm').
    + by apply fresh_drop.
    + rewrite resting_with_resting, Hxs. simpl in *. rewrite drop_0. lia.
    + rewrite Hnd1, Hloop. exists w', (1 + k')%nat. split; [done|].
      eapply matched_trans; eauto.
Qed.

(** ** Processing one order *)

Lemma lax_crossing_unfold w order o :
  heap w !! order = Some o →
  lax_crossing w order =
    if crosses (opposite (side o)) (effective w (opposite (side o)))
               (price o)
    then lax_match_loop (opposite (side o)) (S (size (heap w))) w order
                        (head_of w (opposite (side o)))
    else Ok w.
Proof.
  intros Ho. unfold lax_crossing. by rewrite (getattr_Some _ _ _ Ho).
Qed.

Lemma crossing_unfold w order o :
  heap w !! order = Some o →
  crossing w order =
    if crosses (opposite (side o)) (effective w (opposite (side o)))
               (price o)
    then match_loop (opposite (side o)) (S (size (heap w))) w order
                    (head_of w (opposite (side o)))
    else Ok w.
Proof.
  intros Ho. unfold crossing. rewrite (getattr_Some _ _ _ Ho).
  cbn [bind]. unfold _process_buy, _process_sell.
  rewrite _process_buy_loop_eq, _process_sell_loop_eq.
  by destruct (side o).
Qed.

Lemma lax_crossing_spec w sh order o :
  wf w sh → heap w !! order = Some o →
  order ∉ nodes sh Buy ++ nodes sh Sell →
  ∃ w1 k, lax_crossing w order = Ok w1 ∧
          matched (opposite (side o)) w w1 sh order o k.
Proof.
  intros Hwf Ho Hfresh. rewrite (lax_crossing_unfold _ _ _ Ho).
  destruct (crosses (opposite (side o)) (effective w (opposite (side o)))
                    (price o)).
  - apply lax_match_loop_spec; try done. by eapply wf_length.
  - exists w, 0%nat. split; [done|]. by apply matched_refl.
Qed.

Lemma eff_ok_matched sd w w' sh order o k :
  matched sd w w' sh order o k → eff_ok w sh →
  eff_ok w' (with_resting sd (drop k (resting sh sd)) sh).
Proof.
  intros Hm Hok s. destruct (side_cases sd s) as [->| ->].
  - rewrite resting_with_resting.
    destruct (m_eff _ _ _ _ _ _ _ Hm) as [(-> & Hh & He)|Hr]; [|by left].
    rewrite Hh, He, drop_0.
    destruct (Hok sd) as [(hn & Hhn & Hp)|Hi]; [left|by right].
    destruct (m_static _ _ _ _ _ _ _ Hm _ _ Hhn) as (hn' & Hhn' & Hs).
    exists hn'. split; [done|]. rewrite Hp. symmetry. by apply static_price.
  - rewrite resting_with_resting_ne.
    destruct (m_other _ _ _ _ _ _ _ Hm) as [Hh He]. rewrite Hh, He.
    destruct (Hok (opposite sd)) as [(hn & Hhn & Hp)|Hi]; [left|by right].
    destruct (m_static _ _ _ _ _ _ _ Hm _ _ Hhn) as (hn' & Hhn' & Hs).
    exists hn'. split; [done|]. rewrite Hp. symmetry. by apply static_price.
Qed.

Lemma eff_ok_added w w' sh order o r :
  added w w' sh order o r → heap w !! order = Some o → eff_ok w sh →
  eff_ok w' (with_resting (side o) (placed order (resting sh (side o)) r) sh).
Proof.
  intros Ha Ho Hok s.
  pose proof (same_info_static _ _ (added_info _ _ _ _ _ _ Ha)) as Hst.
  destruct (side_cases (side o) s) as [->| ->].
  - rewrite resting_with_resting.
    destruct (added_eff _ _ _ _ _ _ Ha) as [(_ & Hh & He)|(Hne & _ & Hh & He)].
    + left. rewrite Hh, He. destruct (Hst _ _ Ho) as (o' & Ho' & Hs).
      exists o'. split; [done|]. symmetry. by apply static_price.
    + rewrite Hh, He.
      destruct (Hok (side o)) as [(hn & Hhn & Hp)|[Hi _]]; [left|done].
      destruct (Hst _ _ Hhn) as (hn' & Hhn' & Hs).
      exists hn'. split; [done|]. rewrite Hp. symmetry. by apply static_price.
  - rewrite resting_with_resting_ne.
    destruct (added_other _ _ _ _ _ _ Ha) as [Hh He]. rewrite Hh, He.
    destruct (Hok (opposite (side o))) as [(hn & Hhn & Hp)|Hi];
      [left|by right].
    destruct (Hst _ _ Hhn) as (hn' & Hhn' & Hs).
    exists hn'. split; [done|]. rewrite Hp. symmetry. by apply static_price.
Qed.

Lemma info_volume n n' : info n' = info n → volume n' = volume n.
Proof. unfold info. by intros [= ]. Qed.

Lemma positive_matched sd w w' sh order o k :
  matched sd w w' sh order o k → wf w sh → positive_book w sh →
  positive_book w' (with_resting sd (drop k (resting sh sd)) sh).
Proof.
  intros Hm Hwf Hpos s. destruct (side_cases sd s) as [->| ->].
  - rewrite resting_with_resting. apply (m_pos _ _ _ _ _ _ _ Hm), Hpos.
  - rewrite resting_with_resting_ne. intros x Hx.
    destruct (Hpos _ x Hx) as (n & Hn & Hv). exists n. split; [|done].
    rewrite (m_frame _ _ _ _ _ _ _ Hm); [done|].
    unfold nodes. apply elem_of_app. by left.
Qed.

Lemma positive_added w w' sh order o r :
  added w w' sh order o r → heap w !! order = Some o → 0 < volume o →
  scanned (heap w) o (resting sh (side o)) r →
  positive_book w sh →
  positive_book w'
    (with_resting (side o) (placed order (resting sh (side o)) r) sh).
Proof.
  intros Ha Ho Hv Hs Hpos s.
  pose proof (added_info _ _ _ _ _ _ Ha) as Hinfo.
  assert (∀ x n, heap w !! x = Some n → 0 < volume n →
                 ∃ n', heap w' !! x = Some n' ∧ 0 < volume n') as Hkeep.
  { intros x n Hn Hvn. destruct (Hinfo _ _ Hn) as (n' & Hn' & Hi).
    exists n'. split; [done|]. by rewrite (info_volume _ _ Hi). }
  destruct (side_cases (side o) s) as [->| ->].
  - rewrite resting_with_resting. intros x Hx.
    rewrite (scanned_perm _ _ _ _ order Hs) in Hx.
    apply elem_of_cons in Hx as [->|Hx]; [by eapply Hkeep|].
    destruct (Hpos _ x Hx) as (n & Hn & Hvn). by eapply Hkeep.
  - rewrite resting_with_resting_ne. intros x Hx.
    destruct (Hpos _ x Hx) as (n & Hn & Hvn). by eapply Hkeep.
Qed.

Lemma opposite_involutive sd : opposite (opposite sd) = sd.
Proof. by destruct sd. Qed.

Lemma lax_process_order_spec w sh order o :
  wf w sh → heap w !! order = Some o → prevnd o = None →
  order ∉ nodes sh Buy ++ nodes sh Sell →
  ∃ w' sh', lax_process_order w order = Ok w' ∧ processed w w' sh sh' order o.
Proof.
  intros Hwf Ho Hprev Hfresh. unfold lax_process_order.
  destruct (lax_crossing_spec w sh order o Hwf Ho Hfresh) as (w1 & k & -> & Hm).
  set (sd := opposite (side o)) in *.
  cbn [bind].
  set (sh1 := with_resting sd (drop k (resting sh sd)) sh).
  pose proof (m_wf _ _ _ _ _ _ _ Hm) as Hwf1. fold sh1 in Hwf1.
  pose proof (fresh_drop _ sd k _ Hfresh) as Hfresh1. fold sh1 in Hfresh1.
  destruct (m_order _ _ _ _ _ _ _ Hm) as (v1 & ts & Ho1 & Hnn & Hout & Hsum).
  destruct (fresh_sides _ (side o) _ Hfresh1) as [Hf1 Hf2].
  assert (order ∉ resting sh1 (side o)) as Hr1.
  { intros H. apply Hf1. unfold nodes. apply elem_of_app. by left. }
  assert (order ∉ resting sh1 (opposite (side o))) as Hr2.
  { intros H. apply Hf2. unfold nodes. apply elem_of_app. by left. }
  rewrite (getattr_Some _ _ _ Ho1). cbn [bind]. simpl volume.
  destruct (Z.eqb_spec v1 0) as [Hz|Hz].
  - exists w1, sh1. split; [done|]. split.
    + done.
    + by apply (eff_ok_matched _ _ _ _ _ _ _ Hm).
    + intros _ Hpos. by eapply positive_matched.
    + exists (set_volume v1 o), ts. simpl. repeat split; try done; try lia.
    + apply (m_dom _ _ _ _ _ _ _ Hm).
    + apply (m_static _ _ _ _ _ _ _ Hm).
    + intros s. unfold sh1. apply terminal_with_resting.
  - destruct (add_to_book_spec w1 sh1 order (set_volume v1 o) Hwf1 Ho1)
      as (w' & r & Hadd & Hs & Ha); [done|done|].
    simpl side in *.
    exists w', (with_resting (side o) (placed order (resting sh1 (side o)) r)
                  sh1).
    split; [done|].
    pose proof (added_info _ _ _ _ _ _ Ha) as Hinfo.
    destruct (Hinfo _ _ Ho1) as (o' & Ho' & Hi).
    split.
    + apply (added_wf _ _ _ _ _ _ Ha).
    + intros Hok. apply (eff_ok_added _ _ _ _ _ _ Ha Ho1).
      by apply (eff_ok_matched _ _ _ _ _ _ _ Hm).
    + intros Hv Hpos. apply (positive_added _ _ _ _ _ _ Ha Ho1); try done.
      * simpl. specialize (Hnn Hv). lia.
      * by eapply positive_matched.
    + exists o', ts.
      pose proof (info_volume _ _ Hi) as Hvol. simpl in Hvol.
      split; [done|]. split; [unfold static; by rewrite Hi|].
      split; [intros Hv; specialize (Hnn Hv); lia|].
      split; [by rewrite (added_stdout _ _ _ _ _ _ Ha)|].
      split; [lia|]. split.
      * rewrite resting_with_resting.
        rewrite (scanned_perm _ _ _ _ order Hs). split; [lia|].
        intros _. by left.
      * by rewrite resting_with_resting_ne.
    + rewrite (added_dom _ _ _ _ _ _ Ha). apply (m_dom _ _ _ _ _ _ _ Hm).
    + eapply same_static_trans; [apply (m_static _ _ _ _ _ _ _ Hm)|].
      by apply same_info_static.
    + intros s. unfold sh1. by rewrite !terminal_with_resting.
Qed.

(** ** Allocation, and a whole run *)

Lemma new_loc_fresh w : heap w !! new_loc w = None.
Proof.
  apply (not_elem_of_dom (D := gset loc)). unfold new_loc. apply is_fresh.
Qed.

Lemma wf_fresh w sh l :
  wf w sh → heap w !! l = None → l ∉ nodes sh Buy ++ nodes sh Sell.
Proof.
  intros Hwf Hl Hin. apply elem_of_app in Hin as [Hin|Hin].
  - destruct (links_lookup _ _ _ _ _ (wf_links _ _ Hwf Buy) Hin). congruence.
  - destruct (links_lookup _ _ _ _ _ (wf_links _ _ Hwf Sell) Hin). congruence.
Qed.

Lemma wf_alloc w sh o : wf w sh → wf (alloc w o) sh.
Proof.
  intros Hwf. pose proof (wf_fresh _ _ _ Hwf (new_loc_fresh w)) as Hfr.
  split.
  - intros sd. unfold alloc. simpl. apply links_insert_ne.
    + by destruct (fresh_sides _ sd _ Hfr) as [? _].
    + apply (wf_links _ _ Hwf).
  - apply (wf_head _ _ Hwf).
  - apply (wf_nodup _ _ Hwf).
Qed.

Lemma alloc_lookup_old w o l n :
  heap w !! l = Some n → heap (alloc w o) !! l = Some n.
Proof.
  intros Hl. unfold alloc. simpl. rewrite lookup_insert_ne; [done|].
  intros E. rewrite <- E in Hl. by rewrite new_loc_fresh in Hl.
Qed.

Lemma eff_ok_alloc w sh o : eff_ok w sh → eff_ok (alloc w o) sh.
Proof.
  intros Hok sd. destruct (Hok sd) as [(hn & Hhn & Hp)|Hi]; [left|by right].
  exists hn. split; [|done]. by apply alloc_lookup_old.
Qed.

Lemma positive_alloc w sh o : positive_book w sh → positive_book (alloc w o) sh.
Proof.
  intros Hpos sd x Hx. destruct (Hpos sd x Hx) as (n & Hn & Hv).
  exists n. split; [|done]. by apply alloc_lookup_old.
Qed.

Lemma lax_process_row_spec w sh r :
  wf w sh →
  ∃ w' sh', lax_process_row w r = Ok w' ∧ row_done w w' sh sh' r (new_loc w).
Proof.
  intros Hwf. unfold lax_process_row.
  destruct (lax_process_order_spec (alloc w (construct r)) sh (new_loc w)
              (construct r)) as (w' & sh' & Hrun & Hp).
  - by apply wf_alloc.
  - unfold alloc. simpl. apply lookup_insert_eq.
  - done.
  - apply (wf_fresh _ _ _ Hwf (new_loc_fresh w)).
  - exists w', sh'. split; [done|]. split.
    + apply (p_wf _ _ _ _ _ _ Hp).
    + intros Hok. apply (p_eff _ _ _ _ _ _ Hp). by apply eff_ok_alloc.
    + intros Hv Hpos. apply (p_pos _ _ _ _ _ _ Hp); [done|].
      by apply positive_alloc.
    + apply (p_order _ _ _ _ _ _ Hp).
    + intros l n Hl. apply (p_static _ _ _ _ _ _ Hp).
      by apply alloc_lookup_old.
    + apply (p_term _ _ _ _ _ _ Hp).
Qed.

Lemma term_ok_static w w' sh sh' :
  same_static (heap w) (heap w') → (∀ s, terminal sh' s = terminal sh s) →
  term_ok w sh → term_ok w' sh'.
Proof.
  intros Hst Ht Hok sd. destruct (Hok sd) as (n & Hn & Hp).
  destruct (Hst _ _ Hn) as (n' & Hn' & Hs). exists n'. rewrite Ht.
  split; [done|]. by rewrite (static_price _ _ Hs).
Qed.

Lemma lax_process_orders_spec data : ∀ w sh,
  wf w sh →
  ∃ w' sh', lax_process_orders w data = Ok w' ∧ wf w' sh' ∧
            (eff_ok w sh → eff_ok w' sh') ∧
            (Forall (λ r, 0 ≤ row_volume r) data →
             positive_book w sh → positive_book w' sh') ∧
            (term_ok w sh → term_ok w' sh').
Proof.
  induction data as [|r data IH]; intros w sh Hwf.
  - exists w, sh. simpl. auto.
  - destruct (lax_process_row_spec w sh r Hwf) as (w1 & sh1 & Hrow & Hd).
    destruct (IH w1 sh1 (rd_wf _ _ _ _ _ _ Hd))
      as (w' & sh' & Hrun & Hwf' & Heff & Hpos & Hterm).
    exists w', sh'. simpl. rewrite Hrow. cbn [bind].
    split; [done|]. split; [done|]. split; [|split].
    + intros Hok. apply Heff. by apply (rd_eff _ _ _ _ _ _ Hd).
    + intros Hall Hp. apply Forall_cons in Hall as [Hr Hall].
      apply Hpos; [done|]. by apply (rd_pos _ _ _ _ _ _ Hd).
    + intros Hok. apply Hterm.
      eapply term_ok_static; [| |exact Hok].
      * apply (rd_static _ _ _ _ _ _ Hd).
      * apply (rd_term _ _ _ _ _ _ Hd).
Qed.

Lemma wf_init : wf OrderBook_init initial_shape.
Proof.
  split.
  - intros [|]; simpl; eapply links_single; by simpl.
  - by intros [|].
  - simpl. apply NoDup_cons. split; [|apply NoDup_singleton].
    by intros ?%list_elem_of_singleton.
Qed.

Lemma eff_ok_init : eff_ok OrderBook_init initial_shape.
Proof. intros [|]; by right. Qed.

Lemma positive_init : positive_book OrderBook_init initial_shape.
Proof. intros [|] x Hx; by apply elem_of_nil in Hx. Qed.

Lemma term_ok_init : term_ok OrderBook_init initial_shape.
Proof. intros [|]; eexists; split; done. Qed.

(** The book invariant: shape, effective prices, terminal nodes. *)
Lemma lax_run_spec data :
  ∃ w sh, lax_process_orders OrderBook_init data = Ok w ∧ wf w sh ∧
          eff_ok w sh ∧ term_ok w sh ∧
          (Forall (λ r, 0 ≤ row_volume r) data → positive_book w sh).
Proof.
  destruct (lax_process_orders_spec data _ _ wf_init)
    as (w & sh & Hrun & Hwf & Heff & Hpos & Hterm).
  exists w, sh. split; [done|]. split; [done|].
  split; [apply Heff, eff_ok_init|]. split; [apply Hterm, term_ok_init|].
  intros Hall. apply Hpos; [done|apply positive_init].
Qed.

(** * The book after a run *)

(** ** Insertion at the lowest priority *)

(** When every resting order of the side has priority at least that of the
    new order, [add_to_book] puts the new order in front of the chain. *)
Lemma add_to_book_exhausted w sh order o :
  wf w sh → heap w !! order = Some o → prevnd o = None →
  order ∉ nodes sh Buy ++ nodes sh Sell →
  Forall (λ x, ∃ m, heap w !! x = Some m ∧ order_le o m = true)
         (resting sh (side o)) →
  ∃ w', add_to_book w order = Ok w' ∧
        fetch_orders w' (side o) = Ok (order :: resting sh (side o)).
Proof.
  intros Hwf Ho Hprev Hfresh Hall.
  destruct (add_to_book_spec w sh order o Hwf Ho Hprev Hfresh)
    as (w' & r & Hadd & Hs & Ha).
  exists w'. split; [done|].
  rewrite (fetch_orders_wf _ _ _ (added_wf _ _ _ _ _ _ Ha)).
  rewrite resting_with_resting.
  destruct Hs as [pre nd n post Hxs Hpre Hn Hle|_]; [|done].
  rewrite Hxs in Hall. apply Forall_app in Hall as [_ Hall].
  apply Forall_cons in Hall as [(m & Hm & Hle') _]. congruence.
Qed.

(** On an empty chain that is the place the specification asks for: the
    new order is the only resting order, before the terminal node. *)
Lemma add_to_book_empty w sh order o :
  wf w sh → heap w !! order = Some o → prevnd o = None →
  order ∉ nodes sh Buy ++ nodes sh Sell →
  resting sh (side o) = [] →
  ∃ w', add_to_book w order = Ok w' ∧ fetch_orders w' (side o) = Ok [order].
Proof.
  intros Hwf Ho Hprev Hfresh Hempty.
  destruct (add_to_book_exhausted w sh order o Hwf Ho Hprev Hfresh)
    as (w' & Hadd & Hf).
  - rewrite Hempty. apply Forall_nil_2.
  - exists w'. by rewrite Hempty in Hf.
Qed.

(** ** Effective prices *)

Lemma effective_coded w sh :
  wf w sh → eff_ok w sh → term_ok w sh → effective_as_coded w.
Proof.
  intros Hwf Hok Hterm sd.
  pose proof (wf_head _ _ Hwf sd) as Hh.
  assert (head_of w sd ∈ nodes sh sd) as Hin by (by apply head_Some_elem_of).
  destruct (links_lookup _ _ _ _ _ (wf_links _ _ Hwf sd) Hin) as [hn Hhn].
  exists (resting sh sd), hn.
  split; [by apply fetch_orders_wf|]. split; [done|]. split.
  - unfold nodes in Hh. destruct (resting sh sd) as [|x xs]; simpl in Hh.
    + destruct (Hterm sd) as (tn & Htn & Hp). congruence.
    + congruence.
  - destruct (Hok sd) as [(hn' & Hhn' & Hp)|Hi]; [left; congruence|by right].
Qed.

Lemma term_ok_alloc w sh o : term_ok w sh → term_ok (alloc w o) sh.
Proof.
  intros Hok sd. destruct (Hok sd) as (n & Hn & Hp).
  exists n. split; [|done]. by apply alloc_lookup_old.
Qed.

(** ** Matching *)

Lemma process_body_eq sd w order nd :
  process_body sd w order nd = match_body sd w order nd.
Proof. by destruct sd. Qed.

Lemma demo_wf : wf demo_world demo_shape.
Proof.
  split.
  - intros [|]; simpl.
    + eapply links_single; by vm_compute.
    + eapply links_cons; [by vm_compute|done|done|].
      eapply links_single; by vm_compute.
  - by intros [|].
  - simpl. apply NoDup_cons. split.
    { intros H. apply elem_of_cons in H as [H|H]; [done|].
      by apply list_elem_of_singleton in H. }
    apply NoDup_cons. split; [|apply NoDup_singleton].
    by intros ?%list_elem_of_singleton.
Qed.

(** ** One incoming order *)

Lemma lax_reachable_spec data w :
  lax_process_orders OrderBook_init data = Ok w →
  ∃ sh, wf w sh ∧ eff_ok w sh ∧ term_ok w sh ∧
        (Forall (λ r, 0 ≤ row_volume r) data → positive_book w sh).
Proof.
  intros Hrun.
  destruct (lax_run_spec data) as (w0 & sh & Hrun0 & Hwf & Heff & Hterm & Hpos).
  assert (w0 = w) as -> by congruence. eauto.
Qed.


(** * The book as two lists *)

(** ** The comparisons of orders *)

Ltac compare_cases a b :=
  unfold order_lt, order_gt, order_le, order_ge,
    BuyOrder.lt, BuyOrder.gt, BuyOrder.le, BuyOrder.ge,
    SellOrder.lt, SellOrder.gt, SellOrder.le, SellOrder.ge,
    Order_eq, Order_ne, price_ne, price_gt, _ordertime_priority;
  destruct (side a), (price a) as [|pa|], (price b) as [|pb|]; simpl;
  repeat match goal with
    | |- context [ (?x <? ?y) ] =>
        lazymatch x with
        | context [ if _ then _ else _ ] => fail
        | _ => destruct (Z.ltb_spec x y); simpl
        end
    | |- context [ (?x =? ?y) ] => destruct (Z.eqb_spec x y); simpl
    end;
  try done; try lia.

Ltac compare_cases2 a b :=
  unfold order_lt, order_gt, order_le, order_ge,
    BuyOrder.lt, BuyOrder.gt, BuyOrder.le, BuyOrder.ge,
    SellOrder.lt, SellOrder.gt, SellOrder.le, SellOrder.ge,
    Order_eq, Order_ne, price_ne, price_gt, _ordertime_priority;
  destruct (side a), (side b), (price a) as [|pa|], (price b) as [|pb|];
  simpl;
  repeat match goal with
    | |- context [ (?x <? ?y) ] =>
        lazymatch x with
        | context [ if _ then _ else _ ] => fail
        | _ => destruct (Z.ltb_spec x y); simpl
        end
    | |- context [ (?x =? ?y) ] => destruct (Z.eqb_spec x y); simpl
    end;
  try done; try (intros; lia).

Lemma price_lt_irrefl a : price_lt a a = false.
Proof. destruct a; simpl; [done| |done]. apply Z.ltb_irrefl. Qed.

Lemma price_lt_asym a b : price_lt a b = true → price_lt b a = false.
Proof.
  destruct a, b; simpl; try done. intros H. apply Z.ltb_lt in H.
  apply Z.ltb_ge. lia.
Qed.

Lemma price_lt_trans a b c :
  price_lt a b = true → price_lt b c = true → price_lt a c = true.
Proof.
  destruct a, b, c; simpl; try done. rewrite !Z.ltb_lt. lia.
Qed.

Lemma price_eq_spec a b :
  price_eq a b = negb (price_lt a b) && negb (price_lt b a).
Proof.
  destruct a, b; simpl; try done.
  destruct (Z.eqb_spec z z0), (Z.ltb_spec z z0), (Z.ltb_spec z0 z);
    simpl; try done; lia.
Qed.

Lemma price_eq_true a b : price_eq a b = true ↔ a = b.
Proof.
  destruct a, b; simpl; try done; try (split; done).
  rewrite Z.eqb_eq. split; [by intros ->|by intros [= ]].
Qed.

Lemma price_le_lt a b : price_le a b = negb (price_lt b a).
Proof.
  destruct a, b; simpl; try done.
  destruct (Z.leb_spec z z0), (Z.ltb_spec z0 z); simpl; try done; lia.
Qed.

(** The outcome of [_ordertime_priority] is one of -1, 0 and 1, and it
    changes sign when the two orders are swapped. *)
Lemma _ordertime_priority_swap a b :
  _ordertime_priority a b = - _ordertime_priority b a ∧
  -1 ≤ _ordertime_priority a b ≤ 1.
Proof.
  unfold _ordertime_priority.
  destruct (Z.ltb_spec (ordertime b) (ordertime a)),
           (Z.ltb_spec (ordertime a) (ordertime b)); lia.
Qed.

Lemma order_le_price_time (a b : Order) :
  order_le a b = true ↔
  match side a with
  | Sell => price_lt (price b) (price a) = true ∨
            (price a = price b ∧ ordertime b ≤ ordertime a)
  | Buy => price_lt (price a) (price b) = true ∨
           (price a = price b ∧ ordertime b ≤ ordertime a)
  end.
Proof.
  unfold order_le, BuyOrder.le, SellOrder.le, price_gt, _ordertime_priority.
  destruct (side a), (price a) as [|pa|], (price b) as [|pb|]; simpl;
  repeat match goal with
    | |- context [ (?x <? ?y) ] =>
        lazymatch x with
        | context [ if _ then _ else _ ] => fail
        | _ => destruct (Z.ltb_spec x y); simpl
        end
    end;
  split; try done; try (intros [?|[? ?]]; try done; try lia; simplify_eq; lia);
  intros _; try (by left); right; split; try done; try lia; f_equal; lia.
Qed.

(** ** The matching loop on the list of resting orders *)

Lemma infos_cons h x xs n :
  h !! x = Some n → infos h (x :: xs) = info n :: infos h xs.
Proof. intros H. unfold infos. simpl. by rewrite H. Qed.

Lemma infos_ext h h' xs :
  (∀ x, x ∈ xs → info <$> h' !! x = info <$> h !! x) →
  infos h' xs = infos h xs.
Proof.
  induction xs as [|x xs IH]; intros H; [done|].
  assert (infos h' xs = infos h xs) as IH'.
  { apply IH. intros y Hy. apply H. by right. }
  unfold infos in *. cbn [omap list_omap].
  rewrite IH'. by rewrite (H x) by (by left).
Qed.

Lemma infos_app h xs ys : infos h (xs ++ ys) = infos h xs ++ infos h ys.
Proof. unfold infos. apply omap_app. Qed.

Lemma view_wf w sh sd :
  wf w sh → view w sd = Ok (infos (heap w) (resting sh sd)).
Proof. intros Hwf. unfold view. by rewrite (fetch_orders_wf _ _ _ Hwf). Qed.

Lemma lax_match_iter_fill sd w sh order o nd n rest :
  wf w sh → resting sh sd = nd :: rest →
  heap w !! order = Some o → order ∉ nodes sh Buy ++ nodes sh Sell →
  heap w !! nd = Some n →
  let t := Z.min (volume o) (volume n) in
  ∃ w1 nd1 k,
    lax_match_body sd w order nd = Ok (w1, nd1) ∧
    matched sd w w1 sh order o k ∧
    heap w1 !! order = Some (set_volume (volume o - t) o) ∧
    nd1 = head_of w1 sd ∧
    stdout w1 = stdout w ++ [mkTrade (orderid o) (orderid n) (price n) t] ∧
    ((k = 1%nat ∧ volume n - t = 0 ∧
      infos (heap w1) rest = infos (heap w) rest) ∨
     (k = 0%nat ∧ volume n - t ≠ 0 ∧ volume o - t = 0 ∧
      infos (heap w1) (nd :: rest)
      = set_volume (volume n - t) (info n) :: infos (heap w) rest)).
Proof.
  intros Hwf Hxs Ho Hfresh Hn t.
  destruct (lax_match_iter sd w sh order o nd n rest Hwf Hxs Ho Hfresh Hn)
    as (w1 & nd1 & k & Hbody & Hm & Ho1 & Hnd1 & Hk).
  destruct (lax_match_body_spec sd w sh order o nd n rest Hwf Hxs Ho Hfresh Hn)
    as (w1' & nd1' & Hbody' & Hout & _ & _ & Hcase).
  rewrite Hbody in Hbody'. injection Hbody' as <- <-.
  fold t in Ho1, Hk, Hout, Hcase.
  destruct (fresh_sides _ sd _ Hfresh) as [Hfr1 _].
  pose proof (nodes_nodup _ sd (wf_nodup _ _ Hwf)) as Hnds.
  unfold nodes in Hfr1, Hnds. rewrite Hxs in Hfr1, Hnds.
  simpl in Hfr1, Hnds.
  apply not_elem_of_cons in Hfr1 as [Hne Hfr1].
  apply NoDup_cons in Hnds as [Hndr Hnds].
  assert (∀ x, x ∈ rest → x ≠ order ∧ x ≠ nd) as Hrest.
  { intros x Hx. split; intros ->.
    - apply Hfr1. apply elem_of_app. by left.
    - apply Hndr. apply elem_of_app. by left. }
  exists w1, nd1.
  destruct (decide (volume n ≤ volume o)) as [Hle|Hgt].
  - destruct Hcase as (hn & Hhn & Hheap & _ & _ & Hwf1').
    destruct Hk as [->|[-> Hz]].
    + exists 1%nat. do 5 (split; [done|]). left.
      split; [done|]. split; [lia|].
      apply infos_ext. intros x Hx. destruct (Hrest x Hx) as [Hxo Hxn].
      rewrite Hheap.
      destruct (decide (x = nd1)) as [->|Hx1].
      * rewrite lookup_insert_eq, Hhn. done.
      * by rewrite !lookup_insert_ne.
    + (* nothing was removed although the head is filled: impossible *)
      pose proof (m_wf _ _ _ _ _ _ _ Hm) as Hwf1.
      rewrite drop_0, with_resting_id in Hwf1.
      pose proof (wf_head _ _ Hwf1 sd) as Hh1.
      pose proof (wf_head _ _ Hwf1' sd) as Hh1'.
      rewrite nodes_with_resting_eq in Hh1'. unfold nodes in Hh1.
      rewrite Hxs in Hh1. simpl in Hh1.
      assert (nd ∈ rest ++ [terminal sh sd]) as Hin.
      { apply head_Some_elem_of. congruence. }
      done.
  - destruct Hcase as (Hheap & -> & _).
    destruct Hk as [->|[-> Hz]].
    + pose proof (m_wf _ _ _ _ _ _ _ Hm) as Hwf1.
      rewrite Hxs in Hwf1. simpl in Hwf1. rewrite drop_0 in Hwf1.
      pose proof (wf_head _ _ Hwf1 sd) as Hh1.
      rewrite nodes_with_resting_eq in Hh1.
      assert (nd ∈ rest ++ [terminal sh sd]) as Hin.
      { apply head_Some_elem_of. congruence. }
      done.
    + exists 0%nat. do 5 (split; [done|]). right.
      split; [done|]. split; [lia|]. split; [done|].
      rewrite (infos_cons _ _ _ (set_volume (volume n - t) n)).
      2:{ rewrite Hheap. rewrite lookup_insert_ne by done.
          apply lookup_insert_eq. }
      f_equal. apply infos_ext. intros x Hx.
      destruct (Hrest x Hx) as [Hxo Hxn]. rewrite Hheap.
      by rewrite !lookup_insert_ne.
Qed.

Lemma lax_match_loop_fill sd fuel : ∀ w sh order o,
  wf w sh → heap w !! order = Some o →
  order ∉ nodes sh Buy ++ nodes sh Sell →
  (length (resting sh sd) < fuel)%nat →
  ∃ w' k ts o',
    lax_match_loop sd fuel w order (head_of w sd) = Ok w' ∧
    matched sd w w' sh order o k ∧
    stdout w' = stdout w ++ ts ∧
    info <$> heap w' !! order = Some o' ∧
    fill sd (info o) (infos (heap w) (resting sh sd))
    = (ts, o', infos (heap w') (drop k (resting sh sd))).
Proof.
  induction fuel as [|fuel IH]; intros w sh order o Hwf Ho Hfresh Hlen;
    [lia|].
  cbn [lax_match_loop].
  pose proof (wf_links _ _ Hwf sd) as Hl.
  pose proof (wf_head _ _ Hwf sd) as Hh.
  unfold nodes in Hl, Hh.
  destruct (resting sh sd) as [|nd rest] eqn:Hxs.
  - simpl in Hl, Hh. injection Hh as Hh. rewrite <- Hh.
    apply links_cons_inv in Hl as (tn & Htn & _ & Hnn & _).
    rewrite (getattr_Some _ _ _ Htn). cbn [bind].
    rewrite Hnn. simpl.
    exists w, 0%nat, [], (info o). split; [done|].
    split; [by apply matched_refl|]. rewrite app_nil_r, Ho. done.
  - simpl in Hl, Hh. injection Hh as Hh. rewrite <- Hh.
    apply links_cons_inv in Hl as (n & Hn & _ & Hnn & _).
    rewrite (getattr_Some _ _ _ Hn). cbn [bind].
    destruct (next_or_snoc None rest (terminal sh sd)) as (nx & _ & Hnx).
    rewrite Hnn, Hnx. simpl truthy. cbv iota.
    rewrite (getattr_Some _ _ _ Ho). cbn [bind].
    rewrite (infos_cons _ _ _ _ Hn). cbn [fill]. simpl price.
    destruct (crosses sd (price n) (price o)).
    2:{ exists w, 0%nat, [], (info o). split; [done|].
        split; [by apply matched_refl|]. rewrite app_nil_r, Ho, drop_0.
        by rewrite (infos_cons _ _ _ _ Hn). }
    destruct (lax_match_iter_fill sd w sh order o nd n rest Hwf Hxs Ho Hfresh Hn)
      as (w1 & nd1 & k & Hbody & Hm & Ho1 & Hnd1 & Hout & Hcase).
    rewrite Hbody. cbn [bind fst snd].
    rewrite (getattr_Some _ _ _ Ho1). cbn [bind]. simpl volume.
    destruct Hcase as [(-> & Hz & Hinf)|(-> & Hnz & Hz & Hinf)].
    + rewrite Hz. simpl Z.eqb. cbv iota.
      destruct (Z.eqb_spec (volume o - Z.min (volume o) (volume n)) 0)
        as [Hoz|Hoz].
      { eexists w1, 1%nat, _, _. split; [done|]. split; [done|].
        split; [done|]. rewrite Ho1. split; [done|]. simpl drop.
        rewrite drop_0. by rewrite Hinf. }
      destruct (IH w1 (with_resting sd (drop 1 (resting sh sd)) sh) order
                  _ (m_wf _ _ _ _ _ _ _ Hm) Ho1)
        as (w' & k' & ts & o' & Hloop & Hm' & Hout' & Ho' & Hfill).
      * by apply fresh_drop.
      * rewrite resting_with_resting, Hxs. simpl in *. rewrite drop_0. lia.
      * rewrite resting_with_resting, Hxs in Hfill. simpl drop in Hfill.
        rewrite drop_0 in Hfill. rewrite Hinf in Hfill.
        change (info (set_volume ?v o)) with (set_volume v (info o)) in Hfill.
        rewrite Hnd1, Hloop.
        eexists w', (1 + k')%nat, _, o'. split; [done|].
        split; [eapply matched_trans; eauto|].
        split; [by rewrite Hout', Hout, <- app_assoc|].
        split; [done|]. rewrite Hfill. done.
    + destruct (Z.eqb_spec (volume n - Z.min (volume o) (volume n)) 0)
        as [|_]; [done|].
      rewrite Hz. simpl Z.eqb. cbv iota.
      eexists w1, 0%nat, _, _. split; [done|]. split; [done|].
      split; [done|]. rewrite Ho1. split; [done|].
      rewrite drop_0, Hinf. by rewrite Hz.
Qed.

Lemma lax_crossing_fill w sh order o :
  wf w sh → eff_ok w sh → heap w !! order = Some o →
  order ∉ nodes sh Buy ++ nodes sh Sell →
  ∃ w1 k ts o',
    lax_crossing w order = Ok w1 ∧
    matched (opposite (side o)) w w1 sh order o k ∧
    stdout w1 = stdout w ++ ts ∧
    info <$> heap w1 !! order = Some o' ∧
    fill (opposite (side o)) (info o)
         (infos (heap w) (resting sh (opposite (side o))))
    = (ts, o', infos (heap w1) (drop k (resting sh (opposite (side o))))).
Proof.
  intros Hwf Heff Ho Hfresh. rewrite (lax_crossing_unfold _ _ _ Ho).
  set (sd := opposite (side o)).
  destruct (crosses sd (effective w sd) (price o)) eqn:Hcross.
  - apply lax_match_loop_fill; try done. by eapply wf_length.
  - exists w, 0%nat, [], (info o). split; [done|].
    split; [by apply matched_refl|]. rewrite app_nil_r, Ho, drop_0.
    split; [done|]. split; [done|].
    pose proof (wf_links _ _ Hwf sd) as Hl.
    pose proof (wf_head _ _ Hwf sd) as Hh.
    unfold nodes in Hl, Hh.
    destruct (resting sh sd) as [|nd rest] eqn:Hxs; [done|].
    simpl in Hl, Hh. injection Hh as Hh.
    apply links_cons_inv in Hl as (n & Hn & _).
    rewrite (infos_cons _ _ _ _ Hn). cbn [fill]. simpl price.
    destruct (Heff sd) as [(hn & Hhn & Hp)|[He _]]; [|by rewrite Hxs in He].
    rewrite <- Hh in Hhn. assert (hn = n) as -> by congruence.
    by rewrite <- Hp, Hcross.
Qed.

Lemma order_le_info o n : order_le (info o) (info n) = order_le o n.
Proof. done. Qed.

Lemma place_break_app o pre n post :
  Forall (λ m, order_le o m = true) pre → order_le o n = false →
  place_break o (pre ++ n :: post) = Some (pre ++ o :: n :: post).
Proof.
  intros Hpre Hn. induction pre as [|m pre IH]; simpl.
  - by rewrite Hn.
  - apply Forall_cons in Hpre as [Hm Hpre]. rewrite Hm, (IH Hpre). done.
Qed.

Lemma place_break_none o chain :
  Forall (λ m, order_le o m = true) chain → place_break o chain = None.
Proof.
  induction chain as [|m chain IH]; intros H; [done|]. simpl.
  apply Forall_cons in H as [Hm H]. by rewrite Hm, (IH H).
Qed.

Lemma infos_forall h (P : Order → Prop) xs :
  Forall (λ x, ∃ m, h !! x = Some m ∧ P (info m)) xs →
  Forall P (infos h xs).
Proof.
  induction xs as [|x xs IH]; intros H; [constructor|].
  apply Forall_cons in H as [(m & Hm & HP) H].
  rewrite (infos_cons _ _ _ _ Hm). constructor; auto.
Qed.

Lemma placed_place h h' o o1 (order : loc) xs r :
  scanned h o xs r → NoDup xs → Forall (λ x, is_Some (h !! x)) xs →
  same_info h h' → h' !! order = Some o1 → info o1 = info o →
  infos h' (placed order xs r) = place (info o) (infos h xs).
Proof.
  intros Hs Hnd Hdom Hsame Ho1 Hi1.
  assert (∀ ys, Forall (λ x, is_Some (h !! x)) ys →
                infos h' ys = infos h ys) as Hkeep.
  { intros ys Hys. apply infos_ext. intros x Hx.
    rewrite Forall_forall in Hys. destruct (Hys x Hx) as [m Hm].
    destruct (Hsame _ _ Hm) as (m' & Hm' & Hi). rewrite Hm, Hm'. simpl.
    by rewrite Hi. }
  destruct Hs as [pre nd n post -> Hpre Hn Hle|Hall].
  - apply NoDup_app in Hnd as (_ & Hndx & _).
    cbn [placed]. rewrite insert_before_app.
    2:{ intros Hx. by apply (Hndx nd Hx); left. }
    destruct (Hsame _ _ Hn) as (n' & Hn' & Hin).
    rewrite !infos_app, (infos_cons _ _ _ _ Ho1), (infos_cons _ _ _ _ Hn').
    rewrite (infos_cons _ _ _ _ Hn), Hi1, Hin.
    unfold place. rewrite place_break_app; [|by apply infos_forall|done].
    apply Forall_app in Hdom as [Hd1 Hd2].
    apply Forall_cons in Hd2 as [_ Hd2].
    by rewrite (Hkeep pre Hd1), (Hkeep post Hd2).
  - cbn [placed]. rewrite (infos_cons _ _ _ _ Ho1), Hi1. unfold place.
    rewrite place_break_none; [|by apply infos_forall].
    f_equal. by apply Hkeep.
Qed.

Lemma side_list_lists_of w sh sd :
  side_list (lists_of w sh) sd = infos (heap w) (resting sh sd).
Proof. by destruct sd. Qed.

Lemma wf_lookups w sh sd :
  wf w sh → Forall (λ x, is_Some (heap w !! x)) (resting sh sd).
Proof.
  intros Hwf. apply Forall_forall. intros x Hx.
  eapply links_lookup; [apply (wf_links _ _ Hwf sd)|].
  unfold nodes. apply elem_of_app. by left.
Qed.

Lemma resting_nodup sh sd :
  NoDup (nodes sh Buy ++ nodes sh Sell) → NoDup (resting sh sd).
Proof.
  intros H. apply (nodes_nodup _ sd) in H. unfold nodes in H.
  by apply NoDup_app in H as (? & _).
Qed.

(** Processing one order, on the lists. *)
Lemma lax_process_order_lists w sh order o :
  wf w sh → eff_ok w sh → heap w !! order = Some o → prevnd o = None →
  order ∉ nodes sh Buy ++ nodes sh Sell →
  ∃ w' sh', lax_process_order w order = Ok w' ∧ wf w' sh' ∧
            lists_of w' sh' = list_order (lists_of w sh) (info o).
Proof.
  intros Hwf Heff Ho Hprev Hfresh. unfold lax_process_order.
  destruct (lax_crossing_fill w sh order o Hwf Heff Ho Hfresh)
    as (w1 & k & ts & o' & -> & Hm & Hout & Ho' & Hfill).
  cbn [bind].
  set (sd := opposite (side o)) in *.
  set (sh1 := with_resting sd (drop k (resting sh sd)) sh).
  pose proof (m_wf _ _ _ _ _ _ _ Hm) as Hwf1. fold sh1 in Hwf1.
  pose proof (fresh_drop _ sd k _ Hfresh) as Hfresh1. fold sh1 in Hfresh1.
  destruct (m_order _ _ _ _ _ _ _ Hm) as (v1 & _ & Ho1 & _).
  rewrite Ho1 in Ho'. simpl in Ho'. injection Ho' as <-.
  assert (resting sh1 (side o) = resting sh (side o)) as Hown1.
  { unfold sh1, sd. by destruct (side o). }
  assert (resting sh1 sd = drop k (resting sh sd)) as Hopp1
    by apply resting_with_resting.
  assert (infos (heap w1) (resting sh (side o))
          = infos (heap w) (resting sh (side o))) as Hown.
  { apply infos_ext. intros x Hx.
    rewrite (m_frame _ _ _ _ _ _ _ Hm); [done|].
    unfold sd. rewrite opposite_involutive. unfold nodes.
    apply elem_of_app. by left. }
  assert (list_order (lists_of w sh) (info o)
          = let own := infos (heap w) (resting sh (side o)) in
            let own' := if v1 =? 0 then own
                        else place (set_volume v1 (info o)) own in
            match side o with
            | Buy => mkLists own' (infos (heap w1) (drop k (resting sh sd)))
                             (stdout w ++ ts)
            | Sell => mkLists (infos (heap w1) (drop k (resting sh sd))) own'
                              (stdout w ++ ts)
            end) as Hlist.
  { unfold list_order. simpl side. fold sd.
    rewrite !side_list_lists_of, Hfill. done. }
  rewrite Hlist. clear Hlist.
  rewrite (getattr_Some _ _ _ Ho1). cbn [bind]. simpl volume.
  destruct (Z.eqb_spec v1 0) as [Hz|Hz].
  - exists w1, sh1. split; [done|]. split; [done|].
    unfold lists_of. cbn zeta.
    unfold sd in *. destruct (side o); simpl in *;
      rewrite ?Hown1, ?Hopp1, ?Hown, Hout; done.
  - destruct (add_to_book_spec w1 sh1 order (set_volume v1 o) Hwf1 Ho1)
      as (w' & r & Hadd & Hs & Ha); [done|done|].
    simpl side in *.
    set (sh2 := with_resting (side o)
                  (placed order (resting sh1 (side o)) r) sh1).
    exists w', sh2. split; [done|].
    split; [apply (added_wf _ _ _ _ _ _ Ha)|].
    pose proof (added_info _ _ _ _ _ _ Ha) as Hinfo.
    destruct (Hinfo _ _ Ho1) as (o2 & Ho2 & Hi2).
    assert (infos (heap w') (resting sh2 (side o))
            = place (set_volume v1 (info o))
                    (infos (heap w) (resting sh (side o)))) as Hown2.
    { unfold sh2. rewrite resting_with_resting. rewrite <- Hown, <- Hown1.
      change (set_volume v1 (info o)) with (info (set_volume v1 o)).
      eapply (placed_place (heap w1)); try done.
      - by apply resting_nodup, (wf_nodup _ _ Hwf1).
      - by apply wf_lookups. }
    assert (infos (heap w') (resting sh2 sd)
            = infos (heap w1) (drop k (resting sh sd))) as Hopp2.
    { unfold sh2, sd. rewrite resting_with_resting_ne. fold sd.
      rewrite Hopp1. apply infos_ext. intros x Hx.
      pose proof (wf_lookups _ _ sd Hwf1) as Hl. rewrite Hopp1 in Hl.
      rewrite Forall_forall in Hl. destruct (Hl x Hx) as [m Hm'].
      destruct (Hinfo _ _ Hm') as (m' & Hm'' & Hi).
      rewrite Hm', Hm''. simpl. by rewrite Hi. }
    unfold lists_of. cbn zeta.
    rewrite (added_stdout _ _ _ _ _ _ Ha), Hout.
    unfold sd in *. destruct (side o); simpl in *;
      rewrite ?Hown2, ?Hopp2; done.
Qed.

Lemma wf_resting_unique w sh sh' sd :
  wf w sh → wf w sh' → resting sh sd = resting sh' sd.
Proof.
  intros H H'. pose proof (fetch_orders_wf _ _ sd H) as E.
  rewrite (fetch_orders_wf _ _ sd H') in E. by injection E.
Qed.

Lemma eff_ok_shape w sh sh' : wf w sh → wf w sh' → eff_ok w sh → eff_ok w sh'.
Proof.
  intros H H' Hok sd. rewrite <- (wf_resting_unique _ _ _ sd H H').
  apply Hok.
Qed.

Lemma lists_of_shape w sh sh' : wf w sh → wf w sh' → lists_of w sh = lists_of w sh'.
Proof.
  intros H H'. unfold lists_of.
  by rewrite !(wf_resting_unique _ _ _ _ H H').
Qed.

Lemma lists_of_alloc w sh o : wf w sh → lists_of (alloc w o) sh = lists_of w sh.
Proof.
  intros Hwf. unfold lists_of. simpl stdout.
  assert (∀ sd, infos (heap (alloc w o)) (resting sh sd)
                = infos (heap w) (resting sh sd)) as H.
  { intros sd. apply infos_ext. intros x Hx.
    pose proof (wf_lookups _ _ sd Hwf) as Hl. rewrite Forall_forall in Hl.
    destruct (Hl x Hx) as [m Hm].
    by rewrite (alloc_lookup_old _ o _ _ Hm), Hm. }
  by rewrite !H.
Qed.

Lemma lax_process_row_lists w sh r :
  wf w sh → eff_ok w sh →
  ∃ w' sh', lax_process_row w r = Ok w' ∧ wf w' sh' ∧ eff_ok w' sh' ∧
            lists_of w' sh' = list_order (lists_of w sh) (construct r).
Proof.
  intros Hwf Heff.
  destruct (lax_process_order_lists (alloc w (construct r)) sh (new_loc w)
              (construct r)) as (w' & sh' & Hrun & Hwf' & Hlists).
  - by apply wf_alloc.
  - by apply eff_ok_alloc.
  - apply lookup_insert_eq.
  - done.
  - apply (wf_fresh _ _ _ Hwf (new_loc_fresh w)).
  - destruct (lax_process_row_spec w sh r Hwf) as (w2 & sh2 & Hrow & Hd).
    unfold lax_process_row in Hrow. rewrite Hrun in Hrow. injection Hrow as <-.
    exists w', sh'. split; [done|]. split; [done|]. split.
    + eapply eff_ok_shape; [apply (rd_wf _ _ _ _ _ _ Hd)|done|].
      by apply (rd_eff _ _ _ _ _ _ Hd).
    + by rewrite Hlists, lists_of_alloc.
Qed.

Lemma lax_process_orders_lists data : ∀ w sh,
  wf w sh → eff_ok w sh →
  ∃ w' sh', lax_process_orders w data = Ok w' ∧ wf w' sh' ∧ eff_ok w' sh' ∧
            lists_of w' sh'
            = fold_left (λ b r, list_order b (construct r)) data
                        (lists_of w sh).
Proof.
  induction data as [|r data IH]; intros w sh Hwf Heff.
  - exists w, sh. done.
  - destruct (lax_process_row_lists w sh r Hwf Heff)
      as (w1 & sh1 & Hrow & Hwf1 & Heff1 & Hl1).
    destruct (IH w1 sh1 Hwf1 Heff1) as (w' & sh' & Hrun & Hwf' & Heff' & Hl').
    exists w', sh'. simpl. rewrite Hrow. cbn [bind].
    split; [done|]. split; [done|]. split; [done|]. by rewrite Hl', Hl1.
Qed.

Lemma lists_of_views w sh :
  wf w sh →
  view w Buy = Ok (bids (lists_of w sh)) ∧
  view w Sell = Ok (asks (lists_of w sh)) ∧
  stdout w = tape (lists_of w sh).
Proof. intros Hwf. by rewrite !(view_wf _ _ _ Hwf). Qed.

Lemma side_list_list_order_own b o :
  side_list (list_order b o) (side o)
  = (if volume (snd (fst (fill (opposite (side o)) o
                               (side_list b (opposite (side o)))))) =? 0
     then side_list b (side o)
     else place (snd (fst (fill (opposite (side o)) o
                                (side_list b (opposite (side o))))))
                (side_list b (side o))).
Proof. unfold list_order. by destruct (side o). Qed.

Lemma side_list_list_order_opp b o :
  side_list (list_order b o) (opposite (side o))
  = snd (fill (opposite (side o)) o (side_list b (opposite (side o)))).
Proof. unfold list_order. by destruct (side o). Qed.

Lemma tape_list_order b o :
  tape (list_order b o)
  = tape b ++ fst (fst (fill (opposite (side o)) o
                             (side_list b (opposite (side o))))).
Proof. unfold list_order. by destruct (side o). Qed.

Lemma view_side_list w sh sd :
  wf w sh → view w sd = Ok (side_list (lists_of w sh) sd).
Proof. intros Hwf. rewrite (view_wf _ _ _ Hwf). by destruct sd. Qed.

Lemma lax_process_row_on_lists data w r own opp :
  lax_process_orders OrderBook_init data = Ok w →
  view w (row_side r) = Ok own →
  view w (opposite (row_side r)) = Ok opp →
  ∃ w',
    lax_process_row w r = Ok w' ∧
    let f := fill (opposite (row_side r)) (construct r) opp in
    stdout w' = stdout w ++ fst (fst f) ∧
    view w' (opposite (row_side r)) = Ok (snd f) ∧
    view w' (row_side r)
    = Ok (if volume (snd (fst f)) =? 0 then own
          else place (snd (fst f)) own).
Proof.
  intros Hrun Hown Hopp.
  destruct (lax_reachable_spec _ _ Hrun) as (sh & Hwf & Heff & _).
  destruct (lax_process_row_lists w sh r Hwf Heff)
    as (w' & sh' & Hrow & Hwf' & _ & Hl).
  rewrite (view_side_list _ _ _ Hwf) in Hown.
  rewrite (view_side_list _ _ _ Hwf) in Hopp.
  injection Hown as <-. injection Hopp as <-.
  exists w'. split; [done|]. cbn zeta.
  rewrite !(view_side_list _ _ _ Hwf'), Hl.
  change (row_side r) with (side (construct r)).
  rewrite side_list_list_order_own, side_list_list_order_opp.
  split; [|done].
  change (stdout w') with (tape (lists_of w' sh')).
  by rewrite Hl, tape_list_order.
Qed.

(** ** What the list program shows about matching *)

Lemma fill_order sd o chain :
  snd (fst (fill sd o chain))
  = set_volume (volume (snd (fst (fill sd o chain)))) o.
Proof.
  revert o. induction chain as [|n rest IH]; intros o; simpl.
  - by rewrite set_volume_id.
  - destruct (crosses sd (price n) (price o)); simpl;
      [|by rewrite set_volume_id].
    destruct (volume n - Z.min (volume o) (volume n) =? 0); simpl; [|done].
    destruct (volume o - Z.min (volume o) (volume n) =? 0); simpl; [done|].
    rewrite IH at 1. done.
Qed.

Lemma fill_trades sd o chain :
  Forall (λ t, execid t = orderid o ∧
               crosses sd (trade_price t) (price o) = true)
         (fst (fst (fill sd o chain))).
Proof.
  revert o. induction chain as [|n rest IH]; intros o; simpl; [constructor|].
  destruct (crosses sd (price n) (price o)) eqn:Hc; simpl; [|constructor].
  destruct (volume n - Z.min (volume o) (volume n) =? 0); simpl.
  - destruct (volume o - Z.min (volume o) (volume n) =? 0); simpl.
    + by repeat constructor.
    + constructor; [done|]. apply (IH (set_volume _ o)).
  - by repeat constructor.
Qed.

Lemma fill_volume sd o chain :
  traded (fst (fst (fill sd o chain)))
  = volume o - volume (snd (fst (fill sd o chain))) ∧
  total_volume chain
  = total_volume (snd (fill sd o chain)) + traded (fst (fst (fill sd o chain))).
Proof.
  revert o. induction chain as [|n rest IH]; intros o; simpl.
  - unfold traded. simpl. lia.
  - destruct (crosses sd (price n) (price o)); simpl;
      [|unfold traded; simpl; lia].
    destruct (Z.eqb_spec (volume n - Z.min (volume o) (volume n)) 0); simpl.
    + destruct (Z.eqb_spec (volume o - Z.min (volume o) (volume n)) 0); simpl.
      * unfold traded. simpl. lia.
      * destruct (IH (set_volume (volume o - Z.min (volume o) (volume n)) o))
          as [H1 H2].
        unfold traded in *. simpl in *. lia.
    + unfold traded. simpl. lia.
Qed.

Lemma fill_exit sd o chain :
  volume (snd (fst (fill sd o chain))) = 0 ∨
  match snd (fill sd o chain) with
  | [] => True
  | n :: _ => crosses sd (price n) (price o) = false
  end.
Proof.
  revert o. induction chain as [|n rest IH]; intros o; simpl; [by right|].
  destruct (crosses sd (price n) (price o)) eqn:Hc; simpl; [|by right].
  destruct (Z.eqb_spec (volume n - Z.min (volume o) (volume n)) 0); simpl.
  - destruct (Z.eqb_spec (volume o - Z.min (volume o) (volume n)) 0); simpl.
    + by left.
    + apply (IH (set_volume _ o)).
  - left. lia.
Qed.

Lemma fill_makers sd o chain :
  let f := fill sd o chain in
  map openid (fst (fst f)) = map orderid (take (length (fst (fst f))) chain) ∧
  (snd f = drop (length (fst (fst f))) chain ∨
   ∃ k n rest v, length (fst (fst f)) = S k ∧ drop k chain = n :: rest ∧
                 snd f = set_volume v n :: rest ∧
                 volume (snd (fst f)) = 0).
Proof.
  revert o. induction chain as [|n rest IH]; intros o; simpl.
  - split; [done|]. by left.
  - destruct (crosses sd (price n) (price o)) eqn:Hc; simpl.
    2:{ split; [done|]. by left. }
    destruct (Z.eqb_spec (volume n - Z.min (volume o) (volume n)) 0); simpl.
    + destruct (Z.eqb_spec (volume o - Z.min (volume o) (volume n)) 0); simpl.
      * split; [by destruct rest|]. left. by destruct rest.
      * destruct (IH (set_volume (volume o - Z.min (volume o) (volume n)) o))
          as [H1 H2]. simpl in H1, H2.
        split; [by rewrite H1|].
        destruct H2 as [H2|(k & m & rest' & v & Hl & Hd & Hs & Hz)];
          [by left|].
        right. exists (S k), m, rest', v. simpl. rewrite Hl. done.
    + split; [by destruct rest|]. right.
      exists 0%nat, n, rest, (volume n - Z.min (volume o) (volume n)).
      simpl. repeat split; try done. lia.
Qed.

Lemma lax_reachable_views data w :
  lax_process_orders OrderBook_init data = Ok w →
  ∀ sd, ∃ l, view w sd = Ok l.
Proof.
  intros Hrun sd. destruct (lax_reachable_spec _ _ Hrun) as (sh & Hwf & _).
  eexists. by apply view_wf.
Qed.

(** The outcome of one incoming order, with the lists named. *)
Lemma lax_row_outcome data w r :
  lax_process_orders OrderBook_init data = Ok w →
  ∃ w' own opp own' opp' ts o',
    view w (row_side r) = Ok own ∧
    view w (opposite (row_side r)) = Ok opp ∧
    lax_process_row w r = Ok w' ∧
    stdout w' = stdout w ++ ts ∧
    view w' (row_side r) = Ok own' ∧
    view w' (opposite (row_side r)) = Ok opp' ∧
    fill (opposite (row_side r)) (construct r) opp = (ts, o', opp') ∧
    own' = (if volume o' =? 0 then own else place o' own).
Proof.
  intros Hrun.
  destruct (lax_reachable_views _ _ Hrun (row_side r)) as [own Hown].
  destruct (lax_reachable_views _ _ Hrun (opposite (row_side r))) as [opp Hopp].
  destruct (lax_process_row_on_lists data w r own opp Hrun Hown Hopp)
    as (w' & Hrow & Hout & Hvopp & Hvown).
  destruct (fill (opposite (row_side r)) (construct r) opp)
    as [[ts o'] opp'] eqn:Hf.
  simpl in *. by eexists w', own, opp, _, opp', ts, o'.
Qed.

Lemma place_break_perm o chain l :
  place_break o chain = Some l → l ≡ₚ o :: chain.
Proof.
  revert l. induction chain as [|n rest IH]; intros l; simpl; [done|].
  destruct (order_le o n).
  - destruct (place_break o rest) as [l'|]; simpl; [|done].
    intros [= <-]. rewrite (IH l' eq_refl). apply Permutation_swap.
  - by intros [= <-].
Qed.

Lemma place_perm o chain : place o chain ≡ₚ o :: chain.
Proof.
  unfold place. destruct (place_break o chain) as [l|] eqn:E; [|done].
  by apply place_break_perm.
Qed.

Lemma total_volume_perm l l' : l ≡ₚ l' → total_volume l = total_volume l'.
Proof.
  induction 1; unfold total_volume in *; simpl; lia.
Qed.

(** ** Where an order comes to rest *)

Lemma place_break_Some o chain l :
  place_break o chain = Some l →
  ∃ pre n post, chain = pre ++ n :: post ∧ l = pre ++ o :: n :: post ∧
                Forall (λ m, order_le o m = true) pre ∧
                order_le o n = false.
Proof.
  revert l. induction chain as [|n rest IH]; intros l; simpl; [done|].
  destruct (order_le o n) eqn:Hle.
  - destruct (place_break o rest) as [l'|]; simpl; [|done].
    intros [= <-]. destruct (IH l' eq_refl) as (pre & m & post & -> & -> & Hp & Hm).
    exists (n :: pre), m, post. repeat split; try done. by constructor.
  - intros [= <-]. exists [], n, rest. repeat split; try done.
Qed.

Lemma place_break_None o chain :
  place_break o chain = None → Forall (λ m, order_le o m = true) chain.
Proof.
  induction chain as [|n rest IH]; simpl; [constructor|].
  destruct (order_le o n) eqn:Hle; [|done].
  destruct (place_break o rest); simpl; [done|]. intros _.
  constructor; auto.
Qed.

(** ** Priority order of the chains, where it is kept *)

Lemma sorted_by_drop cmp l k :
  sorted_by cmp l = true → sorted_by cmp (drop k l) = true.
Proof.
  revert l. induction k as [|k IH]; intros l; [by rewrite drop_0|].
  destruct l as [|a [|b l]]; simpl; try done.
  { intros _. by destruct k. }
  intros H. apply andb_true_iff in H as [_ H]. by apply (IH (b :: l)).
Qed.

Lemma sorted_by_insert cmp pre o n post :
  sorted_by cmp (pre ++ n :: post) = true →
  Forall (λ m, cmp m o = true) pre → cmp o n = true →
  sorted_by cmp (pre ++ o :: n :: post) = true.
Proof.
  intros Hs Hpre Hn. induction pre as [|m pre IH].
  - simpl in *. by rewrite Hn.
  - apply Forall_cons in Hpre as [Hm Hpre].
    destruct pre as [|m' pre].
    + simpl in *. apply andb_true_iff in Hs as [_ Hs].
      by rewrite Hm, Hn.
    + change (sorted_by cmp ((m :: m' :: pre) ++ n :: post))
        with (cmp m m' && sorted_by cmp ((m' :: pre) ++ n :: post)) in Hs.
      apply andb_true_iff in Hs as [Hmm Hs].
      change (sorted_by cmp ((m :: m' :: pre) ++ o :: n :: post))
        with (cmp m m' && sorted_by cmp ((m' :: pre) ++ o :: n :: post)).
      rewrite Hmm. by apply IH.
Qed.

Lemma sorted_by_head cmp n n' rest :
  (∀ b, cmp n' b = cmp n b) →
  sorted_by cmp (n' :: rest) = sorted_by cmp (n :: rest).
Proof. intros H. destruct rest; simpl; [done|]. by rewrite H. Qed.

Lemma ordered_by_infos cmp h xs :
  (∀ a b, cmp (info a) (info b) = cmp a b) →
  Forall (λ x, is_Some (h !! x)) xs →
  ordered_by cmp h xs = sorted_by cmp (infos h xs).
Proof.
  intros Hcmp. induction xs as [|a xs IH]; intros Hall; [done|].
  apply Forall_cons in Hall as [[na Ha] Hall].
  rewrite (infos_cons _ _ _ _ Ha).
  destruct xs as [|b xs]; [done|].
  pose proof Hall as Hall'. apply Forall_cons in Hall' as [[nb Hb] _].
  specialize (IH Hall). rewrite (infos_cons _ _ _ _ Hb) in *.
  change (ordered_by cmp h (a :: b :: xs))
    with (match h !! a, h !! b with
          | Some na, Some nb => cmp na nb && ordered_by cmp h (b :: xs)
          | _, _ => false
          end).
  rewrite Ha, Hb, IH. simpl. by rewrite Hcmp.
Qed.

Lemma weakly_ordered_view w sh sd :
  wf w sh →
  weakly_ordered w sd = sorted_by order_ge (infos (heap w) (resting sh sd)).
Proof.
  intros Hwf. unfold weakly_ordered. rewrite (fetch_orders_wf _ _ _ Hwf).
  apply ordered_by_infos; [done|]. by apply wf_lookups.
Qed.

Lemma order_le_ge_swap a b :
  side a = side b → order_le a b = order_ge b a.
Proof. intros Hs. revert Hs. compare_cases2 a b. Qed.

Lemma order_le_false_ge a b : order_le a b = false → order_ge a b = true.
Proof. compare_cases a b. Qed.

Lemma fill_Forall (P : Order → Prop) sd o chain :
  (∀ v n, P n → P (set_volume v n)) →
  Forall P chain → Forall P (snd (fill sd o chain)).
Proof.
  intros HP. revert o. induction chain as [|n rest IH]; intros o H; simpl;
    [done|].
  apply Forall_cons in H as [Hn H].
  destruct (crosses sd (price n) (price o)); simpl; [|by constructor].
  destruct (volume n - Z.min (volume o) (volume n) =? 0); simpl.
  - destruct (volume o - Z.min (volume o) (volume n) =? 0); simpl; [done|].
    by apply IH.
  - constructor; auto.
Qed.

Lemma sides_ok_list_order b o : sides_ok b → sides_ok (list_order b o).
Proof.
  intros Hok sd. destruct (side_cases (side o) sd) as [->| ->].
  - rewrite side_list_list_order_own.
    destruct (_ =? 0); [apply Hok|].
    rewrite place_perm. constructor; [|apply Hok].
    by rewrite fill_order.
  - rewrite side_list_list_order_opp. apply fill_Forall; [done|apply Hok].
Qed.

Lemma sides_ok_fold data b :
  sides_ok b →
  sides_ok (fold_left (λ b r, list_order b (construct r)) data b).
Proof.
  revert b. induction data as [|r data IH]; intros b Hok; [done|].
  simpl. apply IH. by apply sides_ok_list_order.
Qed.

Lemma lax_reachable_lists data w :
  lax_process_orders OrderBook_init data = Ok w →
  ∃ sh, wf w sh ∧ eff_ok w sh ∧ lists_of w sh = list_orders data.
Proof.
  intros Hrun.
  destruct (lax_process_orders_lists data _ _ wf_init eff_ok_init)
    as (w0 & sh & Hrun0 & Hwf & Heff & Hl).
  assert (w0 = w) as -> by congruence. by exists sh.
Qed.

Lemma lax_reachable_sides data w sd l :
  lax_process_orders OrderBook_init data = Ok w →
  view w sd = Ok l → Forall (λ n, side n = sd) l.
Proof.
  intros Hrun Hview.
  destruct (lax_reachable_lists _ _ Hrun) as (sh & Hwf & _ & Hl).
  rewrite (view_side_list _ _ _ Hwf), Hl in Hview. injection Hview as <-.
  apply sides_ok_fold. intros [|]; constructor.
Qed.

(** ** Volumes of executions *)

Lemma fill_trade_volumes sd o chain :
  Forall (λ n, 0 < volume n) chain → 0 ≤ volume o →
  Forall (λ t, 0 ≤ trade_volume t ∧ (0 < volume o → 0 < trade_volume t))
         (fst (fst (fill sd o chain))).
Proof.
  revert o. induction chain as [|n rest IH]; intros o Hpos Hvo; simpl;
    [constructor|].
  apply Forall_cons in Hpos as [Hn Hpos].
  destruct (crosses sd (price n) (price o)); simpl; [|constructor].
  destruct (Z.eqb_spec (volume n - Z.min (volume o) (volume n)) 0); simpl.
  - destruct (Z.eqb_spec (volume o - Z.min (volume o) (volume n)) 0); simpl.
    + repeat constructor; simpl; lia.
    + constructor; [simpl; lia|].
      eapply Forall_impl; [apply (IH (set_volume _ o)); simpl; [done|lia]|].
      simpl. intros t [H1 H2]. split; [done|]. intros _. apply H2. lia.
  - repeat constructor; simpl; lia.
Qed.

Lemma positive_view w sh sd :
  wf w sh → positive_book w sh →
  Forall (λ n, 0 < volume n) (infos (heap w) (resting sh sd)).
Proof.
  intros Hwf Hpos. apply infos_forall. apply Forall_forall.
  intros x Hx. destruct (Hpos sd x Hx) as (n & Hn & Hv). eauto.
Qed.

(** ** The pointers of the chains *)

Lemma links_index h prev ls i x :
  links h prev ls None → ls !! i = Some x →
  ∃ n, h !! x = Some n ∧ nextnd n = ls !! S i ∧
       prevnd n = match i with
                  | O => prev
                  | S j => ls !! j
                  end.
Proof.
  revert prev i. induction ls as [|y ls IH]; intros prev i Hl Hi; [done|].
  apply links_cons_inv in Hl as (n & Hn & Hp & Hnx & Hl).
  destruct i as [|i].
  - simpl in Hi. injection Hi as <-. exists n. split; [done|].
    split; [|done]. rewrite Hnx. by destruct ls.
  - simpl in Hi. destruct (IH (Some y) i Hl Hi) as (m & Hm & Hmn & Hmp).
    exists m. split; [done|]. split; [done|].
    rewrite Hmp. by destruct i.
Qed.

(** ** Where the resting orders come from *)

Lemma fill_rest_from data sd o chain :
  0 ≤ volume o → Forall (from_input data) chain →
  Forall (from_input data) (snd (fill sd o chain)).
Proof.
  revert o. induction chain as [|n rest IH]; intros o Hv H; simpl; [done|].
  apply Forall_cons in H as [Hn H].
  destruct (crosses sd (price n) (price o)); simpl; [|by constructor].
  destruct (Z.eqb_spec (volume n - Z.min (volume o) (volume n)) 0); simpl.
  - destruct (Z.eqb_spec (volume o - Z.min (volume o) (volume n)) 0); simpl;
      [done|].
    apply IH; [simpl; lia|done].
  - constructor; [|done].
    destruct Hn as (r & Hr & Hn & Hb). exists r. split; [done|]. simpl.
    split; [by rewrite Hn|lia].
Qed.

Lemma fill_left_bounds sd o chain :
  0 ≤ volume o → Forall (λ n, 0 < volume n) chain →
  0 ≤ volume (snd (fst (fill sd o chain))) ≤ volume o.
Proof.
  revert o. induction chain as [|n rest IH]; intros o Hv H; simpl; [lia|].
  apply Forall_cons in H as [Hn H].
  destruct (crosses sd (price n) (price o)); simpl; [|lia].
  destruct (Z.eqb_spec (volume n - Z.min (volume o) (volume n)) 0); simpl.
  - destruct (Z.eqb_spec (volume o - Z.min (volume o) (volume n)) 0); simpl;
      [lia|].
    specialize (IH (set_volume (volume o - Z.min (volume o) (volume n)) o)).
    simpl in IH. lapply IH; [|lia]. intros IH'. specialize (IH' H). lia.
  - lia.
Qed.

Lemma from_input_positive data l :
  Forall (from_input data) l → Forall (λ n, 0 < volume n) l.
Proof.
  intros H. eapply Forall_impl; [exact H|].
  intros n (r & _ & _ & Hb). simpl. lia.
Qed.

Lemma from_input_list_order data b r :
  r ∈ data → 0 ≤ row_volume r →
  (∀ sd, Forall (from_input data) (side_list b sd)) →
  ∀ sd, Forall (from_input data) (side_list (list_order b (construct r)) sd).
Proof.
  intros Hr Hv Hb sd.
  destruct (side_cases (side (construct r)) sd) as [->| ->].
  - rewrite side_list_list_order_own.
    destruct (Z.eqb_spec
                (volume (snd (fst (fill (opposite (side (construct r)))
                   (construct r)
                   (side_list b (opposite (side (construct r))))))))
                0) as [|Hne]; [apply Hb|].
    rewrite place_perm. constructor; [|apply Hb].
    pose proof (fill_left_bounds (opposite (side (construct r))) (construct r)
                  (side_list b (opposite (side (construct r)))) Hv
                  (from_input_positive _ _ (Hb _))) as Hbd.
    exists r. split; [done|]. split.
    + rewrite fill_order at 1. done.
    + change (volume (construct r)) with (row_volume r) in Hbd. lia.
  - rewrite side_list_list_order_opp. by apply fill_rest_from.
Qed.

Lemma from_input_fold data rows b :
  (∀ r, r ∈ rows → r ∈ data ∧ 0 ≤ row_volume r) →
  (∀ sd, Forall (from_input data) (side_list b sd)) →
  ∀ sd, Forall (from_input data)
          (side_list (fold_left (λ b r, list_order b (construct r)) rows b)
                     sd).
Proof.
  revert b. induction rows as [|r rows IH]; intros b Hrows Hb; [done|].
  simpl. apply IH.
  - intros r' Hr'. apply Hrows. by right.
  - destruct (Hrows r) as [Hr Hv]; [by left|].
    by apply from_input_list_order.
Qed.

(** * The program and the matching with every execution written

    [execute_order] is the only step that tells the program from the loops
    that write every execution.  The program returns what those loops
    return whenever it returns ([..._sound]), and it returns whenever
    every price they write is finite ([..._complete]). *)

Lemma bind_Ok {A B : Type} (c : res A) (k : A → res B) (b : B) :
  bind c k = Ok b → ∃ a, c = Ok a ∧ k a = Ok b.
Proof. destruct c as [a|e]; simpl; [eauto|done]. Qed.

Lemma execute_order_finite w e o p v :
  isfinite p = true → execute_order w e o p v = Ok (emit w e o p v).
Proof. unfold execute_order. by intros ->. Qed.

Lemma execute_order_infinite w e o p v :
  isfinite p = false → execute_order w e o p v = Raise OverflowError.
Proof. unfold execute_order. by intros ->. Qed.

(** One pass of the body is the pass that writes its execution, behind the
    conversion of the price of the resting order. *)
Lemma match_body_lax sd w order nd o n :
  getattr w order = Ok o → getattr w nd = Ok n →
  match_body sd w order nd
  = if isfinite (price n) then lax_match_body sd w order nd
    else Raise OverflowError.
Proof.
  intros Ho Hn. unfold match_body, lax_match_body.
  rewrite Ho, Hn. cbn [bind]. unfold execute_order.
  destruct (isfinite (price n));
    destruct (Z.max (volume o - volume n) 0 =? 0); reflexivity.
Qed.

Lemma setattr_stdout w l f w' : setattr w l f = Ok w' → stdout w' = stdout w.
Proof.
  unfold setattr. intros (n & _ & H)%bind_Ok. by injection H as <-.
Qed.

(** The pass writes one execution, at the price of the resting order. *)
Lemma lax_match_body_stdout sd w order nd r :
  lax_match_body sd w order nd = Ok r →
  ∃ o n v, getattr w order = Ok o ∧ getattr w nd = Ok n ∧
           stdout (fst r)
           = stdout w ++ [mkTrade (orderid o) (orderid n) (price n) v].
Proof.
  unfold lax_match_body. intros H.
  apply bind_Ok in H as (o & Ho & H). apply bind_Ok in H as (n & Hn & H).
  cbv zeta in H.
  set (w1 := if Z.max (volume o - volume n) 0 =? 0
             then emit w (orderid o) (orderid n) (price n) (volume o)
             else emit w (orderid o) (orderid n) (price n) (volume n)) in H.
  assert (∃ v, stdout w1
               = stdout w ++ [mkTrade (orderid o) (orderid n) (price n) v])
    as [v Hw1].
  { unfold w1. destruct (_ =? 0); eexists; reflexivity. }
  clearbody w1.
  apply bind_Ok in H as (w2 & H2%setattr_stdout & H).
  apply bind_Ok in H as (w3 & H3%setattr_stdout & H).
  apply bind_Ok in H as (n3 & _ & H).
  exists o, n, v. split; [done|]. split; [done|].
  destruct (volume n3 =? 0).
  - apply bind_Ok in H as (nx & _ & H).
    apply bind_Ok in H as (w4 & H4%setattr_stdout & H).
    apply bind_Ok in H as (hd & _ & H).
    apply bind_Ok in H as (n5 & _ & H).
    apply bind_Ok in H as (nx5 & _ & H).
    injection H as <-. simpl.
    assert (∀ s p x, stdout (set_effective s p x) = stdout x) as He
      by (by intros [|]).
    assert (∀ s l x, stdout (set_head s l x) = stdout x) as Hh
      by (by intros [|]).
    rewrite He, H4, Hh. congruence.
  - injection H as <-. simpl. congruence.
Qed.

Lemma lax_match_loop_stdout sd fuel w order nd w' :
  lax_match_loop sd fuel w order nd = Ok w' →
  ∃ ts, stdout w' = stdout w ++ ts.
Proof.
  revert w nd. induction fuel as [|fuel IH]; intros w nd H; [done|].
  simpl in H. apply bind_Ok in H as (n & _ & H).
  destruct (truthy (nextnd n));
    [|injection H as <-; exists []; by rewrite app_nil_r].
  apply bind_Ok in H as (o & _ & H).
  destruct (crosses sd (price n) (price o));
    [|injection H as <-; exists []; by rewrite app_nil_r].
  apply bind_Ok in H as (r & Hr & H).
  apply lax_match_body_stdout in Hr as (o1 & n1 & v & _ & _ & Hr).
  apply bind_Ok in H as (o2 & _ & H).
  destruct (volume o2 =? 0).
  - injection H as <-. eauto.
  - apply IH in H as [ts Hts]. rewrite Hts, Hr, <- app_assoc. eauto.
Qed.

Lemma match_loop_sound sd fuel w order nd w' :
  match_loop sd fuel w order nd = Ok w' →
  lax_match_loop sd fuel w order nd = Ok w'.
Proof.
  revert w nd. induction fuel as [|fuel IH]; intros w nd H; [done|].
  simpl in *. destruct (getattr w nd) as [n|] eqn:Hn; [|done].
  cbn [bind] in *. destruct (truthy (nextnd n)); [|done].
  destruct (getattr w order) as [o|] eqn:Ho; [|done].
  cbn [bind] in *. destruct (crosses sd (price n) (price o)); [|done].
  rewrite (match_body_lax _ _ _ _ _ _ Ho Hn) in H.
  destruct (isfinite (price n)); [|done].
  destruct (lax_match_body sd w order nd) as [r|]; [|done].
  cbn [bind] in *. destruct (getattr (fst r) order) as [o1|]; [|done].
  cbn [bind] in *. destruct (volume o1 =? 0); [done|]. by apply IH.
Qed.

Lemma match_loop_complete sd fuel w order nd w' ts :
  lax_match_loop sd fuel w order nd = Ok w' →
  stdout w' = stdout w ++ ts →
  Forall (λ t, isfinite (trade_price t) = true) ts →
  match_loop sd fuel w order nd = Ok w'.
Proof.
  revert w nd ts. induction fuel as [|fuel IH]; intros w nd ts H Hout Hfin;
    [done|].
  simpl in *. destruct (getattr w nd) as [n|] eqn:Hn; [|done].
  cbn [bind] in *. destruct (truthy (nextnd n)); [|done].
  destruct (getattr w order) as [o|] eqn:Ho; [|done].
  cbn [bind] in *. destruct (crosses sd (price n) (price o)); [|done].
  rewrite (match_body_lax _ _ _ _ _ _ Ho Hn).
  destruct (lax_match_body sd w order nd) as [r|] eqn:Hr; [|done].
  cbn [bind] in H.
  destruct (lax_match_body_stdout _ _ _ _ _ Hr)
    as (o1 & n1 & v & Ho1 & Hn1 & Hr1).
  assert (o1 = o) as -> by congruence. assert (n1 = n) as -> by congruence.
  assert (∃ ts1, stdout w' = stdout (fst r) ++ ts1) as [ts1 Hts1].
  { destruct (getattr (fst r) order) as [o2|]; [|done]. cbn [bind] in H.
    destruct (volume o2 =? 0).
    - injection H as <-. exists []. by rewrite app_nil_r.
    - by eapply lax_match_loop_stdout. }
  rewrite Hts1, Hr1, <- app_assoc in Hout. apply app_inv_head in Hout.
  subst ts. apply Forall_cons in Hfin as [Hp Hfin]. simpl in Hp.
  rewrite Hp. cbn [bind].
  destruct (getattr (fst r) order) as [o2|]; [|done]. cbn [bind] in *.
  destruct (volume o2 =? 0); [done|]. by eapply IH.
Qed.

Lemma lax_crossing_stdout w order w' :
  lax_crossing w order = Ok w' → ∃ ts, stdout w' = stdout w ++ ts.
Proof.
  unfold lax_crossing. intros (o & _ & H)%bind_Ok. cbv zeta in H.
  destruct (crosses _ _ _).
  - by eapply lax_match_loop_stdout.
  - injection H as <-. exists []. by rewrite app_nil_r.
Qed.

Lemma crossing_sound w order w' :
  crossing w order = Ok w' → lax_crossing w order = Ok w'.
Proof.
  intros H. destruct (heap w !! order) as [o|] eqn:Ho.
  - rewrite (crossing_unfold _ _ _ Ho) in H.
    rewrite (lax_crossing_unfold _ _ _ Ho).
    destruct (crosses _ _ _); [|done]. by apply match_loop_sound.
  - unfold crossing, getattr in H. by rewrite Ho in H.
Qed.

Lemma crossing_complete w order w' ts :
  lax_crossing w order = Ok w' →
  stdout w' = stdout w ++ ts →
  Forall (λ t, isfinite (trade_price t) = true) ts →
  crossing w order = Ok w'.
Proof.
  intros H Hout Hfin. destruct (heap w !! order) as [o|] eqn:Ho.
  - rewrite (crossing_unfold _ _ _ Ho).
    rewrite (lax_crossing_unfold _ _ _ Ho) in H.
    destruct (crosses _ _ _); [|done]. by eapply match_loop_complete.
  - unfold lax_crossing, getattr in H. by rewrite Ho in H.
Qed.

Lemma add_to_book_stdout w order w' :
  add_to_book w order = Ok w' → stdout w' = stdout w.
Proof.
  unfold add_to_book. intros (o & _ & H)%bind_Ok. cbv zeta in H.
  apply bind_Ok in H as (found & _ & H).
  apply bind_Ok in H as (w1 & H1 & H).
  assert (stdout w1 = stdout w) as Hw1.
  { destruct found as [nd|].
    - apply bind_Ok in H1 as (n & _ & H1).
      apply bind_Ok in H1 as (w2 & H2%setattr_stdout & H1).
      apply bind_Ok in H1 as (w3 & H3%setattr_stdout & H1).
      apply setattr_stdout in H1. congruence.
    - apply bind_Ok in H1 as (w2 & H2%setattr_stdout & H1).
      apply setattr_stdout in H1. congruence. }
  apply bind_Ok in H as (o1 & _ & H).
  destruct (prevnd o1) as [p|].
  - apply setattr_stdout in H. congruence.
  - destruct (side o1); injection H as <-; done.
Qed.

Lemma lax_process_order_stdout w order w' :
  lax_process_order w order = Ok w' → ∃ ts, stdout w' = stdout w ++ ts.
Proof.
  unfold lax_process_order. intros (w1 & [ts Hts]%lax_crossing_stdout & H)%bind_Ok.
  apply bind_Ok in H as (o & _ & H). exists ts.
  destruct (volume o =? 0).
  - by injection H as <-.
  - apply add_to_book_stdout in H. congruence.
Qed.

Lemma process_order_sound w order w' :
  process_order w order = Ok w' → lax_process_order w order = Ok w'.
Proof.
  unfold process_order, lax_process_order.
  intros (w1 & H1%crossing_sound & H)%bind_Ok. by rewrite H1.
Qed.

Lemma process_order_complete w order w' ts :
  lax_process_order w order = Ok w' →
  stdout w' = stdout w ++ ts →
  Forall (λ t, isfinite (trade_price t) = true) ts →
  process_order w order = Ok w'.
Proof.
  unfold process_order, lax_process_order. intros H Hout Hfin.
  apply bind_Ok in H as (w1 & H1 & H).
  assert (stdout w' = stdout w1) as Hsame.
  { apply bind_Ok in H as (o & _ & H). destruct (volume o =? 0).
    - by injection H as <-.
    - by apply add_to_book_stdout in H. }
  rewrite (crossing_complete _ _ _ ts H1); [done| |done]. congruence.
Qed.

Lemma process_row_sound w r w' :
  process_row w r = Ok w' → lax_process_row w r = Ok w'.
Proof. apply process_order_sound. Qed.

Lemma process_row_complete w r w' ts :
  lax_process_row w r = Ok w' →
  stdout w' = stdout w ++ ts →
  Forall (λ t, isfinite (trade_price t) = true) ts →
  process_row w r = Ok w'.
Proof.
  intros H Hout Hfin. unfold process_row, lax_process_row in *.
  eapply process_order_complete; [exact H|exact Hout|exact Hfin].
Qed.

Lemma lax_process_orders_stdout data w w' :
  lax_process_orders w data = Ok w' → ∃ ts, stdout w' = stdout w ++ ts.
Proof.
  revert w. induction data as [|r data IH]; intros w H; simpl in H.
  - injection H as <-. exists []. by rewrite app_nil_r.
  - apply bind_Ok in H as (w1 & [ts1 H1]%lax_process_order_stdout & H).
    apply IH in H as [ts Hts]. exists (ts1 ++ ts).
    rewrite Hts, H1. simpl. by rewrite app_assoc.
Qed.

Lemma process_orders_sound data w w' :
  process_orders w data = Ok w' → lax_process_orders w data = Ok w'.
Proof.
  revert w. induction data as [|r data IH]; intros w H; simpl in *; [done|].
  apply bind_Ok in H as (w1 & H1%process_row_sound & H).
  rewrite H1. by apply IH.
Qed.

Lemma process_orders_complete data w w' ts :
  lax_process_orders w data = Ok w' →
  stdout w' = stdout w ++ ts →
  Forall (λ t, isfinite (trade_price t) = true) ts →
  process_orders w data = Ok w'.
Proof.
  revert w ts. induction data as [|r data IH]; intros w ts H Hout Hfin;
    simpl in *; [done|].
  apply bind_Ok in H as (w1 & H1 & H).
  destruct (lax_process_order_stdout _ _ _ H1) as [ts1 Hts1].
  destruct (lax_process_orders_stdout _ _ _ H) as [ts2 Hts2].
  rewrite Hts2, Hts1, <- app_assoc in Hout. apply app_inv_head in Hout.
  subst ts. apply Forall_app in Hfin as [Hf1 Hf2].
  rewrite (process_row_complete _ _ _ _ H1 Hts1 Hf1). cbn [bind].
  by eapply IH.
Qed.

(** ** Runs on finite prices *)

Lemma fill_trade_prices sd o chain :
  Forall (λ n, isfinite (price n) = true) chain →
  Forall (λ t, isfinite (trade_price t) = true)
         (fst (fst (fill sd o chain))).
Proof.
  revert o. induction chain as [|n rest IH]; intros o H; simpl;
    [constructor|].
  apply Forall_cons in H as [Hn H].
  destruct (crosses sd (price n) (price o)); simpl; [|constructor].
  destruct (volume n - Z.min (volume o) (volume n) =? 0); simpl.
  - destruct (volume o - Z.min (volume o) (volume n) =? 0); simpl.
    + by repeat constructor.
    + constructor; [done|]. by apply IH.
  - by repeat constructor.
Qed.

Lemma finite_list_order b r :
  (∀ sd, Forall (λ n, isfinite (price n) = true) (side_list b sd)) →
  Forall (λ t, isfinite (trade_price t) = true) (tape b) →
  isfinite (row_price r) = true →
  (∀ sd, Forall (λ n, isfinite (price n) = true)
           (side_list (list_order b (construct r)) sd)) ∧
  Forall (λ t, isfinite (trade_price t) = true)
         (tape (list_order b (construct r))).
Proof.
  intros Hb Ht Hr. split.
  - intros sd. destruct (side_cases (side (construct r)) sd) as [->| ->].
    + rewrite side_list_list_order_own.
      destruct (_ =? 0); [apply Hb|].
      rewrite place_perm. constructor; [|apply Hb].
      by rewrite fill_order.
    + rewrite side_list_list_order_opp. by apply fill_Forall.
  - rewrite tape_list_order. apply Forall_app. split; [done|].
    apply fill_trade_prices, Hb.
Qed.

Lemma finite_fold data b :
  Forall (λ r, isfinite (row_price r) = true) data →
  (∀ sd, Forall (λ n, isfinite (price n) = true) (side_list b sd)) →
  Forall (λ t, isfinite (trade_price t) = true) (tape b) →
  let b' := fold_left (λ b r, list_order b (construct r)) data b in
  (∀ sd, Forall (λ n, isfinite (price n) = true) (side_list b' sd)) ∧
  Forall (λ t, isfinite (trade_price t) = true) (tape b').
Proof.
  revert b. induction data as [|r data IH]; intros b Hall Hb Ht; [done|].
  apply Forall_cons in Hall as [Hr Hall]. simpl.
  destruct (finite_list_order b r Hb Ht Hr) as [Hb' Ht']. by apply IH.
Qed.

Lemma finite_list_orders data :
  Forall (λ r, isfinite (row_price r) = true) data →
  (∀ sd, Forall (λ n, isfinite (price n) = true)
           (side_list (list_orders data) sd)) ∧
  Forall (λ t, isfinite (trade_price t) = true) (tape (list_orders data)).
Proof.
  intros Hall. apply finite_fold; [done| |constructor].
  intros [|]; constructor.
Qed.

(** A run on finite prices returns. *)
Lemma run_complete data :
  Forall (λ r, isfinite (row_price r) = true) data →
  process_orders OrderBook_init data = lax_process_orders OrderBook_init data.
Proof.
  intros Hall.
  destruct (lax_run_spec data) as (w & sh & Hrun & _).
  destruct (lax_reachable_lists _ _ Hrun) as (sh' & _ & _ & Hl).
  rewrite Hrun. apply (process_orders_complete _ _ _ (stdout w) Hrun);
    [done|].
  change (stdout w) with (tape (lists_of w sh')). rewrite Hl.
  by apply finite_list_orders.
Qed.

Lemma run_sound data w :
  process_orders OrderBook_init data = Ok w →
  lax_process_orders OrderBook_init data = Ok w.
Proof. apply process_orders_sound. Qed.

(** In a book where every resting order has a finite price, an incoming
    order of any price is processed without error. *)
Lemma row_complete data w r :
  Forall (λ r, isfinite (row_price r) = true) data →
  lax_process_orders OrderBook_init data = Ok w →
  process_row w r = lax_process_row w r.
Proof.
  intros Hall Hrun.
  destruct (lax_row_outcome data w r Hrun)
    as (w' & own & opp & own' & opp' & ts & o' & _ & Hopp & Hrow & Hout
        & _ & _ & Hf & _).
  rewrite Hrow. apply (process_row_complete _ _ _ ts Hrow Hout).
  destruct (lax_reachable_lists _ _ Hrun) as (sh & Hwf & _ & Hl).
  rewrite (view_side_list _ _ _ Hwf), Hl in Hopp. injection Hopp as <-.
  pose proof (fill_trade_prices (opposite (row_side r)) (construct r) _
                (proj1 (finite_list_orders data Hall)
                       (opposite (row_side r)))) as H.
  by rewrite Hf in H.
Qed.

(** A row that writes no execution is processed without error. *)
Lemma row_complete_silent w r w' :
  lax_process_row w r = Ok w' → stdout w' = stdout w →
  process_row w r = Ok w'.
Proof.
  intros Hrow Hout. apply (process_row_complete _ _ _ [] Hrow).
  - by rewrite app_nil_r.
  - constructor.
Qed.
(** * The claims *)

(** ** Insertion at the lowest priority *)

(** C1 (the code departs from it).  A sell order at 100 rests; a sell
    order at 105 arrives later, so the resting order has the higher
    priority.  [add_to_book] does not append the new order before the
    terminal node: it becomes the head of the chain, in front of the order
    at 100, and the effective ask becomes 105. *)
Theorem C1_lowest_priority_order_is_put_first :
  let resting_row := mkRow "a" Sell (Fin 100) 10 None 1 in
  let incoming := construct (mkRow "b" Sell (Fin 105) 5 None 2) in
  ∃ w a na w',
    process_orders OrderBook_init [resting_row] = Ok w ∧
    fetch_orders w Sell = Ok [a] ∧
    heap w !! a = Some na ∧ order_le incoming na = true ∧
    add_to_book (alloc w incoming) (new_loc w) = Ok w' ∧
    fetch_orders w' Sell = Ok [new_loc w; a] ∧
    describe w' Sell =
      Ok [(Some "b", Fin 105, 5); (Some "a", Fin 100, 10)] ∧
    sell_head (book w') = new_loc w ∧
    effectiveask (book w') = Fin 105.
Proof.
  simpl. eexists _, _, _, _.
  split; [vm_compute; reflexivity|].
  split; [vm_compute; reflexivity|].
  split; [vm_compute; reflexivity|].
  split; [vm_compute; reflexivity|].
  split; [vm_compute; reflexivity|].
  split; [vm_compute; reflexivity|].
  split; [vm_compute; reflexivity|].
  split; vm_compute; reflexivity.
Qed.

(** ** Priority order of the chains *)

(** C2 (the code departs from it).  Two valid sell orders, at 100 and then
    at 105: after the run the sell chain holds the order at 105 in front of
    the order at 100.  The chain is not in priority order, strictly or
    with ties allowed. *)
Theorem C2_chain_not_priority_ordered :
  let data := [mkRow "a" Sell (Fin 100) 10 None 1;
               mkRow "b" Sell (Fin 105) 5 None 2] in
  valid_rows data = true ∧
  ∃ w, process_orders OrderBook_init data = Ok w ∧
       describe w Sell =
         Ok [(Some "b", Fin 105, 5); (Some "a", Fin 100, 10)] ∧
       priority_ordered w Sell = false ∧
       weakly_ordered w Sell = false.
Proof.
  simpl. split; [reflexivity|]. eexists.
  split; [vm_compute; reflexivity|].
  split; [vm_compute; reflexivity|].
  split; vm_compute; reflexivity.
Qed.

(** C3, as amended.  After any run from a new book on finite prices, and
    then after the matching of the next incoming order and after its
    insertion, each effective price is the price of the node its head
    pointer designates: the first resting order, or the terminal node
    (price -infinity for bids, +infinity for asks) when nothing rests.  The
    only exception is an empty side that still has the value given by
    [OrderBook.__init__]. *)
Theorem C3_effective_price_follows_head (data : list Row) (r : Row) :
  Forall (λ r, isfinite (row_price r) = true) data →
  ∃ w w1 w2,
    process_orders OrderBook_init data = Ok w ∧ effective_as_coded w ∧
    crossing (alloc w (construct r)) (new_loc w) = Ok w1 ∧
    effective_as_coded w1 ∧
    process_row w r = Ok w2 ∧ effective_as_coded w2.
Proof.
  intros Hall. rewrite (run_complete data Hall).
  destruct (lax_run_spec data) as (w & sh & Hrun & Hwf & Heff & Hterm & _).
  destruct (lax_crossing_spec (alloc w (construct r)) sh (new_loc w)
              (construct r)) as (w1 & k & Hcross & Hm).
  { by apply wf_alloc. }
  { apply lookup_insert_eq. }
  { apply (wf_fresh _ _ _ Hwf (new_loc_fresh w)). }
  destruct (lax_process_row_spec w sh r Hwf) as (w2 & sh2 & Hrow & Hd).
  assert (process_row w r = Ok w2) as Hrow'
    by (by rewrite (row_complete data w r Hall Hrun)).
  assert (crossing (alloc w (construct r)) (new_loc w) = Ok w1) as Hcross'.
  { pose proof Hrow' as H. unfold process_row, process_order in H.
    apply bind_Ok in H as (w1' & H1 & _).
    pose proof (crossing_sound _ _ _ H1) as H1'. congruence. }
  exists w, w1, w2.
  split; [done|]. split; [by eapply effective_coded|].
  split; [done|]. split; [|split; [done|]].
  - eapply effective_coded.
    + apply (m_wf _ _ _ _ _ _ _ Hm).
    + apply (eff_ok_matched _ _ _ _ _ _ _ Hm). by apply eff_ok_alloc.
    + eapply term_ok_static; [apply (m_static _ _ _ _ _ _ _ Hm)| |].
      * intros s. apply terminal_with_resting.
      * by apply term_ok_alloc.
  - eapply effective_coded.
    + apply (rd_wf _ _ _ _ _ _ Hd).
    + by apply (rd_eff _ _ _ _ _ _ Hd).
    + eapply term_ok_static; [apply (rd_static _ _ _ _ _ _ Hd)| |done].
      apply (rd_term _ _ _ _ _ _ Hd).
Qed.

Lemma C3_effective_price_follows_head_witness :
  ∃ w w1 w2,
    process_orders OrderBook_init demo_rows = Ok w ∧ effective_as_coded w ∧
    crossing (alloc w (construct demo_row)) (new_loc w) = Ok w1 ∧
    effective_as_coded w1 ∧
    process_row w demo_row = Ok w2 ∧ effective_as_coded w2.
Proof.
  apply (C3_effective_price_follows_head demo_rows demo_row).
  by repeat constructor.
Defined.

(** C3, as stated, fails: a buy order at 100 rests and a sell order at 100
    fills it.  The buy chain is empty again, and the effective bid is the
    price of the buy terminal node, -infinity, not +infinity. *)
Lemma C3_emptied_side_has_terminal_price :
  ¬ (∀ data w, process_orders OrderBook_init data = Ok w →
               effective_as_specified w).
Proof.
  intros H.
  pose (data := [mkRow "a" Buy (Fin 100) 10 None 1;
                 mkRow "b" Sell (Fin 100) 10 None 2]).
  destruct (process_orders OrderBook_init data) as [w|e] eqn:Hrun;
    [|by vm_compute in Hrun].
  destruct (H data w Hrun Buy) as (xs & Hxs & Hcase).
  vm_compute in Hrun. injection Hrun as <-.
  vm_compute in Hxs. injection Hxs as <-.
  vm_compute in Hcase. discriminate.
Qed.

(** C4.  One pass of a matching loop, with the incoming order [order] and
    the head [nd] of the opposite chain, whose price is finite: the body
    ends, it writes exactly one execution, with the two identifiers, the
    price of the resting order and the smaller of the two volumes, and
    takes that volume off both orders. *)
Theorem C4_one_execution_per_match sd w sh order o nd n rest :
  wf w sh → resting sh sd = nd :: rest →
  heap w !! order = Some o → order ∉ nodes sh Buy ++ nodes sh Sell →
  heap w !! nd = Some n → isfinite (price n) = true →
  ∃ w' nd',
    process_body sd w order nd = Ok (w', nd') ∧
    stdout w' =
      stdout w ++ [mkTrade (orderid o) (orderid n) (price n)
                           (Z.min (volume o) (volume n))] ∧
    volume <$> heap w' !! order
      = Some (volume o - Z.min (volume o) (volume n)) ∧
    volume <$> heap w' !! nd
      = Some (volume n - Z.min (volume o) (volume n)).
Proof.
  intros Hwf Hxs Ho Hfresh Hn Hfin.
  destruct (lax_match_body_spec sd w sh order o nd n rest Hwf Hxs Ho Hfresh
              Hn) as (w' & nd' & Hbody & Hout & _ & _ & Hcase).
  destruct (fresh_sides _ sd _ Hfresh) as [Hfr _].
  assert (order ≠ nd) as Hne.
  { intros ->. apply Hfr. unfold nodes. rewrite Hxs. by left. }
  exists w', nd'. rewrite process_body_eq.
  rewrite (match_body_lax sd w order nd o n (getattr_Some _ _ _ Ho)
             (getattr_Some _ _ _ Hn)), Hfin.
  split; [done|]. split; [done|].
  destruct (decide (volume n ≤ volume o)).
  - destruct Hcase as (hn & Hhn & -> & Hhd & _ & Hwf').
    assert (nd' ∈ rest ++ [terminal sh sd]) as Hin.
    { apply head_Some_elem_of. rewrite <- Hhd.
      pose proof (wf_head _ _ Hwf' sd) as H.
      by rewrite nodes_with_resting_eq in H. }
    assert (nd' ≠ order).
    { intros ->. apply Hfr. unfold nodes. rewrite Hxs. by right. }
    assert (nd' ≠ nd).
    { intros ->. pose proof (nodes_nodup _ sd (wf_nodup _ _ Hwf)) as Hnd.
      unfold nodes in Hnd. rewrite Hxs in Hnd.
      by apply NoDup_cons in Hnd as [? _]. }
    split.
    + rewrite lookup_insert_ne by done. by rewrite lookup_insert_eq.
    + rewrite !lookup_insert_ne by done. by rewrite lookup_insert_eq.
  - destruct Hcase as (-> & _). split.
    + by rewrite lookup_insert_eq.
    + rewrite lookup_insert_ne by done. by rewrite lookup_insert_eq.
Qed.

Lemma C4_one_execution_per_match_witness :
  ∃ w' nd',
    process_body Sell demo_world 4%positive 3%positive = Ok (w', nd') ∧
    stdout w' = [mkTrade (Some "b") (Some "a") (Fin 100) 4] ∧
    volume <$> heap w' !! 4%positive = Some 0 ∧
    volume <$> heap w' !! 3%positive = Some 6.
Proof.
  apply (C4_one_execution_per_match Sell demo_world demo_shape 4%positive
           (Order_init (Some "b") Buy (Fin 100) 4 None 2) 3%positive
           (mkOrder (Some "a") Sell (Fin 100) 10 None (Some 2%positive)
                    1 None) []).
  - apply demo_wf.
  - reflexivity.
  - vm_compute. reflexivity.
  - simpl. intros H.
    repeat (apply elem_of_cons in H as [H|H]; [discriminate|]).
    by apply elem_of_nil in H.
  - vm_compute. reflexivity.
  - reflexivity.
Defined.

(** The condition on the prices is needed: [execute_order] converts the
    price of the resting order with [int], so an execution against an order
    that rests at an infinite price raises [OverflowError]. *)
Example infinite_price_raises :
  process_orders OrderBook_init
    [mkRow "a" Sell PosInf 10 None 1; mkRow "b" Buy PosInf 5 None 2]
  = Raise OverflowError ∧
  process_orders OrderBook_init
    [mkRow "a" Sell NegInf 10 None 1; mkRow "b" Buy (Fin 100) 5 None 2]
  = Raise OverflowError.
Proof. split; vm_compute; reflexivity. Qed.

(** C5.  Processing one incoming order in a book reached from a new one
    on finite prices ends, and the volumes of the executions it writes add
    up to the volume the order came with minus the volume it is left
    with. *)
Theorem C5_executions_sum_to_filled_volume data w r :
  Forall (λ r, isfinite (row_price r) = true) data →
  process_orders OrderBook_init data = Ok w →
  ∃ w' o' ts,
    process_row w r = Ok w' ∧
    heap w' !! new_loc w = Some o' ∧
    stdout w' = stdout w ++ ts ∧
    traded ts = row_volume r - volume o'.
Proof.
  intros Hall Hrun%run_sound. rewrite (row_complete data w r Hall Hrun).
  destruct (lax_reachable_spec _ _ Hrun) as (sh & Hwf & _).
  destruct (lax_process_row_spec w sh r Hwf) as (w' & sh' & Hrow & Hd).
  destruct (rd_order _ _ _ _ _ _ Hd)
    as (o' & ts & Ho' & _ & _ & Hout & Hsum & _).
  exists w', o', ts. done.
Qed.

Lemma C5_executions_sum_to_filled_volume_witness :
  ∃ w w' o' ts,
    process_orders OrderBook_init demo_rows = Ok w ∧
    process_row w demo_row = Ok w' ∧
    heap w' !! new_loc w = Some o' ∧
    stdout w' = stdout w ++ ts ∧
    traded ts = 4 - volume o' ∧
    ts = [mkTrade (Some "b") (Some "a") (Fin 100) 4].
Proof.
  destruct (process_orders OrderBook_init demo_rows) as [w|e] eqn:Hrun;
    [|by vm_compute in Hrun].
  destruct (C5_executions_sum_to_filled_volume demo_rows w demo_row)
    as (w' & o' & ts & Hrow & Ho' & Hout & Hsum);
    [by repeat constructor|exact Hrun|].
  exists w, w', o', ts. do 5 (split; [done|]).
  vm_compute in Hrun. injection Hrun as <-.
  vm_compute in Hrow. injection Hrow as <-.
  vm_compute in Hout. by symmetry.
Defined.

(** C6.  An incoming order with a volume that is not negative, processed
    in a book reached from a new one on finite prices: once matching is
    over, the order is in the chain of its own side exactly when the volume
    it is left with is positive, and it is never in the chain of the other
    side. *)
Theorem C6_inserted_iff_volume_remains data w r :
  Forall (λ r, isfinite (row_price r) = true) data →
  process_orders OrderBook_init data = Ok w →
  0 ≤ row_volume r →
  ∃ w' o' own other,
    process_row w r = Ok w' ∧
    heap w' !! new_loc w = Some o' ∧
    fetch_orders w' (row_side r) = Ok own ∧
    fetch_orders w' (opposite (row_side r)) = Ok other ∧
    (new_loc w ∈ own ↔ 0 < volume o') ∧
    (volume o' = 0 → new_loc w ∉ own) ∧
    new_loc w ∉ other.
Proof.
  intros Hall Hrun%run_sound Hv.
  rewrite (row_complete data w r Hall Hrun).
  destruct (lax_reachable_spec _ _ Hrun) as (sh & Hwf & _).
  destruct (lax_process_row_spec w sh r Hwf) as (w' & sh' & Hrow & Hd).
  destruct (rd_order _ _ _ _ _ _ Hd)
    as (o' & ts & Ho' & _ & Hnn & _ & _ & Hiff & Hother).
  specialize (Hnn Hv).
  exists w', o', (resting sh' (row_side r)),
         (resting sh' (opposite (row_side r))).
  split; [done|]. split; [done|].
  split; [apply fetch_orders_wf, (rd_wf _ _ _ _ _ _ Hd)|].
  split; [apply fetch_orders_wf, (rd_wf _ _ _ _ _ _ Hd)|].
  split; [rewrite Hiff; lia|]. split; [|done].
  intros Hz Hin. apply Hiff in Hin. lia.
Qed.

Lemma C6_inserted_iff_volume_remains_witness :
  ∃ w w' o' own other,
    process_orders OrderBook_init demo_rows = Ok w ∧
    process_row w demo_row = Ok w' ∧
    heap w' !! new_loc w = Some o' ∧
    fetch_orders w' Buy = Ok own ∧
    fetch_orders w' Sell = Ok other ∧
    (new_loc w ∈ own ↔ 0 < volume o') ∧
    (volume o' = 0 → new_loc w ∉ own) ∧
    new_loc w ∉ other.
Proof.
  destruct (process_orders OrderBook_init demo_rows) as [w|e] eqn:Hrun;
    [|by vm_compute in Hrun].
  destruct (C6_inserted_iff_volume_remains demo_rows w demo_row)
    as (w' & o' & own & other & H);
    [by repeat constructor|exact Hrun|simpl; lia|].
  by exists w, w', o', own, other.
Defined.

(** ** Volumes of resting orders *)

(** C9.  After a run from a new book in which no incoming order has a
    negative volume, and every price is finite, every resting order of
    either chain has a positive volume. *)
Theorem C9_resting_volumes_positive data :
  Forall (λ r, 0 ≤ row_volume r) data →
  Forall (λ r, isfinite (row_price r) = true) data →
  ∃ w, process_orders OrderBook_init data = Ok w ∧
       ∀ sd, ∃ xs, fetch_orders w sd = Ok xs ∧
                   ∀ x, x ∈ xs → ∃ n, heap w !! x = Some n ∧ 0 < volume n.
Proof.
  intros Hall Hfin. rewrite (run_complete data Hfin).
  destruct (lax_run_spec data) as (w & sh & Hrun & Hwf & _ & _ & Hpos).
  exists w. split; [done|]. intros sd. exists (resting sh sd).
  split; [by apply fetch_orders_wf|]. apply (Hpos Hall sd).
Qed.

Lemma C9_resting_volumes_positive_witness :
  ∃ w, process_orders OrderBook_init
         [mkRow "a" Sell (Fin 100) 10 None 1;
          mkRow "b" Buy (Fin 100) 4 None 2;
          mkRow "c" Buy (Fin 99) 0 None 3] = Ok w ∧
       ∀ sd, ∃ xs, fetch_orders w sd = Ok xs ∧
                   ∀ x, x ∈ xs → ∃ n, heap w !! x = Some n ∧ 0 < volume n.
Proof.
  apply C9_resting_volumes_positive.
  - repeat (apply Forall_cons; split; [simpl; lia|]). apply Forall_nil_2.
  - by repeat constructor.
Defined.

(** The condition on the volumes is needed: [process_orders] adds an order
    to the book when its volume is not zero, so an incoming order with a
    negative volume that matches nothing rests with that volume. *)
Example negative_volume_rests :
  ∃ w, process_orders OrderBook_init [mkRow "a" Buy (Fin 100) (-5) None 1]
         = Ok w ∧
       describe w Buy = Ok [(Some "a", Fin 100, -5)].
Proof. eexists. split; vm_compute; reflexivity. Qed.

(** ** An incoming order with no volume *)

(** C10.  In a book reached from a new one by orders without negative
    volumes and with finite prices, an incoming order of volume zero whose
    price crosses the price of the head [hd] of the opposite chain:
    [process_orders] writes exactly
    one execution, of volume zero, against that head; the book record (the
    two heads and the two effective prices) and every object of the store
    are as before, the store only gaining the incoming order, which rests
    nowhere. *)
Theorem C10_zero_volume_order data w r hd rest n :
  Forall (λ r, 0 ≤ row_volume r) data →
  Forall (λ r, isfinite (row_price r) = true) data →
  process_orders OrderBook_init data = Ok w →
  row_volume r = 0 →
  fetch_orders w (opposite (row_side r)) = Ok (hd :: rest) →
  heap w !! hd = Some n →
  crosses (opposite (row_side r)) (price n) (row_price r) = true →
  ∃ w',
    process_orders w [r] = Ok w' ∧
    stdout w' =
      stdout w ++ [mkTrade (Some (row_id r)) (orderid n) (price n) 0] ∧
    book w' = book w ∧
    heap w' = <[new_loc w := construct r]> (heap w) ∧
    ∀ sd, fetch_orders w' sd = fetch_orders w sd.
Proof.
  intros Hall Hfin Hrun%run_sound Hvol Hfetch Hn Hcross.
  destruct (lax_reachable_spec _ _ Hrun) as (sh & Hwf & Heff & _ & Hpos).
  specialize (Hpos Hall).
  set (sd := opposite (row_side r)) in *.
  rewrite (fetch_orders_wf _ _ _ Hwf) in Hfetch. injection Hfetch as Hxs.
  pose proof (wf_head _ _ Hwf sd) as Hh. unfold nodes in Hh.
  rewrite Hxs in Hh. simpl in Hh. injection Hh as Hh.
  pose proof (wf_links _ _ Hwf sd) as Hl. unfold nodes in Hl.
  rewrite Hxs in Hl. simpl in Hl.
  apply links_cons_inv in Hl as (n0 & Hn0 & _ & Hnn & _).
  assert (n0 = n) as -> by congruence. clear Hn0.
  destruct (next_or_snoc None rest (terminal sh sd)) as (nx & _ & Hnx).
  rewrite Hnx in Hnn.
  assert (effective w sd = price n) as Heffn.
  { destruct (Heff sd) as [(hn & Hhn & Hp)|[He _]]; [|by rewrite Hxs in He].
    rewrite <- Hh in Hhn. congruence. }
  destruct (Hpos sd hd) as (n1 & Hn1 & Hvn); [rewrite Hxs; by left|].
  assert (n1 = n) as -> by congruence. clear Hn1.
  set (o := construct r). set (order := new_loc w).
  set (w0 := alloc w o).
  assert (heap w0 !! order = Some o) as Ho by apply lookup_insert_eq.
  assert (heap w0 !! hd = Some n) as Hn' by (by apply alloc_lookup_old).
  pose proof (wf_alloc _ _ o Hwf) as Hwf0. fold w0 in Hwf0.
  pose proof (wf_fresh _ _ _ Hwf (new_loc_fresh w)) as Hfr. fold order in Hfr.
  destruct (lax_match_body_spec sd w0 sh order o hd n rest Hwf0 Hxs Ho Hfr
              Hn')
    as (w1 & nd1 & Hbody & Hout & _ & _ & Hcase).
  rewrite decide_False in Hcase by (simpl; lia).
  destruct Hcase as (Hheap & -> & Hbook & Hwf1).
  assert (volume o = 0) as Hvo by done.
  rewrite Hvo in Hheap, Hout.
  replace (Z.min 0 (volume n)) with 0 in Hheap, Hout by lia.
  replace (volume n - 0) with (volume n) in Hheap by lia.
  replace (0 - 0) with (volume o) in Hheap by lia.
  rewrite !set_volume_id in Hheap.
  rewrite (insert_id _ _ _ Hn'), (insert_id _ _ _ Ho) in Hheap.
  exists w1. split.
  - cut (process_row w r = Ok w1); [by (simpl; intros ->)|].
    rewrite (row_complete data w r Hfin Hrun).
    unfold lax_process_row. fold o order w0.
    unfold lax_process_order.
    rewrite (lax_crossing_unfold _ _ _ Ho). simpl side. fold sd.
    change (effective w0 sd) with (effective w sd).
    change (price o) with (row_price r). rewrite Heffn, Hcross.
    cbn [lax_match_loop]. change (head_of w0 sd) with (head_of w sd).
    rewrite <- Hh.
    rewrite (getattr_Some _ _ _ Hn'). cbn [bind].
    rewrite Hnn. simpl truthy. cbv iota.
    rewrite (getattr_Some _ _ _ Ho). cbn [bind].
    change (price o) with (row_price r).
    rewrite Hcross. rewrite Hbody. cbn [bind fst snd].
    unfold getattr. rewrite Hheap, Ho. cbn [bind]. rewrite Hvo. simpl.
    rewrite Hheap, Ho. cbn [bind]. by rewrite Hvo.
  - split; [done|]. split; [done|]. split; [done|].
    intros s. by rewrite (fetch_orders_wf _ _ _ Hwf1), (fetch_orders_wf _ _ _ Hwf).
Qed.

Lemma C10_zero_volume_order_witness :
  ∃ w w',
    process_orders OrderBook_init [mkRow "a" Sell (Fin 100) 10 None 1]
      = Ok w ∧
    process_orders w [mkRow "z" Buy (Fin 100) 0 None 2] = Ok w' ∧
    stdout w' = stdout w ++ [mkTrade (Some "z") (Some "a") (Fin 100) 0] ∧
    book w' = book w ∧
    ∀ sd, fetch_orders w' sd = fetch_orders w sd.
Proof.
  pose (data := [mkRow "a" Sell (Fin 100) 10 None 1]).
  pose (n := mkOrder (Some "a") Sell (Fin 100) 10 None (Some 2%positive)
                     1 None).
  assert (∃ w, process_orders OrderBook_init data = Ok w ∧
               fetch_orders w Sell = Ok [3%positive] ∧
               heap w !! 3%positive = Some n) as (w & Hrun & Hf & Hn).
  { eexists. split; [vm_compute; reflexivity|].
    split; vm_compute; reflexivity. }
  destruct (C10_zero_volume_order data w
              (mkRow "z" Buy (Fin 100) 0 None 2) 3%positive [] n)
    as (w' & H1 & H2 & H3 & _ & H5).
  - repeat (apply Forall_cons; split; [simpl; lia|]). apply Forall_nil_2.
  - by repeat constructor.
  - exact Hrun.
  - reflexivity.
  - exact Hf.
  - exact Hn.
  - reflexivity.
  - exists w, w'. done.
Defined.

(** ** Visible volume *)

(** C7, as amended.  The visible volume of an order is the smaller of its
    disclosed volume and its volume when a disclosed volume other than zero
    is set; it is the volume of the order when no disclosed volume is set
    or when the disclosed volume is zero. *)
Theorem C7_visible_volume (o : Order) :
  (∀ i, _iceberg o = Some i → i ≠ 0 →
        visible_volume o = Z.min i (volume o)) ∧
  (_iceberg o = None ∨ _iceberg o = Some 0 → visible_volume o = volume o).
Proof.
  unfold visible_volume. split.
  - intros i -> Hi. destruct (Z.eqb_spec i 0); [done|done].
  - intros [-> | ->]; done.
Qed.

Lemma C7_visible_volume_witness :
  visible_volume (Order_init (Some "a") Buy (Fin 100) 100000 (Some 10000) 1)
  = 10000.
Proof.
  apply (proj1 (C7_visible_volume
                  (Order_init (Some "a") Buy (Fin 100) 100000 (Some 10000) 1))
               10000).
  - reflexivity.
  - discriminate.
Defined.

(** C7, as stated, fails: an order of volume 5 built with the disclosed
    volume 0 shows 5, not the smaller of 0 and 5. *)
Lemma C7_zero_disclosed_volume_is_ignored :
  ¬ (∀ o i, _iceberg o = Some i → visible_volume o = Z.min i (volume o)).
Proof.
  intros H.
  specialize (H (Order_init (Some "a") Buy (Fin 100) 5 (Some 0) 1) 0 eq_refl).
  discriminate H.
Qed.

(** ** Loading a saved book *)




(** * More properties of the code *)

(** ** The comparisons of orders *)


(** X1.  The four comparisons of an order class agree with each other:
    [a < b] is the negation of [a >= b], [a > b] the negation of
    [a <= b], and [a != b] the negation of [a == b]. *)
Theorem X1_comparisons_complement (a b : Order) :
  order_lt a b = negb (order_ge a b) ∧
  order_gt a b = negb (order_le a b) ∧
  Order_ne a b = negb (Order_eq a b).
Proof. repeat split; compare_cases a b. Qed.


(** X2.  Between two orders of the same side, swapping the operands swaps
    the comparison: [a < b] is [b > a] and [a <= b] is [b >= a]; and
    [a <= b] holds exactly when [a < b] or [a == b]. *)
Theorem X2_comparisons_reflect (a b : Order) :
  side a = side b →
  order_lt a b = order_gt b a ∧
  order_le a b = order_ge b a ∧
  order_le a b = order_lt a b || Order_eq a b ∧
  order_ge a b = order_gt a b || Order_eq a b.
Proof. intros Hs. repeat split; revert Hs; compare_cases2 a b. Qed.

Lemma X2_comparisons_reflect_witness :
  let a := Order_init (Some "a") Sell (Fin 100) 10 None 1 in
  let b := Order_init (Some "b") Sell (Fin 105) 5 None 2 in
  order_lt a b = order_gt b a ∧
  order_le a b = order_ge b a ∧
  order_le a b = order_lt a b || Order_eq a b ∧
  order_ge a b = order_gt a b || Order_eq a b.
Proof.
  apply (X2_comparisons_reflect
           (Order_init (Some "a") Sell (Fin 100) 10 None 1)
           (Order_init (Some "b") Sell (Fin 105) 5 None 2)).
  reflexivity.
Defined.

(** X3.  On the orders of one side, [<=] is a total preorder: any two
    orders are comparable, and the comparison is transitive; two orders
    each [<=] the other are [==]. *)
Theorem X3_le_total_preorder (a b c : Order) :
  side a = side b → side b = side c →
  (order_le a b = true ∨ order_le b a = true) ∧
  (order_le a b = true → order_le b c = true → order_le a c = true) ∧
  (order_le a b = true → order_le b a = true → Order_eq a b = true).
Proof.
  intros Hab Hbc. split; [|split].
  - revert Hab. compare_cases2 a b; auto.
  - rewrite !order_le_price_time. rewrite <- Hab.
    destruct (side a).
    + intros [H1|[H1 H1']] [H2|[H2 H2']].
      * left. by eapply price_lt_trans.
      * left. by rewrite <- H2.
      * left. by rewrite H1.
      * right. split; [congruence|lia].
    + intros [H1|[H1 H1']] [H2|[H2 H2']].
      * left. by eapply price_lt_trans.
      * left. by rewrite <- H2.
      * left. by rewrite H1.
      * right. split; [congruence|lia].
  - revert Hab. compare_cases2 a b.
Qed.

Lemma X3_le_total_preorder_witness :
  let a := Order_init (Some "a") Buy (Fin 100) 10 None 1 in
  let b := Order_init (Some "b") Buy (Fin 100) 5 None 2 in
  let c := Order_init (Some "c") Buy (Fin 101) 5 None 3 in
  (order_le a b = true ∨ order_le b a = true) ∧
  (order_le a b = true → order_le b c = true → order_le a c = true) ∧
  (order_le a b = true → order_le b a = true → Order_eq a b = true).
Proof.
  apply (X3_le_total_preorder
           (Order_init (Some "a") Buy (Fin 100) 10 None 1)
           (Order_init (Some "b") Buy (Fin 100) 5 None 2)
           (Order_init (Some "c") Buy (Fin 101) 5 None 3));
    reflexivity.
Defined.

(** X4.  The two order classes rank the same way up to the sign of the
    price: a comparison of [BuyOrder] is the same comparison of
    [SellOrder] on the two orders with their prices negated. *)
Theorem X4_buy_is_sell_on_negated_prices (a b : Order) :
  let a' := set_price (price_opp (price a)) a in
  let b' := set_price (price_opp (price b)) b in
  BuyOrder.lt a b = SellOrder.lt a' b' ∧
  BuyOrder.gt a b = SellOrder.gt a' b' ∧
  BuyOrder.le a b = SellOrder.le a' b' ∧
  BuyOrder.ge a b = SellOrder.ge a' b'.
Proof.
  unfold BuyOrder.lt, BuyOrder.gt, BuyOrder.le, BuyOrder.ge,
    SellOrder.lt, SellOrder.gt, SellOrder.le, SellOrder.ge, price_gt,
    _ordertime_priority.
  destruct (price a) as [|pa|], (price b) as [|pb|]; simpl;
  repeat match goal with
    | |- context [ (?x <? ?y) ] =>
        lazymatch x with
        | context [ if _ then _ else _ ] => fail
        | _ => destruct (Z.ltb_spec x y); simpl
        end
    end;
  repeat split; try done; try lia.
Qed.

(** ** The program on the lists of resting orders *)

(** The rows of the examples: the buy order at 100 for 4 trades with the
    sell order at 100 for 10 that rests. *)
Example demo_row_trades :
  ∃ w w',
    process_orders OrderBook_init demo_rows = Ok w ∧
    process_row w demo_row = Ok w' ∧
    stdout w' = stdout w ++ [mkTrade (Some "b") (Some "a") (Fin 100) 4] ∧
    describe w' Sell = Ok [(Some "a", Fin 100, 6)] ∧
    describe w' Buy = Ok [].
Proof.
  eexists _, _. split; [vm_compute; reflexivity|].
  split; [vm_compute; reflexivity|]. split; [vm_compute; reflexivity|].
  split; vm_compute; reflexivity.
Qed.

(** X5.  A run of [process_orders] from a new book computes what the list
    program [list_orders] computes: for every input with finite prices the
    run ends, the resting orders of each chain are, in chain order, the
    orders of the corresponding list, and the executions written are those
    of the list program, in the same order. *)
Theorem X5_process_orders_is_list_orders (data : list Row) :
  Forall (λ r, isfinite (row_price r) = true) data →
  ∃ w, process_orders OrderBook_init data = Ok w ∧
       view w Buy = Ok (bids (list_orders data)) ∧
       view w Sell = Ok (asks (list_orders data)) ∧
       stdout w = tape (list_orders data).
Proof.
  intros Hfinite. rewrite (run_complete data Hfinite).
  destruct (lax_process_orders_lists data _ _ wf_init eff_ok_init)
    as (w & sh & Hrun & Hwf & _ & Hl).
  exists w. split; [done|].
  destruct (lists_of_views _ _ Hwf) as (Hb & Ha & Ht).
  rewrite Hb, Ha, Ht, Hl. done.
Qed.

Lemma X5_process_orders_is_list_orders_witness :
  ∃ w, process_orders OrderBook_init (demo_rows ++ [demo_row]) = Ok w ∧
       view w Buy = Ok (bids (list_orders (demo_rows ++ [demo_row]))) ∧
       view w Sell = Ok (asks (list_orders (demo_rows ++ [demo_row]))) ∧
       stdout w = tape (list_orders (demo_rows ++ [demo_row])).
Proof.
  apply (X5_process_orders_is_list_orders (demo_rows ++ [demo_row])).
  by repeat constructor.
Defined.

(** X6.  One incoming order, in a book reached from a new one on finite
    prices, seen on the lists of resting orders: the executions written are
    those of [fill] on the other side's list, which is left as [fill]
    leaves it; the order's own list is unchanged when no volume is left,
    and otherwise receives the order, with the volume left, where [place]
    puts it. *)
Theorem X6_process_row_on_lists data w r own opp :
  Forall (λ r, isfinite (row_price r) = true) data →
  process_orders OrderBook_init data = Ok w →
  view w (row_side r) = Ok own →
  view w (opposite (row_side r)) = Ok opp →
  ∃ w',
    process_row w r = Ok w' ∧
    let f := fill (opposite (row_side r)) (construct r) opp in
    stdout w' = stdout w ++ fst (fst f) ∧
    view w' (opposite (row_side r)) = Ok (snd f) ∧
    view w' (row_side r)
    = Ok (if volume (snd (fst f)) =? 0 then own
          else place (snd (fst f)) own).
Proof.
  intros Hfinite Hrun%run_sound Hown Hopp.
  rewrite (row_complete data w r Hfinite Hrun).
  by apply (lax_process_row_on_lists data).
Qed.

Lemma X6_process_row_on_lists_witness :
  ∃ w, process_orders OrderBook_init demo_rows = Ok w ∧
       ∃ w',
         process_row w demo_row = Ok w' ∧
         let f := fill Sell (construct demo_row)
                       [construct (mkRow "a" Sell (Fin 100) 10 None 1)] in
         stdout w' = stdout w ++ fst (fst f) ∧
         view w' Sell = Ok (snd f) ∧
         view w' Buy
         = Ok (if volume (snd (fst f)) =? 0 then []
               else place (snd (fst f)) []).
Proof.
  eexists. split; [vm_compute; reflexivity|].
  apply (X6_process_row_on_lists demo_rows _ demo_row []
           [construct (mkRow "a" Sell (Fin 100) 10 None 1)]).
  - by repeat constructor.
  - vm_compute. reflexivity.
  - vm_compute. reflexivity.
  - vm_compute. reflexivity.
Defined.

(** X7.  In a book reached from a new one on finite prices, every execution
    written while an incoming order is processed names that order as the
    executing order, and its price crosses the limit of the order: at most
    the limit for a buy order, at least the limit for a sell order. *)
Theorem X7_executions_within_limit data w r :
  Forall (λ r, isfinite (row_price r) = true) data →
  process_orders OrderBook_init data = Ok w →
  ∃ w' ts,
    process_row w r = Ok w' ∧ stdout w' = stdout w ++ ts ∧
    Forall (λ t, execid t = Some (row_id r) ∧
                 crosses (opposite (row_side r)) (trade_price t)
                         (row_price r) = true) ts.
Proof.
  intros Hfinite Hrun%run_sound. rewrite (row_complete data w r Hfinite Hrun).
  destruct (lax_row_outcome data w r Hrun)
    as (w' & own & opp & own' & opp' & ts & o' & _ & _ & Hrow & Hout & _ & _
        & Hf & _).
  exists w', ts. split; [done|]. split; [done|].
  pose proof (fill_trades (opposite (row_side r)) (construct r) opp) as H.
  by rewrite Hf in H.
Qed.

Lemma X7_executions_within_limit_witness :
  ∃ w, process_orders OrderBook_init demo_rows = Ok w ∧
       ∃ w' ts,
         process_row w demo_row = Ok w' ∧ stdout w' = stdout w ++ ts ∧
         Forall (λ t, execid t = Some "b" ∧
                      crosses Sell (trade_price t) (Fin 100) = true) ts.
Proof.
  eexists. split; [vm_compute; reflexivity|].
  apply (X7_executions_within_limit demo_rows _ demo_row).
  - by repeat constructor.
  - vm_compute. reflexivity.
Defined.

(** X8.  Volume is conserved in a book reached from a new one on finite
    prices: the volume resting on the other side goes down by exactly the
    volume of the executions written, and the volume resting on the order's
    own side goes up by exactly the part of the order that was not
    executed. *)
Theorem X8_volume_is_conserved data w r :
  Forall (λ r, isfinite (row_price r) = true) data →
  process_orders OrderBook_init data = Ok w →
  ∃ w' own opp own' opp' ts,
    view w (row_side r) = Ok own ∧
    view w (opposite (row_side r)) = Ok opp ∧
    process_row w r = Ok w' ∧ stdout w' = stdout w ++ ts ∧
    view w' (row_side r) = Ok own' ∧
    view w' (opposite (row_side r)) = Ok opp' ∧
    total_volume opp' + traded ts = total_volume opp ∧
    total_volume own' = total_volume own + (row_volume r - traded ts).
Proof.
  intros Hfinite Hrun%run_sound. rewrite (row_complete data w r Hfinite Hrun).
  destruct (lax_row_outcome data w r Hrun)
    as (w' & own & opp & own' & opp' & ts & o' & Hown & Hopp & Hrow & Hout
        & Hown' & Hopp' & Hf & Hplace).
  exists w', own, opp, own', opp', ts. do 6 (split; [done|]).
  destruct (fill_volume (opposite (row_side r)) (construct r) opp)
    as [H1 H2].
  rewrite Hf in H1, H2. simpl in H1, H2. split; [lia|].
  rewrite Hplace. destruct (Z.eqb_spec (volume o') 0) as [Hz|Hz]; [lia|].
  rewrite (total_volume_perm _ _ (place_perm o' own)).
  unfold total_volume. simpl. lia.
Qed.

Lemma X8_volume_is_conserved_witness :
  ∃ w, process_orders OrderBook_init demo_rows = Ok w ∧
       ∃ w' own opp own' opp' ts,
         view w Buy = Ok own ∧
         view w Sell = Ok opp ∧
         process_row w demo_row = Ok w' ∧ stdout w' = stdout w ++ ts ∧
         view w' Buy = Ok own' ∧
         view w' Sell = Ok opp' ∧
         total_volume opp' + traded ts = total_volume opp ∧
         total_volume own' = total_volume own + (4 - traded ts).
Proof.
  eexists. split; [vm_compute; reflexivity|].
  apply (X8_volume_is_conserved demo_rows _ demo_row).
  - by repeat constructor.
  - vm_compute. reflexivity.
Defined.

(** X9.  In a book reached from a new one on finite prices, an incoming
    order is left with some volume only when it can no longer trade with
    the head of the other side: after it is processed, either it is
    executed in full, or the other side is empty, or the price of the head
    of the other side does not cross its limit. *)
Theorem X9_rests_only_when_head_does_not_cross data w r :
  Forall (λ r, isfinite (row_price r) = true) data →
  process_orders OrderBook_init data = Ok w →
  ∃ w' opp' ts,
    process_row w r = Ok w' ∧ stdout w' = stdout w ++ ts ∧
    view w' (opposite (row_side r)) = Ok opp' ∧
    (row_volume r - traded ts = 0 ∨
     match opp' with
     | [] => True
     | n :: _ =>
         crosses (opposite (row_side r)) (price n) (row_price r) = false
     end).
Proof.
  intros Hfinite Hrun%run_sound. rewrite (row_complete data w r Hfinite Hrun).
  destruct (lax_row_outcome data w r Hrun)
    as (w' & own & opp & own' & opp' & ts & o' & _ & _ & Hrow & Hout
        & _ & Hopp' & Hf & _).
  exists w', opp', ts. do 3 (split; [done|]).
  destruct (fill_volume (opposite (row_side r)) (construct r) opp)
    as [H1 _].
  pose proof (fill_exit (opposite (row_side r)) (construct r) opp) as H2.
  rewrite Hf in H1, H2. simpl in H1, H2.
  destruct H2 as [H2|H2]; [left; lia|by right].
Qed.

Lemma X9_rests_only_when_head_does_not_cross_witness :
  ∃ w, process_orders OrderBook_init demo_rows = Ok w ∧
       ∃ w' opp' ts,
         process_row w demo_row = Ok w' ∧ stdout w' = stdout w ++ ts ∧
         view w' Sell = Ok opp' ∧
         (4 - traded ts = 0 ∨
          match opp' with
          | [] => True
          | n :: _ => crosses Sell (price n) (Fin 100) = false
          end).
Proof.
  eexists. split; [vm_compute; reflexivity|].
  apply (X9_rests_only_when_head_does_not_cross demo_rows _ demo_row).
  - by repeat constructor.
  - vm_compute. reflexivity.
Defined.



(** X11.  Where an incoming order comes to rest, in a book reached from a
    new one on finite prices.  With no volume left it is not added and its
    side is unchanged.  Otherwise it is added, with the volume left,
    immediately before the first resting order of its side for which
    [order <= nd] fails, every order in front of it having [order <= nd];
    and when [order <= nd] holds for every resting order, it is added in
    front of them all. *)
Theorem X11_where_the_order_rests data w r :
  Forall (λ r, isfinite (row_price r) = true) data →
  process_orders OrderBook_init data = Ok w →
  ∃ w' own own' ts,
    view w (row_side r) = Ok own ∧
    process_row w r = Ok w' ∧ stdout w' = stdout w ++ ts ∧
    view w' (row_side r) = Ok own' ∧
    let o := set_volume (row_volume r - traded ts) (construct r) in
    (volume o = 0 ∧ own' = own) ∨
    (volume o ≠ 0 ∧
     ∃ pre n post, own = pre ++ n :: post ∧ own' = pre ++ o :: n :: post ∧
                   Forall (λ m, order_le o m = true) pre ∧
                   order_le o n = false) ∨
    (volume o ≠ 0 ∧ Forall (λ m, order_le o m = true) own ∧
     own' = o :: own).
Proof.
  intros Hfinite Hrun%run_sound. rewrite (row_complete data w r Hfinite Hrun).
  destruct (lax_row_outcome data w r Hrun)
    as (w' & own & opp & own' & opp' & ts & o' & Hown & _ & Hrow & Hout
        & Hown' & _ & Hf & Hplace).
  exists w', own, own', ts. do 4 (split; [done|]).
  destruct (fill_volume (opposite (row_side r)) (construct r) opp)
    as [H1 _].
  pose proof (fill_order (opposite (row_side r)) (construct r) opp) as H2.
  rewrite Hf in H1, H2. simpl in H1, H2.
  assert (o' = set_volume (row_volume r - traded ts) (construct r)) as ->.
  { rewrite H2. f_equal. simpl in H1. lia. }
  cbn zeta. simpl volume in *.
  destruct (Z.eqb_spec (row_volume r - traded ts) 0) as [Hz|Hz];
    [by left|right].
  unfold place in Hplace.
  destruct (place_break _ own) as [l|] eqn:E.
  - left. split; [done|]. subst own'. by apply place_break_Some.
  - right. split; [done|]. split; [|done]. by apply place_break_None.
Qed.

Lemma X11_where_the_order_rests_witness :
  ∃ w, process_orders OrderBook_init demo_rows = Ok w ∧
       ∃ w' own own' ts,
         view w Sell = Ok own ∧
         process_row w (mkRow "c" Sell (Fin 99) 5 None 2) = Ok w' ∧
         stdout w' = stdout w ++ ts ∧
         view w' Sell = Ok own' ∧
         let o := set_volume (5 - traded ts)
                    (construct (mkRow "c" Sell (Fin 99) 5 None 2)) in
         (volume o = 0 ∧ own' = own) ∨
         (volume o ≠ 0 ∧
          ∃ pre n post, own = pre ++ n :: post ∧
                        own' = pre ++ o :: n :: post ∧
                        Forall (λ m, order_le o m = true) pre ∧
                        order_le o n = false) ∨
         (volume o ≠ 0 ∧ Forall (λ m, order_le o m = true) own ∧
          own' = o :: own).
Proof.
  eexists. split; [vm_compute; reflexivity|].
  apply (X11_where_the_order_rests demo_rows _
           (mkRow "c" Sell (Fin 99) 5 None 2)).
  - by repeat constructor.
  - vm_compute. reflexivity.
Defined.

(** X12.  An incoming order that finds the other side empty, or whose
    limit the price of the head of the other side does not cross, writes
    no execution and leaves the other side as it is. *)
Theorem X12_no_cross_no_execution data w r opp :
  process_orders OrderBook_init data = Ok w →
  view w (opposite (row_side r)) = Ok opp →
  match opp with
  | [] => True
  | n :: _ => crosses (opposite (row_side r)) (price n) (row_price r) = false
  end →
  ∃ w',
    process_row w r = Ok w' ∧ stdout w' = stdout w ∧
    view w' (opposite (row_side r)) = Ok opp.
Proof.
  intros Hrun%run_sound Hopp Hno.
  destruct (lax_row_outcome data w r Hrun)
    as (w' & own & opp0 & own' & opp' & ts & o' & _ & Hopp0 & Hrow & Hout
        & _ & Hopp' & Hf & _).
  rewrite Hopp in Hopp0. injection Hopp0 as <-.
  assert (ts = [] ∧ opp' = opp) as [-> ->].
  { destruct opp as [|n rest]; simpl in Hf; [by injection Hf as <- _ <-|].
    simpl in Hno. rewrite Hno in Hf. by injection Hf as <- _ <-. }
  rewrite app_nil_r in Hout. exists w'.
  split; [by apply row_complete_silent|done].
Qed.

Lemma X12_no_cross_no_execution_witness :
  ∃ w',
    process_row OrderBook_init (mkRow "a" Buy (Fin 100) 10 None 1) = Ok w' ∧
    stdout w' = stdout OrderBook_init ∧
    view w' Sell = Ok [].
Proof.
  apply (X12_no_cross_no_execution [] OrderBook_init
           (mkRow "a" Buy (Fin 100) 10 None 1) []); [reflexivity..|done].
Defined.

(** X13.  In a book reached from a new one on finite prices, processing an
    incoming order keeps both chains in priority order (ties allowed),
    provided the order's own side is empty or holds a resting order that
    the incoming order outranks ([order <= nd] fails for it).  Matching
    alone never disturbs the order of a chain. *)
Theorem X13_priority_order_is_kept data w r own :
  Forall (λ r, isfinite (row_price r) = true) data →
  process_orders OrderBook_init data = Ok w →
  weakly_ordered w Buy = true → weakly_ordered w Sell = true →
  view w (row_side r) = Ok own →
  own = [] ∨ Exists (λ n, order_le (construct r) n = false) own →
  ∃ w', process_row w r = Ok w' ∧
        weakly_ordered w' Buy = true ∧ weakly_ordered w' Sell = true.
Proof.
  intros Hfinite Hrun%run_sound Hbuy Hsell Hown Hcond.
  rewrite (row_complete data w r Hfinite Hrun).
  destruct (lax_reachable_lists _ _ Hrun) as (sh & Hwf & _ & _).
  destruct (lax_row_outcome data w r Hrun)
    as (w' & own0 & opp & own' & opp' & ts & o' & Hown0 & Hopp & Hrow & _
        & Hown' & Hopp' & Hf & Hplace).
  rewrite Hown in Hown0. injection Hown0 as <-.
  destruct (lax_process_row_spec w sh r Hwf) as (w2 & sh2 & Hrow2 & Hd).
  rewrite Hrow in Hrow2. injection Hrow2 as <-.
  pose proof (rd_wf _ _ _ _ _ _ Hd) as Hwf'.
  assert (∀ sd, weakly_ordered w sd = true) as Hsorted by (by intros [|]).
  assert (∀ sd l, view w sd = Ok l → sorted_by order_ge l = true) as Hs.
  { intros sd l Hl. rewrite (view_wf _ _ _ Hwf) in Hl. injection Hl as <-.
    rewrite <- (weakly_ordered_view _ _ _ Hwf). apply Hsorted. }
  assert (∀ sd l, view w' sd = Ok l → sorted_by order_ge l = true →
                  weakly_ordered w' sd = true) as Hs'.
  { intros sd l Hl Hsl. rewrite (view_wf _ _ _ Hwf') in Hl.
    injection Hl as <-. by rewrite (weakly_ordered_view _ _ _ Hwf'). }
  exists w'. split; [done|].
  assert (sorted_by order_ge opp' = true) as Hopp_sorted.
  { pose proof (fill_makers (opposite (row_side r)) (construct r) opp) as H.
    cbn zeta in H. rewrite Hf in H. simpl in H.
    destruct H as [_ [->|(k & n & rest & v & _ & Hd' & -> & _)]].
    - apply sorted_by_drop. by eapply Hs.
    - rewrite (sorted_by_head _ n); [|done]. rewrite <- Hd'.
      apply sorted_by_drop. by eapply Hs. }
  assert (sorted_by order_ge own' = true) as Hown_sorted.
  { pose proof (fill_order (opposite (row_side r)) (construct r) opp) as Ho'.
    rewrite Hf in Ho'. simpl in Ho'.
    pose proof (lax_reachable_sides _ _ _ _ Hrun Hown) as Hsides.
    rewrite Hplace. destruct (volume o' =? 0); [by eapply Hs|].
    unfold place. destruct (place_break o' own) as [l|] eqn:E.
    - apply place_break_Some in E
        as (pre & n & post & -> & -> & Hpre & Hn).
      apply sorted_by_insert; [by eapply Hs| |by apply order_le_false_ge].
      apply Forall_app in Hsides as [Hsides _].
      rewrite Forall_forall in Hpre, Hsides. apply Forall_forall.
      intros m Hm. rewrite <- order_le_ge_swap; [by apply Hpre|].
      rewrite Ho'. simpl. symmetry. by apply Hsides.
    - apply place_break_None in E.
      destruct Hcond as [->|Hex]; [done|].
      apply Exists_exists in Hex as (n & Hn & Hle).
      rewrite Forall_forall in E. specialize (E n Hn).
      rewrite Ho' in E. change (order_le (set_volume _ ?o) n)
        with (order_le o n) in E. congruence. }
  destruct (row_side r); simpl in *; split; eauto.
Qed.

Lemma X13_priority_order_is_kept_witness :
  ∃ w, process_orders OrderBook_init demo_rows = Ok w ∧
       ∃ w', process_row w (mkRow "c" Sell (Fin 99) 5 None 2) = Ok w' ∧
             weakly_ordered w' Buy = true ∧ weakly_ordered w' Sell = true.
Proof.
  eexists. split; [vm_compute; reflexivity|].
  apply (X13_priority_order_is_kept demo_rows _
           (mkRow "c" Sell (Fin 99) 5 None 2)
           [construct (mkRow "a" Sell (Fin 100) 10 None 1)]).
  - by repeat constructor.
  - vm_compute. reflexivity.
  - vm_compute. reflexivity.
  - vm_compute. reflexivity.
  - vm_compute. reflexivity.
  - right. by constructor.
Defined.

(** X14.  When no incoming order has had a negative volume and every price
    has been finite, no execution has a negative volume; and every
    execution written for an incoming order of positive volume has a
    positive volume. *)
Theorem X14_execution_volumes data w r :
  Forall (λ r, 0 ≤ row_volume r) data →
  Forall (λ r, isfinite (row_price r) = true) data →
  process_orders OrderBook_init data = Ok w →
  0 ≤ row_volume r →
  ∃ w' ts,
    process_row w r = Ok w' ∧ stdout w' = stdout w ++ ts ∧
    Forall (λ t, 0 ≤ trade_volume t ∧
                 (0 < row_volume r → 0 < trade_volume t)) ts.
Proof.
  intros Hall Hfinite Hrun%run_sound Hv.
  rewrite (row_complete data w r Hfinite Hrun).
  destruct (lax_reachable_spec _ _ Hrun) as (sh & Hwf & _ & _ & Hpos).
  specialize (Hpos Hall).
  destruct (lax_row_outcome data w r Hrun)
    as (w' & own & opp & own' & opp' & ts & o' & _ & Hopp & Hrow & Hout
        & _ & _ & Hf & _).
  exists w', ts. split; [done|]. split; [done|].
  rewrite (view_wf _ _ _ Hwf) in Hopp. injection Hopp as <-.
  pose proof (fill_trade_volumes (opposite (row_side r)) (construct r) _
                (positive_view w sh (opposite (row_side r)) Hwf Hpos) Hv) as H.
  by rewrite Hf in H.
Qed.

Lemma X14_execution_volumes_witness :
  ∃ w, process_orders OrderBook_init demo_rows = Ok w ∧
       ∃ w' ts,
         process_row w demo_row = Ok w' ∧ stdout w' = stdout w ++ ts ∧
         Forall (λ t, 0 ≤ trade_volume t ∧ (0 < 4 → 0 < trade_volume t))
                ts.
Proof.
  eexists. split; [vm_compute; reflexivity|].
  apply (X14_execution_volumes demo_rows _ demo_row).
  - repeat constructor. simpl. lia.
  - by repeat constructor.
  - vm_compute. reflexivity.
  - simpl. lia.
Defined.

(** X15.  After any run from a new book on finite prices each chain is a
    sound doubly-linked list: walking it from the head pointer ends at a
    terminal node without meeting a node twice, the two chains share no
    node, each node's [nextnd] is the node after it (none for the terminal
    node) and each node's [prevnd] is the node before it (none for the
    head). *)
Theorem X15_chains_are_doubly_linked (data : list Row) :
  Forall (λ r, isfinite (row_price r) = true) data →
  ∃ w bs bt ss st,
    process_orders OrderBook_init data = Ok w ∧
    fetch_orders w Buy = Ok bs ∧ fetch_orders w Sell = Ok ss ∧
    NoDup ((bs ++ [bt]) ++ (ss ++ [st])) ∧
    head (bs ++ [bt]) = Some (buy_head (book w)) ∧
    head (ss ++ [st]) = Some (sell_head (book w)) ∧
    ∀ ls, ls = bs ++ [bt] ∨ ls = ss ++ [st] →
      ∀ i x, ls !! i = Some x →
        ∃ n, heap w !! x = Some n ∧ nextnd n = ls !! S i ∧
             prevnd n = match i with
                        | O => None
                        | S j => ls !! j
                        end.
Proof.
  intros Hfinite. rewrite (run_complete data Hfinite).
  destruct (lax_run_spec data) as (w & sh & Hrun & Hwf & _).
  exists w, (resting sh Buy), (terminal sh Buy), (resting sh Sell),
         (terminal sh Sell).
  split; [done|].
  split; [by apply fetch_orders_wf|]. split; [by apply fetch_orders_wf|].
  split; [apply (wf_nodup _ _ Hwf)|].
  split; [apply (wf_head _ _ Hwf Buy)|].
  split; [apply (wf_head _ _ Hwf Sell)|].
  intros ls [-> | ->] i x Hi.
  - eapply links_index; [apply (wf_links _ _ Hwf Buy)|done].
  - eapply links_index; [apply (wf_links _ _ Hwf Sell)|done].
Qed.

Lemma X15_chains_are_doubly_linked_witness :
  ∃ w bs bt ss st,
    process_orders OrderBook_init (demo_rows ++ [demo_row]) = Ok w ∧
    fetch_orders w Buy = Ok bs ∧ fetch_orders w Sell = Ok ss ∧
    NoDup ((bs ++ [bt]) ++ (ss ++ [st])) ∧
    head (bs ++ [bt]) = Some (buy_head (book w)) ∧
    head (ss ++ [st]) = Some (sell_head (book w)) ∧
    ∀ ls, ls = bs ++ [bt] ∨ ls = ss ++ [st] →
      ∀ i x, ls !! i = Some x →
        ∃ n, heap w !! x = Some n ∧ nextnd n = ls !! S i ∧
             prevnd n = match i with
                        | O => None
                        | S j => ls !! j
                        end.
Proof.
  apply (X15_chains_are_doubly_linked (demo_rows ++ [demo_row])).
  by repeat constructor.
Defined.

(** X16.  The book holds nothing but what it was given: when no incoming
    order has had a negative volume, every resting order of a book reached
    from a new one is one of the incoming orders, on the chain of its side,
    with its identifier, price, time and disclosed volume unchanged and a
    volume that is positive and at most the volume it came with. *)
Theorem X16_resting_orders_come_from_input data w sd l :
  Forall (λ r, 0 ≤ row_volume r) data →
  process_orders OrderBook_init data = Ok w →
  view w sd = Ok l →
  Forall (λ n, side n = sd ∧ from_input data n) l.
Proof.
  intros Hall Hrun%run_sound Hview.
  apply Forall_and. split; [by eapply lax_reachable_sides|].
  destruct (lax_reachable_lists _ _ Hrun) as (sh & Hwf & _ & Hl).
  rewrite (view_side_list _ _ _ Hwf), Hl in Hview. injection Hview as <-.
  apply from_input_fold.
  - intros r Hr. split; [done|].
    by apply (proj1 (Forall_forall _ _) Hall).
  - intros [|]; constructor.
Qed.

Lemma X16_resting_orders_come_from_input_witness :
  ∃ w l,
    process_orders OrderBook_init [mkRow "a" Buy (Fin 100) 10 None 1] = Ok w ∧
    view w Buy = Ok l ∧ length l = 1%nat ∧
    Forall (λ n, side n = Buy ∧
                 from_input [mkRow "a" Buy (Fin 100) 10 None 1] n) l.
Proof.
  eexists _, _. split; [reflexivity|]. split; [reflexivity|].
  split; [reflexivity|].
  eapply (X16_resting_orders_come_from_input
            [mkRow "a" Buy (Fin 100) 10 None 1]).
  - repeat constructor. simpl. lia.
  - reflexivity.
  - reflexivity.
Defined.

(** ** What the book shows *)

(** X17.  When no incoming order has had a negative volume, every resting
    order of a book reached from a new one shows at most its volume, shows
    exactly its volume when it has no disclosed volume or a disclosed
    volume of zero, and shows a positive volume unless its disclosed
    volume is negative. *)
Theorem X17_shown_volumes data w sd l :
  Forall (λ r, 0 ≤ row_volume r) data →
  process_orders OrderBook_init data = Ok w →
  view w sd = Ok l →
  Forall (λ n, visible_volume n ≤ volume n ∧
               match _iceberg n with
               | None => visible_volume n = volume n
               | Some i =>
                   (i = 0 → visible_volume n = volume n) ∧
                   (0 < i → 0 < visible_volume n ≤ i) ∧
                   (i < 0 → visible_volume n = i)
               end) l.
Proof.
  intros Hall Hrun%run_sound Hview.
  destruct (lax_reachable_spec _ _ Hrun) as (sh & Hwf & _ & _ & Hpos).
  specialize (Hpos Hall).
  rewrite (view_wf _ _ _ Hwf) in Hview. injection Hview as <-.
  eapply Forall_impl; [apply (positive_view w sh sd Hwf Hpos)|].
  intros n Hn. simpl in Hn. unfold visible_volume.
  destruct (_iceberg n) as [i|]; [|lia].
  destruct (Z.eqb_spec i 0); repeat split; intros; lia.
Qed.

Lemma X17_shown_volumes_witness :
  ∃ w l,
    process_orders OrderBook_init
      [mkRow "a" Buy (Fin 100) 100000 (Some 10000) 1] = Ok w ∧
    view w Buy = Ok l ∧ map visible_volume l = [10000] ∧
    Forall (λ n, visible_volume n ≤ volume n ∧
                 match _iceberg n with
                 | None => visible_volume n = volume n
                 | Some i =>
                     (i = 0 → visible_volume n = volume n) ∧
                     (0 < i → 0 < visible_volume n ≤ i) ∧
                     (i < 0 → visible_volume n = i)
                 end) l.
Proof.
  eexists _, _. split; [vm_compute; reflexivity|].
  split; [vm_compute; reflexivity|]. split; [reflexivity|].
  eapply (X17_shown_volumes
            [mkRow "a" Buy (Fin 100) 100000 (Some 10000) 1] _ Buy).
  - repeat constructor. simpl. lia.
  - vm_compute. reflexivity.
  - vm_compute. reflexivity.
Defined.
